(** * ClaudeAutoWebBuilder: healing loop, test orchestration and deployment

    A shallow embedding of
      - src/healing/healing-system.ts   (class HealingSystem),
      - src/testing/testing-engine.ts   (class TestingEngine),
      - src/deployment/deployment-manager.ts (class DeploymentManager),
    together with the part of fs-extra they call.

    The TypeScript methods are [async]; they are written here in a small
    resumption monad [R] whose primitive actions are the places where the
    source awaits the outside world (disk, child processes, the network).
    [exec] runs one call to completion; [Sched] interleaves several calls
    the way the event loop does. *)

From Stdlib Require Import ZArith Ascii Uint63 PrimFloat FloatOps SpecFloat.
From stdpp Require Import base option list strings sorting gmap fin_maps pretty.

Set Default Proof Using "Type".
Open Scope string_scope.
Open Scope list_scope.
Open Scope stdpp_scope.

(* ===================================================================== *)
(** ** The file system (fs-extra) *)
(* ===================================================================== *)

Module Fs.

(** A path is its list of components; [split_path] below reads one off a
    string.  The disk is a finite map from paths to nodes; directories are
    nodes of their own, so an empty directory exists. *)
Abbreviation path := (list string).

Inductive node : Type :=
| File (content : string)
| Dir.

#[global] Instance node_eq_dec : EqDecision node.
Proof. solve_decision. Defined.

Abbreviation fsys := (gmap (list string) node).

(** [strip d p] is [Some r] exactly when [p] lies in the tree rooted at
    [d], at relative path [r]. *)
Fixpoint strip (d p : path) : option path :=
  match d, p with
  | [], _ => Some p
  | x :: d', y :: p' => if decide (x = y) then strip d' p' else None
  | _ :: _, [] => None
  end.

Definition inside (d p : path) : bool :=
  match strip d p with Some _ => true | None => false end.

(** Two paths are related when one is an ancestor of (or equal to) the
    other: an operation on one can then affect the other. *)
Definition related (p q : path) : bool := inside p q || inside q p.

(** The tree rooted at [d], keyed by relative path. *)
Definition rekey (d : path) (kv : path * node) : option (path * node) :=
  (λ r, (r, kv.2)) <$> strip d kv.1.

Definition subtree (d : path) (fs : fsys) : fsys :=
  list_to_map (omap (rekey d) (map_to_list fs)).

(** [path.join] and the parsing of a path string: components are separated
    by a slash, empty components vanish.  Dot segments are not resolved
    and every path is read from the root (application ids are UUIDs,
    backup ids are [backup-<time>]): this is how the file-system calls
    and [path.join] read a resolved path -- absolute, without dot
    segments -- and what is proved of a path that comes from outside (a
    change of a fix, a file a tool names) is proved for resolved
    paths. *)
Fixpoint split_on (sep : ascii) (s : string) (cur : string) : list string :=
  match s with
  | EmptyString => [cur]
  | String c s' =>
      if decide (c = sep) then cur :: split_on sep s' ""
      else split_on sep s' (cur +:+ String c "")
  end.

Definition split_path (s : string) : path :=
  filter (λ c, c ≠ "") (split_on "/"%char s "").

Definition join (parts : list string) : path :=
  concat (split_path <$> parts).

(** A path as a string: absolute, or relative to some directory. *)
Definition render_relative (p : path) : string := String.concat "/" p.
Definition render (p : path) : string := "/" +:+ render_relative p.

(** path.dirname *)
Definition dirname (p : path) : path := removelast p.

(** Every prefix of [p], from the root down to [p] itself. *)
Fixpoint prefixes (p : path) : list path :=
  match p with
  | [] => [[]]
  | x :: p' => [] :: ((x ::.) <$> prefixes p')
  end.

Inductive Exn : Type :=
| JsError (message : string)
| ENOENT (p : path)
| EISDIR (p : path)
| ENOTDIR (p : path)
| EIO (p : path)
| ExecError (message stdout stderr : string).

Definition exn_message (e : Exn) : string :=
  match e with
  | JsError m => m
  | ENOENT p => "ENOENT: no such file or directory, " +:+ render p
  | EISDIR p => "EISDIR: illegal operation on a directory, " +:+ render p
  | ENOTDIR p => "ENOTDIR: not a directory, " +:+ render p
  | EIO p => "EIO: i/o error, " +:+ render p
  | ExecError m _ _ => m
  end.

(** fs.pathExists *)
Definition pathExists (p : path) (fs : fsys) : bool :=
  match fs !! p with Some _ => true | None => false end.

(** mkdir -p: every missing prefix becomes a directory. *)
Definition mkdirp (p : path) (fs : fsys) : fsys :=
  fs ∪ list_to_map ((λ q, (q, Dir)) <$> prefixes p).

Definition blocked (p : path) (fs : fsys) : bool :=
  existsb (λ q, match fs !! q with Some (File _) => true | _ => false end)
          (prefixes p).

(** fs.ensureDir *)
Definition ensureDir (p : path) (fs : fsys) : Exn + fsys :=
  if blocked p fs then inl (ENOTDIR p) else inr (mkdirp p fs).

(** fs.writeFile: the parent directory must exist. *)
Definition writeFile (p : path) (c : string) (fs : fsys) : Exn + fsys :=
  match fs !! dirname p with
  | Some Dir =>
      match fs !! p with
      | Some Dir => inl (EISDIR p)
      | _ => inr (<[p := File c]> fs)
      end
  | Some (File _) => inl (ENOTDIR p)
  | None => inl (ENOENT p)
  end.

(** fs.readFile *)
Definition readFile (p : path) (fs : fsys) : Exn + string :=
  match fs !! p with
  | Some (File c) => inr c
  | Some Dir => inl (EISDIR p)
  | None => inl (ENOENT p)
  end.

(** fs.remove: rm -rf, silent when the path is absent. *)
Definition remove (p : path) (fs : fsys) : fsys :=
  filter (λ kv, strip p kv.1 = None) fs.

(** fs.copy src dst, with overwrite.  The entries of the source tree are
    written below [dst] one after the other, a directory before what it
    holds; [written] is how many of them reach the disk ([None]: all of
    them). *)
Definition shallower (a b : path * node) : Prop := (length a.1 ≤ length b.1)%nat.

#[global] Instance shallower_dec (a b : path * node) : Decision (shallower a b).
Proof. unfold shallower. apply _. Defined.

Definition parents_first (entries : list (path * node)) : list (path * node) :=
  merge_sort shallower entries.

Definition copy_entries (src : path) (fs : fsys) (written : option nat)
  : list (path * node) :=
  let all := map_to_list (subtree src fs) in
  match written with
  | None => all
  | Some k => take k (parents_first all)
  end.

Definition copy_onto (src dst : path) (written : option nat) (fs : fsys) : fsys :=
  kmap (λ r, dst ++ r) (list_to_map (copy_entries src fs written) : fsys)
    ∪ mkdirp (dirname dst) fs.

Definition copy_size (src : path) (fs : fsys) : nat :=
  length (map_to_list (subtree src fs)).

(** The walk of [listFiles]: a directory is entered unless its name starts
    with a dot or is node_modules; every regular file met is listed. *)
Definition hidden (name : string) : bool :=
  match name with
  | String "."%char _ => true
  | _ => bool_decide (name = "node_modules")
  end.

Definition walked (r : path) : bool :=
  forallb (λ name, negb (hidden name)) (dirname r).

Definition listFiles (d : path) (fs : fsys) : list string :=
  omap (λ kv, match kv.2 with
              | File _ => if walked kv.1 then Some (render_relative kv.1) else None
              | Dir => None
              end)
       (map_to_list (subtree d fs)).

End Fs.

(* ===================================================================== *)
(** ** The data model (src/types) *)
(* ===================================================================== *)

Module Types.
Import Fs.

Inductive ErrorType := syntax | runtime | performance | security | ux.
Inductive Severity := low | medium | high | critical.

Record ErrorInfo := {
  err_id : string;
  err_type : ErrorType;
  severity : Severity;
  err_file : string;
  err_line : Z;
  err_message : string;
  fix_attempted : bool;
  fix_successful : bool;
  err_timestamp : N
}.

Inductive ChangeType := ch_create | ch_update | ch_delete.

Record FileChange := {
  ch_file : string;
  ch_type : ChangeType;
  original_content : option string;
  new_content : option string
}.

Record RollbackInfo := {
  backup_id : string;
  rb_timestamp : N;
  rb_files : list string
}.

Inductive FixType := fx_code | fx_config | fx_dependency | fx_infrastructure.

Record Fix := {
  fix_id : string;
  error_id : string;
  fix_type : FixType;
  description : string;
  changes : list FileChange;
  confidence : float;
  tested : bool;
  applied : bool;
  rollback_info : RollbackInfo
}.

(** The part of GeneratedApp (and of its RequirementSpec) the three
    subsystems read. *)
Record GeneratedApp := {
  app_id : string;
  app_name : string;
  uiComponents : list string;        (* component.name *)
  apiEndpoints : list string;        (* endpoint.path *)
  spec_database : bool;
  spec_authentication : bool;
  frontend_is_react : bool;          (* techStack.frontend.framework === 'react' *)
  backend_framework : bool           (* techStack.backend.framework is set *)
}.

Inductive CaseStatus := c_pending | c_running | c_passed | c_failed | c_skipped.
Inductive SuiteStatus := s_pending | s_running | s_passed | s_failed.
Inductive SuiteType := t_unit | t_integration | t_e2e | t_performance | t_security.

Record TestCase := {
  tc_id : string;
  tc_name : string;
  tc_description : string;
  tc_status : CaseStatus;
  tc_duration : N;
  tc_error : option string
}.

Record TestSuite := {
  ts_id : string;
  ts_name : string;
  ts_type : SuiteType;
  tests : list TestCase;
  status : SuiteStatus;
  coverage : Z;
  duration : N
}.

Inductive Environment := development | staging | production.
Inductive DeployStatus := d_pending | d_deploying | d_success | d_failed | d_rolled_back.

Record DeploymentResult := {
  dep_id : string;
  dep_app_id : string;
  environment : Environment;
  dep_status : DeployStatus;
  url : option string;
  logs : list string;
  dep_duration : N;
  dep_timestamp : N
}.

Inductive AiProvider := openai | anthropic | local.
Inductive DeployProvider := docker | vercel | netlify | aws | gcp.

(** FrameworkConfig, flattened. *)
Record FrameworkConfig := {
  aiProvider : AiProvider;
  apiKey_openai : bool;
  apiKey_anthropic : bool;
  workspaceDir : string;
  (* healing *)
  rollbackThreshold : Z;
  (* testing *)
  unitTests : bool;
  integrationTests : bool;
  e2eTests : bool;
  visualRegression : bool;
  performanceTesting : bool;
  accessibility : bool;
  testing_autoFix : bool;
  (* deployment *)
  provider : DeployProvider;
  healthChecks : bool;
  rollbackOnFailure : bool
}.

#[global] Instance Severity_eq_dec : EqDecision Severity.
Proof. solve_decision. Defined.
#[global] Instance ErrorType_eq_dec : EqDecision ErrorType.
Proof. solve_decision. Defined.
#[global] Instance CaseStatus_eq_dec : EqDecision CaseStatus.
Proof. solve_decision. Defined.
#[global] Instance SuiteStatus_eq_dec : EqDecision SuiteStatus.
Proof. solve_decision. Defined.
#[global] Instance Environment_eq_dec : EqDecision Environment.
Proof. solve_decision. Defined.
#[global] Instance DeployStatus_eq_dec : EqDecision DeployStatus.
Proof. solve_decision. Defined.

Definition env_name (e : Environment) : string :=
  match e with
  | development => "development"
  | staging => "staging"
  | production => "production"
  end.

End Types.

(* ===================================================================== *)
(** ** The world outside, and asynchronous computations *)
(* ===================================================================== *)

Module Async.
Import Fs Types.

Inductive Level := INFO | WARN | ERROR.
Inductive LogLine := Log (lvl : Level) (msg : string).

Inductive Event :=
| FixApplied (app : string) (fx : Fix) (error : ErrorInfo)
| DeploymentStarted (app : string) (deployment : string)
| DeploymentCompleted (app : string) (deployment : DeploymentResult).

(** Everything a call can read or change.  [clock] is what [Date.now()]
    returns; [tick] counts the requests made to the outside world and
    indexes the oracle below; [disk_budget] is the number of entries
    [fs.copy] can still write before the disk fails ([None]: it never
    does). *)
Record World := {
  fs : fsys;
  clock : N;
  tick : nat;
  disk_budget : option nat;
  console : list LogLine;
  emitted : list Event;
  healingQueue : gmap string (list ErrorInfo);
  backupHistory : gmap string (list RollbackInfo);
  activeDeployments : gmap string DeploymentResult;
  browser : bool
}.

Definition set_fs (f : fsys → fsys) (w : World) : World :=
  {| fs := f (fs w); clock := clock w; tick := tick w;
     disk_budget := disk_budget w; console := console w;
     emitted := emitted w; healingQueue := healingQueue w;
     backupHistory := backupHistory w;
     activeDeployments := activeDeployments w; browser := browser w |}.

Definition set_clock (f : N → N) (w : World) : World :=
  {| fs := fs w; clock := f (clock w); tick := tick w;
     disk_budget := disk_budget w; console := console w;
     emitted := emitted w; healingQueue := healingQueue w;
     backupHistory := backupHistory w;
     activeDeployments := activeDeployments w; browser := browser w |}.

Definition set_tick (f : nat → nat) (w : World) : World :=
  {| fs := fs w; clock := clock w; tick := f (tick w);
     disk_budget := disk_budget w; console := console w;
     emitted := emitted w; healingQueue := healingQueue w;
     backupHistory := backupHistory w;
     activeDeployments := activeDeployments w; browser := browser w |}.

Definition set_disk_budget (f : option nat → option nat) (w : World) : World :=
  {| fs := fs w; clock := clock w; tick := tick w;
     disk_budget := f (disk_budget w); console := console w;
     emitted := emitted w; healingQueue := healingQueue w;
     backupHistory := backupHistory w;
     activeDeployments := activeDeployments w; browser := browser w |}.

Definition set_console (f : list LogLine → list LogLine) (w : World) : World :=
  {| fs := fs w; clock := clock w; tick := tick w;
     disk_budget := disk_budget w; console := f (console w);
     emitted := emitted w; healingQueue := healingQueue w;
     backupHistory := backupHistory w;
     activeDeployments := activeDeployments w; browser := browser w |}.

Definition set_emitted (f : list Event → list Event) (w : World) : World :=
  {| fs := fs w; clock := clock w; tick := tick w;
     disk_budget := disk_budget w; console := console w;
     emitted := f (emitted w); healingQueue := healingQueue w;
     backupHistory := backupHistory w;
     activeDeployments := activeDeployments w; browser := browser w |}.

Definition set_healingQueue
    (f : gmap string (list ErrorInfo) → gmap string (list ErrorInfo))
    (w : World) : World :=
  {| fs := fs w; clock := clock w; tick := tick w;
     disk_budget := disk_budget w; console := console w;
     emitted := emitted w; healingQueue := f (healingQueue w);
     backupHistory := backupHistory w;
     activeDeployments := activeDeployments w; browser := browser w |}.

Definition set_backupHistory
    (f : gmap string (list RollbackInfo) → gmap string (list RollbackInfo))
    (w : World) : World :=
  {| fs := fs w; clock := clock w; tick := tick w;
     disk_budget := disk_budget w; console := console w;
     emitted := emitted w; healingQueue := healingQueue w;
     backupHistory := f (backupHistory w);
     activeDeployments := activeDeployments w; browser := browser w |}.

Definition set_activeDeployments
    (f : gmap string DeploymentResult → gmap string DeploymentResult)
    (w : World) : World :=
  {| fs := fs w; clock := clock w; tick := tick w;
     disk_budget := disk_budget w; console := console w;
     emitted := emitted w; healingQueue := healingQueue w;
     backupHistory := backupHistory w;
     activeDeployments := f (activeDeployments w); browser := browser w |}.

Definition set_browser (b : bool) (w : World) : World :=
  {| fs := fs w; clock := clock w; tick := tick w;
     disk_budget := disk_budget w; console := console w;
     emitted := emitted w; healingQueue := healingQueue w;
     backupHistory := backupHistory w;
     activeDeployments := activeDeployments w; browser := b |}.

(** *** What the outside world answers *)

Inductive ExecOutcome :=
| Exit0 (stdout stderr : string)
| ExitErr (message stdout stderr : string).

Inductive FetchOutcome :=
| Response (ok : bool) (code : nat)
| NetworkError (message : string).

Record FixSuggestion := {
  sg_description : string;
  sg_confidence : float;
  sg_changes : list FileChange
}.

(** The reply of the reasoning service as [callAIForFix] and [generateFix]
    see it: the request or [JSON.parse] threw; the parsed value is falsy;
    it is an object without a [changes] array; it is a suggestion. *)
Inductive AiReply :=
| AiError (message : string)
| AiFalsy
| AiMalformed
| AiFix (s : FixSuggestion).

(** Tool reports, as [JSON.parse] hands them to the code. *)
Record EslintMessage := { m_severity : Z; m_line : Z; m_message : string }.
Record EslintResult := { filePath : string; messages : option (list EslintMessage) }.
Record Vulnerability := { v_severity : string; v_title : string }.
Record AuditReport := { vulnerabilities : option (list (string * Vulnerability)) }.
Record TscDiagnostic := {
  d_file : string; d_line : Z; d_column : Z; d_code : string; d_message : string
}.
Record Assertion := {
  a_title : string; a_fullName : string; a_status : string;
  a_duration : option N; a_failureMessages : option (list string)
}.
(** The Jest report as the loops of [runJestTests] go through it:
    [testResults] is [None] when the parsed value has no (truthy)
    testResults; otherwise it holds the assertions the loops reach, file
    by file, and [jest_breaks] is the message of the TypeError that stops
    the iteration after them, if one does (a file without an iterable
    assertionResults, an entry that is null). *)
Record JestReport := {
  testResults : option (list (list Assertion));
  jest_breaks : option string
}.

(** The oracle: one answer per request, indexed by [tick].
    [parse_eslint] and [parse_audit] stand for [JSON.parse] followed by
    the iteration over the result ([None]: one of the two throws);
    [parse_jest] stands for [JSON.parse] ([None]: it throws, or what it
    returns has no properties to read); [match_tsc] stands for the
    regular expression of [runTypeScriptCheck]. *)
Record Oracle := {
  run_cmd : nat → string → path → ExecOutcome;
  http_get : nat → string → FetchOutcome;
  ai_reply : nat → AiReply;
  launch_browser : nat → bool;
  latency : nat → N;
  random : nat → nat;
  process_env : string → option string;
  find_url : string → option string;          (* /https?:\/\/[^\s]+/ *)
  find_website_url : string → option string;  (* /Website URL: (https?:\/\/[^\s]+)/ *)
  parse_eslint : string → option (list EslintResult);
  parse_audit : string → option AuditReport;
  parse_jest : string → option JestReport;
  match_tsc : string → option TscDiagnostic
}.

(** *** Computations *)

(** A computation returns, throws, or performs an action on the world and
    goes on.  An action marked [true] is one the source awaits: control
    goes back to the event loop before it is performed. *)
Inductive R (A : Type) : Type :=
| Ret (a : A)
| Throw (e : Exn)
| Act (awaited : bool) (upd : World → World) (k : World → R A).
Arguments Ret {A} a.
Arguments Throw {A} e.
Arguments Act {A} awaited upd k.

Inductive Result (A : Type) : Type :=
| Ok (a : A)
| Thrown (e : Exn).
Arguments Ok {A} a.
Arguments Thrown {A} e.

(** The one recursion over computations: run [m], then go on with [f]
    on its outcome, returned or thrown. *)
Fixpoint on_result {A B} (m : R A) (f : Result A → R B) : R B :=
  match m with
  | Ret a => f (Ok a)
  | Throw e => f (Thrown e)
  | Act b u k => Act b u (λ w, on_result (k w) f)
  end.

Definition bind {A B} (m : R A) (f : A → R B) : R B :=
  on_result m (λ r, match r with Ok a => f a | Thrown e => Throw e end).

#[global] Instance R_ret : MRet R := @Ret.
#[global] Instance R_bind : MBind R := λ A B f m, bind m f.

(** try { m } catch (e) { h e } *)
Definition try_catch {A} (m : R A) (h : Exn → R A) : R A :=
  on_result m (λ r, match r with Ok a => Ret a | Thrown e => h e end).

(** try { m } finally { f } *)
Definition try_finally {A} (m : R A) (f : R unit) : R A :=
  on_result m (λ r, f ;; match r with Ok a => Ret a | Thrown e => Throw e end).

(** One call, run to completion with nothing else going on. *)
Fixpoint exec {A} (m : R A) (w : World) : Result A * World :=
  match m with
  | Ret a => (Ok a, w)
  | Throw e => (Thrown e, w)
  | Act _ u k => exec (k w) (u w)
  end.

(** for (const x of l) { await body(x) } *)
Fixpoint for_each {A} (l : list A) (body : A → R unit) : R unit :=
  match l with
  | [] => mret tt
  | x :: l' => body x ;; for_each l' body
  end.

(** Synchronous access to the state of the objects. *)
Definition get {A} (f : World → A) : R A := Act false (λ w, w) (λ w, Ret (f w)).
Definition modify (f : World → World) : R unit := Act false f (λ _, Ret tt).

Definition logger (lvl : Level) (msg : string) : R unit :=
  modify (set_console (λ c, c ++ [Log lvl msg])).

Definition emit (e : Event) : R unit :=
  modify (set_emitted (λ l, l ++ [e])).

Definition Date_now : R N := get clock.

(** A request to the outside world: it is awaited, it takes the time the
    oracle says, and its answer is the oracle's at the current tick. *)
Definition passing (O : Oracle) (w : World) : World :=
  set_tick S (set_clock (λ c, (c + latency O (tick w))%N) w).

Definition request {A} (O : Oracle) (answer : nat → A) : R A :=
  Act true (passing O) (λ w, Ret (answer (tick w))).

(** A disk operation: awaited; it changes the tree or throws. *)
Definition disk_result {A} (r : Exn + A) : R A :=
  match r with inl e => Throw e | inr a => Ret a end.

Definition disk_read {A} (f : fsys → A) : R A :=
  Act true (λ w, w) (λ w, Ret (f (fs w))).

Definition disk_try_read {A} (f : fsys → Exn + A) : R A :=
  Act true (λ w, w) (λ w, disk_result (f (fs w))).

Definition disk_write (f : fsys → Exn + fsys) : R unit :=
  Act true (λ w, match f (fs w) with inl _ => w | inr fs' => set_fs (λ _, fs') w end)
           (λ w, match f (fs w) with inl e => Throw e | inr _ => Ret tt end).

Definition fs_pathExists (p : path) : R bool := disk_read (pathExists p).
Definition fs_ensureDir (p : path) : R unit := disk_write (ensureDir p).
Definition fs_writeFile (p : path) (c : string) : R unit := disk_write (writeFile p c).
Definition fs_readFile (p : path) : R string := disk_try_read (readFile p).
Definition fs_remove (p : path) : R unit := disk_write (λ fs, inr (remove p fs)).

(** fs.copy: fails with ENOENT when the source is missing; otherwise it
    writes the entries of the source while the disk budget lasts, and
    throws when the budget runs out first. *)
Definition copy_step (src dst : path) (w : World) : World :=
  if pathExists src (fs w) then
    match disk_budget w with
    | None => set_fs (copy_onto src dst None) w
    | Some b =>
        if (copy_size src (fs w) <=? b)%nat
        then set_disk_budget (λ _, Some (b - copy_size src (fs w)))
               (set_fs (copy_onto src dst None) w)
        else set_disk_budget (λ _, Some 0)
               (set_fs (copy_onto src dst (Some b)) w)
    end
  else w.

Definition copy_outcome (src dst : path) (w : World) : R unit :=
  if pathExists src (fs w) then
    match disk_budget w with
    | None => Ret tt
    | Some b => if (copy_size src (fs w) <=? b)%nat then Ret tt else Throw (EIO dst)
    end
  else Throw (ENOENT src).

Definition fs_copy (src dst : path) : R unit :=
  Act true (copy_step src dst) (copy_outcome src dst).

(** setTimeout-based sleep *)
Definition sleep (ms : N) : R unit :=
  Act true (set_clock (λ c, (c + ms)%N)) (λ _, Ret tt).

(** Math.random(): synchronous, answered by the oracle. *)
Definition Math_random (O : Oracle) : R nat :=
  Act false (set_tick S) (λ w, Ret (random O (tick w))).

(** promisify(exec): resolves with the two streams on exit code 0, rejects
    with an error carrying them otherwise. *)
Definition execAsync (O : Oracle) (cmd : string) (cwd : path) : R (string * string) :=
  out ← request O (λ t, run_cmd O t cmd cwd);
  match out with
  | Exit0 so se => mret (so, se)
  | ExitErr m so se => Throw (ExecError m so se)
  end.

(** [xs.map(async f)] awaited in order. *)
Fixpoint mapM {A B} (f : A → R B) (l : list A) : R (list B) :=
  match l with
  | [] => mret []
  | x :: l' => y ← f x; ys ← mapM f l'; mret (y :: ys)
  end.

(** try { s1; ...; sn } catch (e) { h e }; return acc, where every step
    pushes what it found onto the accumulator [acc]. *)
Fixpoint collect {A} (steps : list (R (list A))) (h : Exn → R unit) (acc : list A)
  : R (list A) :=
  match steps with
  | [] => mret acc
  | s :: rest =>
      on_result s (λ r, match r with
                        | Ok xs => collect rest h (acc ++ xs)
                        | Thrown e => h e ;; mret acc
                        end)
  end.

(** try { s1; ...; sn } catch (e) { h e }, where the steps update a local
    object [s] and the handler sees it as the failing step found it. *)
Fixpoint attempt {S} (steps : list (S → R S)) (h : Exn → S → R S) (s : S) : R S :=
  match steps with
  | [] => mret s
  | st :: rest =>
      on_result (st s) (λ r, match r with
                             | Ok s' => attempt rest h s'
                             | Thrown e => h e s
                             end)
  end.

(** while (Date.now() - start < timeout) { try { if ((await fetch(url)).ok)
    return } catch {} ; await sleep(interval) }: [true] when the server
    answered, [false] when the loop ran out of time.  Every round sleeps
    [interval], so [timeout / interval + 1] rounds exhaust the time. *)
Fixpoint poll (O : Oracle) (rounds : nat) (url : string) (start timeout interval : N)
  : R bool :=
  match rounds with
  | 0 => mret false
  | S rounds' =>
      now ← Date_now;
      if (now - start <? timeout)%N then
        response ← request O (λ t, http_get O t url);
        match response with
        | Response true _ => mret true
        | _ => sleep interval ;; poll O rounds' url start timeout interval
        end
      else mret false
  end.

Definition poll_rounds (timeout interval : N) : nat := S (N.to_nat (timeout / interval)).

(** String.prototype.startsWith and String.prototype.includes *)
Fixpoint starts_with (p s : string) : bool :=
  match p, s with
  | EmptyString, _ => true
  | String a p', String b s' => if decide (a = b) then starts_with p' s' else false
  | String _ _, EmptyString => false
  end.

Fixpoint includes (s needle : string) : bool :=
  starts_with needle s ||
  match s with
  | EmptyString => false
  | String _ s' => includes s' needle
  end.

End Async.

(* ===================================================================== *)
(** ** src/healing/healing-system.ts *)
(* ===================================================================== *)

Module Healing.
Import Fs Types Async.

Section HealingSystem.
Variable config : FrameworkConfig.
Variable O : Oracle.

Definition appDir (app : GeneratedApp) : path :=
  join [workspaceDir config; "apps"; app_id app].

Definition backupDir (app : GeneratedApp) (backupId : string) : path :=
  join [workspaceDir config; "backups"; app_id app; backupId].

Definition set_applied (b : bool) (fx : Fix) : Fix :=
  {| fix_id := fix_id fx; error_id := error_id fx; fix_type := fix_type fx;
     description := description fx; changes := changes fx;
     confidence := confidence fx; tested := tested fx; applied := b;
     rollback_info := rollback_info fx |}.

Definition accept_fix (testPassed : bool) (backup : RollbackInfo) (fx : Fix) : Fix :=
  {| fix_id := fix_id fx; error_id := error_id fx; fix_type := fix_type fx;
     description := description fx; changes := changes fx;
     confidence := confidence fx; tested := testPassed; applied := true;
     rollback_info := backup |}.

Definition mark_error (attempted successful : bool) (e : ErrorInfo) : ErrorInfo :=
  {| err_id := err_id e; err_type := err_type e; severity := severity e;
     err_file := err_file e; err_line := err_line e;
     err_message := err_message e; fix_attempted := attempted;
     fix_successful := successful; err_timestamp := err_timestamp e |}.

(** *** Analyzers *)

Definition stamp : R string :=
  now ← Date_now; r ← Math_random O;
  mret (pretty now +:+ "-0." +:+ pretty r).

Definition eslint_error (result : EslintResult) (message : EslintMessage) : R ErrorInfo :=
  s ← stamp; now ← Date_now;
  mret {| err_id := "eslint-" +:+ s;
          err_type := syntax;
          severity := if decide (m_severity message = 2%Z) then high else medium;
          err_file := filePath result;
          err_line := m_line message;
          err_message := m_message message;
          fix_attempted := false;
          fix_successful := false;
          err_timestamp := now |}.

Definition eslint_errors (result : EslintResult) : R (list ErrorInfo) :=
  match messages result with
  | Some (m :: ms) => mapM (eslint_error result) (m :: ms)
  | _ => mret []
  end.

(** [runESLint].  A rejected command lands in the catch block, which parses
    [error.stdout] and drops the result ("Process results as above"). *)
Definition runESLint (directory : path) (type : string) : R (list ErrorInfo) :=
  on_result
    (out ← execAsync O "npm run lint -- --format json" directory;
     match parse_eslint O out.1 with
     | Some results => found ← mapM eslint_errors results; mret (concat found)
     | None => Throw (JsError "SyntaxError: Unexpected token in JSON")
     end)
    (λ r, match r with
          | Ok errors => mret errors
          | Thrown (ExecError _ (String c so) _) =>
              match parse_eslint O (String c so) with
              | Some results => mret []
              | None =>
                  logger WARN ("Could not parse ESLint output for " +:+ type) ;;
                  mret []
              end
          | Thrown _ => mret []
          end).

Definition newline : ascii := "010"%char.

(** file: path.join(directory, file), for a file name that [path.join]
    appends as it stands. *)
Definition tsc_error (directory : path) (d : TscDiagnostic) : R ErrorInfo :=
  s ← stamp; now ← Date_now;
  mret {| err_id := "ts-" +:+ s;
          err_type := syntax;
          severity := high;
          err_file := render (directory ++ split_path (d_file d));
          err_line := d_line d;
          err_message := d_code d +:+ ": " +:+ d_message d;
          fix_attempted := false;
          fix_successful := false;
          err_timestamp := now |}.

Definition runTypeScriptCheck (directory : path) (type : string) : R (list ErrorInfo) :=
  on_result
    (execAsync O "npx tsc --noEmit" directory)
    (λ r, match r with
          | Thrown (ExecError _ _ (String c se)) =>
              mapM (tsc_error directory)
                   (omap (match_tsc O) (split_on newline (String c se) ""))
          | _ => mret []
          end).

Definition in_subprojects (appDir : path)
    (f : path → string → R (list ErrorInfo)) : list (R (list ErrorInfo)) :=
  [ (ex ← fs_pathExists (appDir ++ ["frontend"]);
     if ex : bool then f (appDir ++ ["frontend"]) "frontend" else mret []);
    (ex ← fs_pathExists (appDir ++ ["backend"]);
     if ex : bool then f (appDir ++ ["backend"]) "backend" else mret []) ].

Definition checkTypeScript (appDir : path) : R (list ErrorInfo) :=
  collect (in_subprojects appDir runTypeScriptCheck)
          (λ e, logger ERROR "TypeScript check failed:") [].

Definition runStaticAnalysis (appDir : path) : R (list ErrorInfo) :=
  collect (in_subprojects appDir runESLint ++ [checkTypeScript appDir])
          (λ e, logger ERROR "Static analysis failed:") [].

Definition analyzeRuntimeErrors (app : GeneratedApp) : R (list ErrorInfo) := mret [].
Definition analyzePerformance (app : GeneratedApp) : R (list ErrorInfo) := mret [].

Definition audit_error (type : string) (entry : string * Vulnerability) : R ErrorInfo :=
  s ← stamp; now ← Date_now;
  mret {| err_id := "security-" +:+ s;
          err_type := security;
          severity := if decide (v_severity entry.2 = "critical") then critical
                      else if decide (v_severity entry.2 = "high") then high
                      else medium;
          err_file := "package.json (" +:+ type +:+ ")";
          err_line := 0;
          err_message := "Security vulnerability in " +:+ entry.1 +:+ ": "
                           +:+ v_title entry.2;
          fix_attempted := false;
          fix_successful := false;
          err_timestamp := now |}.

(** [auditDirectory]: same shape as [runESLint], same empty catch. *)
Definition auditDirectory (directory : path) (type : string) : R (list ErrorInfo) :=
  on_result
    (out ← execAsync O "npm audit --json" directory;
     match parse_audit O out.1 with
     | Some audit =>
         match vulnerabilities audit with
         | Some vs => mapM (audit_error type) vs
         | None => mret []
         end
     | None => Throw (JsError "SyntaxError: Unexpected token in JSON")
     end)
    (λ r, match r with
          | Ok errors => mret errors
          | Thrown (ExecError _ (String c so) _) =>
              match parse_audit O (String c so) with
              | Some audit => mret []
              | None =>
                  logger WARN ("Could not parse npm audit output for " +:+ type) ;;
                  mret []
              end
          | Thrown _ => mret []
          end).

Definition runSecurityAudit (appDir : path) : R (list ErrorInfo) :=
  collect (in_subprojects appDir auditDirectory)
          (λ e, logger ERROR "Security audit failed:") [].

Definition analyzeSecurityIssues (appDir : path) : R (list ErrorInfo) :=
  collect [runSecurityAudit appDir]
          (λ e, logger ERROR "Security analysis failed:") [].

Definition analyzeApp (app : GeneratedApp) : R (list ErrorInfo) :=
  collect [ runStaticAnalysis (appDir app);
            analyzeRuntimeErrors app;
            analyzePerformance app;
            analyzeSecurityIssues (appDir app) ]
          (λ e, logger ERROR ("Error analyzing app " +:+ app_name app +:+ ":")) [].

(** *** Fix synthesis *)

Definition show_type (t : ErrorType) : string :=
  match t with
  | syntax => "syntax" | runtime => "runtime" | performance => "performance"
  | security => "security" | ux => "ux"
  end.

Definition show_severity (s : Severity) : string :=
  match s with
  | low => "low" | medium => "medium" | high => "high" | critical => "critical"
  end.

Definition numbered (startLine : nat) (lines : list string) : list string :=
  imap (λ i line, pretty (startLine + i + 1) +:+ ": " +:+ line) lines.

(** The context of the prompt.  Its Description and Tech Stack lines print
    fields of the specification that nothing else below reads; they are
    left out with those fields.  The context goes to the reasoning service
    and nowhere else. *)
Definition prepareErrorContext (app : GeneratedApp) (error : ErrorInfo) : R string :=
  let context :=
    "Error Details:" +:+ String newline ""
    +:+ "Type: " +:+ show_type (err_type error) +:+ String newline ""
    +:+ "Severity: " +:+ show_severity (severity error) +:+ String newline ""
    +:+ "File: " +:+ err_file error +:+ String newline ""
    +:+ "Line: " +:+ pretty (err_line error) +:+ String newline ""
    +:+ "Message: " +:+ err_message error +:+ String newline ""
    +:+ "Application Context:" +:+ String newline ""
    +:+ "Name: " +:+ app_name app +:+ String newline "" in
  if bool_decide (err_file error ≠ "") && bool_decide (err_file error ≠ "package.json")
  then
    on_result (fs_readFile (split_path (err_file error)))
      (λ r, match r with
            | Ok fileContent =>
                let lines := split_on newline fileContent "" in
                let startLine := Z.to_nat (Z.max 0 (err_line error - 5)) in
                let endLine :=
                  Z.to_nat (Z.min (Z.of_nat (length lines)) (err_line error + 5)) in
                mret (context +:+ "File Content (lines "
                        +:+ pretty (startLine + 1) +:+ "-" +:+ pretty (endLine + 1)
                        +:+ "):" +:+ String newline ""
                        +:+ String.concat (String newline "")
                              (numbered startLine
                                 (take (endLine - startLine) (drop startLine lines))))
            | Thrown _ =>
                logger WARN ("Could not read file content for " +:+ err_file error) ;;
                mret context
            end)
  else mret context.

(** What [callAIForFix] resolves to: [null] and the other falsy values, an
    object the caller cannot use, or a suggestion. *)
Inductive AiValue :=
| V_falsy
| V_malformed
| V_suggestion (s : FixSuggestion).

Definition ai_client_ready : bool :=
  match aiProvider config with
  | openai => apiKey_openai config
  | anthropic => apiKey_anthropic config
  | local => false
  end.

Definition show_provider (p : AiProvider) : string :=
  match p with openai => "openai" | anthropic => "anthropic" | local => "local" end.

Definition callAIForFix (context : string) (error : ErrorInfo) : R AiValue :=
  try_catch
    (if ai_client_ready then
       reply ← request O (ai_reply O);
       match reply with
       | AiError m => Throw (JsError m)
       | AiFalsy => mret V_falsy
       | AiMalformed => mret V_malformed
       | AiFix s => mret (V_suggestion s)
       end
     else Throw (JsError ("AI provider " +:+ show_provider (aiProvider config)
                            +:+ " not configured")))
    (λ e, logger ERROR "Failed to get AI fix suggestion:" ;; mret V_falsy).

Definition determineFIxType (error : ErrorInfo) : FixType :=
  if decide (err_type error = security) then fx_dependency
  else if includes (err_file error) "package.json" then fx_dependency
  else if includes (err_file error) "docker" then fx_infrastructure
  else if includes (err_file error) ".env" then fx_config
  else fx_code.

Definition generateFix (app : GeneratedApp) (error : ErrorInfo) : R (option Fix) :=
  logger INFO ("Generating fix for error: " +:+ err_message error) ;;
  try_catch
    (context ← prepareErrorContext app error;
     fixSuggestion ← callAIForFix context error;
     match fixSuggestion with
     | V_falsy => mret None
     | V_malformed =>
         Throw (JsError "TypeError: Cannot read properties of undefined (reading 'map')")
     | V_suggestion s =>
         id ← stamp; now ← Date_now;
         mret (Some {| fix_id := "fix-" +:+ id;
                       error_id := err_id error;
                       fix_type := determineFIxType error;
                       description := sg_description s;
                       changes := sg_changes s;
                       confidence := sg_confidence s;
                       tested := false;
                       applied := false;
                       rollback_info :=
                         {| backup_id := "";
                            rb_timestamp := now;
                            rb_files := ch_file <$> sg_changes s |} |})
     end)
    (λ e, logger ERROR "Failed to generate fix:" ;; mret None).

(** *** Backup, apply, validate, roll back *)

Definition walk (directory : path) : R (list string) :=
  disk_try_read (λ fs, match fs !! directory with
                       | Some Dir => inr (listFiles directory fs)
                       | Some (File _) => inl (ENOTDIR directory)
                       | None => inl (ENOENT directory)
                       end).

Definition push_backup (app : GeneratedApp) (backup : RollbackInfo) (w : World) : World :=
  set_backupHistory
    (λ h, <[app_id app := default [] (h !! app_id app) ++ [backup]]> h) w.

Definition createBackup (app : GeneratedApp) : R RollbackInfo :=
  now ← Date_now;
  let backupId := "backup-" +:+ pretty now in
  try_catch
    (fs_ensureDir (backupDir app backupId) ;;
     fs_copy (appDir app) (backupDir app backupId) ;;
     ts ← Date_now;
     files ← walk (appDir app);
     let backup := {| backup_id := backupId; rb_timestamp := ts; rb_files := files |} in
     modify (push_backup app backup) ;;
     logger INFO ("Created backup: " +:+ backupId +:+ " for app: " +:+ app_name app) ;;
     mret backup)
    (λ e, logger ERROR ("Failed to create backup for app " +:+ app_name app +:+ ":") ;;
          Throw e).

(** The file of the change is used as it stands, read by [split_path]. *)
Definition applyFileChange (change : FileChange) : R unit :=
  let file := split_path (ch_file change) in
  match ch_type change with
  | ch_create =>
      fs_ensureDir (dirname file) ;;
      fs_writeFile file (default "" (new_content change))
  | ch_update =>
      ex ← fs_pathExists file;
      if ex : bool then fs_writeFile file (default "" (new_content change))
      else Throw (JsError ("File not found: " +:+ ch_file change))
  | ch_delete =>
      ex ← fs_pathExists file;
      if ex : bool then fs_remove file else mret tt
  end.

Definition applyFix (app : GeneratedApp) (fx : Fix) : R bool :=
  logger INFO ("Applying fix: " +:+ fix_id fx +:+ " - " +:+ description fx) ;;
  try_catch
    (for_each (changes fx) applyFileChange ;;
     logger INFO ("Successfully applied fix: " +:+ fix_id fx) ;;
     mret true)
    (λ e, logger ERROR ("Failed to apply fix " +:+ fix_id fx +:+ ":") ;; mret false).

(** The three quick gates run one command per sub-project that exists and
    pass when none of them rejects. *)
Definition quick_gate (appDir : path) (frontendCmd backendCmd : string) : R bool :=
  try_catch
    (fe ← fs_pathExists (appDir ++ ["frontend"]);
     (if fe : bool then execAsync O frontendCmd (appDir ++ ["frontend"]) ;; mret tt
      else mret tt) ;;
     be ← fs_pathExists (appDir ++ ["backend"]);
     (if be : bool then execAsync O backendCmd (appDir ++ ["backend"]) ;; mret tt
      else mret tt) ;;
     mret true)
    (λ e, mret false).

Definition runQuickLint (appDir : path) : R bool :=
  quick_gate appDir "npm run lint" "npm run lint".

Definition runQuickTypeCheck (appDir : path) : R bool :=
  quick_gate appDir "npx tsc --noEmit" "npx tsc --noEmit".

Definition runQuickTests (appDir : path) : R bool :=
  quick_gate appDir "npm test -- --watchAll=false --passWithNoTests"
                    "npm test -- --passWithNoTests".

Definition testFix (app : GeneratedApp) (fx : Fix) : R bool :=
  if negb (testing_autoFix config) then mret true
  else
    logger INFO ("Testing fix: " +:+ fix_id fx) ;;
    try_catch
      (lintPassed ← runQuickLint (appDir app);
       if negb lintPassed then
         logger WARN ("Lint test failed for fix: " +:+ fix_id fx) ;; mret false
       else
         typePassed ← runQuickTypeCheck (appDir app);
         if negb typePassed then
           logger WARN ("Type check failed for fix: " +:+ fix_id fx) ;; mret false
         else
           testsPassed ← runQuickTests (appDir app);
           if negb testsPassed then
             logger WARN ("Unit tests failed for fix: " +:+ fix_id fx) ;; mret false
           else
             logger INFO ("All tests passed for fix: " +:+ fix_id fx) ;; mret true)
      (λ e, logger ERROR ("Error testing fix " +:+ fix_id fx +:+ ":") ;; mret false).

Definition rollback (app : GeneratedApp) (backup : RollbackInfo) : R unit :=
  logger INFO ("Rolling back app: " +:+ app_name app +:+ " to backup: "
                 +:+ backup_id backup) ;;
  try_catch
    (ex ← fs_pathExists (backupDir app (backup_id backup));
     if ex : bool then
       fs_remove (appDir app) ;;
       fs_copy (backupDir app (backup_id backup)) (appDir app) ;;
       logger INFO ("Successfully rolled back app: " +:+ app_name app)
     else Throw (JsError ("Backup not found: " +:+ backup_id backup)))
    (λ e, logger ERROR ("Failed to rollback app " +:+ app_name app +:+ ":") ;;
          Throw e).

(** *** The control loop *)

(** [fixError] returns the fix (or null) and, next to it, the ErrorInfo
    object it was given, as the call leaves it: the source updates that
    object in place. *)
Definition fixError (app : GeneratedApp) (error : ErrorInfo)
  : R (option Fix * ErrorInfo) :=
  logger INFO ("Attempting to fix error: " +:+ err_id error +:+ " - "
                 +:+ err_message error) ;;
  try_catch
    (backup ← createBackup app;
     generated ← generateFix app error;
     match generated with
     | None =>
         logger WARN ("Could not generate fix for error: " +:+ err_id error) ;;
         mret (None, error)
     | Some fx =>
         success ← applyFix app fx;
         if negb success then
           logger ERROR ("Failed to apply fix for error: " +:+ err_id error) ;;
           rollback app backup ;;
           mret (None, error)
         else
           testPassed ← testFix app fx;
           if negb testPassed && (0 <? rollbackThreshold config)%Z then
             logger WARN ("Fix test failed for error: " +:+ err_id error
                            +:+ ", rolling back") ;;
             rollback app backup ;;
             mret (Some (set_applied false fx), error)
           else
             let fx' := accept_fix testPassed backup fx in
             logger INFO ("Successfully fixed error: " +:+ err_id error) ;;
             let error' := mark_error true (success && testPassed) error in
             emit (FixApplied (app_id app) fx' error') ;;
             mret (Some fx', error')
     end)
    (λ e, logger ERROR "Error fixing error undefined:" ;; mret (None, error)).

Definition actionable (error : ErrorInfo) : bool :=
  bool_decide (severity error = critical) || bool_decide (severity error = high).

(** The loop of [processHealingQueue]; it yields the queue's ErrorInfo
    objects as the sweep leaves them. *)
Fixpoint sweep (app : GeneratedApp) (errors : list ErrorInfo) : R (list ErrorInfo) :=
  match errors with
  | [] => mret []
  | error :: rest =>
      error' ← (if actionable error
                then r ← fixError app error; mret r.2
                else mret error);
      rest' ← sweep app rest;
      mret (error' :: rest')
  end.

Definition processHealingQueue (app : GeneratedApp) : R (list ErrorInfo) :=
  queued ← get (λ w, healingQueue w !! app_id app);
  match queued with
  | None | Some [] => mret (default [] queued)
  | Some errors =>
      logger INFO ("Processing " +:+ pretty (length errors) +:+ " errors for app: "
                     +:+ app_name app) ;;
      errors' ← sweep app errors;
      modify (set_healingQueue (delete (app_id app))) ;;
      mret errors'
  end.

(** [healApp] yields the ErrorInfo objects the analysis produced, as the
    call leaves them. *)
Definition healApp (app : GeneratedApp) : R (list ErrorInfo) :=
  logger INFO ("Starting healing process for app: " +:+ app_name app) ;;
  try_catch
    (errors ← analyzeApp app;
     match errors with
     | [] =>
         logger INFO ("No errors found in app: " +:+ app_name app) ;;
         mret []
     | _ :: _ =>
         logger INFO ("Found " +:+ pretty (length errors) +:+ " errors in app: "
                        +:+ app_name app) ;;
         modify (set_healingQueue <[app_id app := errors]>) ;;
         processHealingQueue app
     end)
    (λ e, logger ERROR ("Healing failed for app " +:+ app_name app +:+ ":") ;;
          Throw e).

(** *** What can be observed of a fix attempt *)

(** The first line [fixError] logs, and the world once it is logged: the
    point where the attempt proper starts. *)
Definition attempting (error : ErrorInfo) : LogLine :=
  Log INFO ("Attempting to fix error: " +:+ err_id error +:+ " - "
              +:+ err_message error).

Definition announce (error : ErrorInfo) (w : World) : World :=
  set_console (λ c, c ++ [attempting error]) w.

(** The fix attempts a console records, oldest first. *)
Definition is_attempt (l : LogLine) : bool :=
  match l with
  | Log INFO msg => starts_with "Attempting to fix error: " msg
  | Log _ _ => false
  end.

Definition attempts (c : list LogLine) : list LogLine :=
  filter (λ l, is_attempt l = true) c.

(** What the analyzers report when [healApp] is called in world [w]. *)
Definition heal_announce (app : GeneratedApp) (w : World) : World :=
  set_console
    (λ c, c ++ [Log INFO ("Starting healing process for app: " +:+ app_name app)]) w.

Definition found (app : GeneratedApp) (w : World) : list ErrorInfo :=
  match (exec (analyzeApp app) (heal_announce app w)).1 with
  | Ok errors => errors
  | Thrown _ => []
  end.

(** A record no fix attempt has resolved. *)
Definition unresolved (e : ErrorInfo) : Prop :=
  fix_attempted e = false ∧ fix_successful e = false.

(** The reasoning service never hands back a suggestion (it is down, or
    what it says cannot be used). *)
Definition synthesis_fails : Prop := ∀ t s, ai_reply O t ≠ AiFix s.

End HealingSystem.
End Healing.

(* ===================================================================== *)
(** ** src/testing/testing-engine.ts *)
(* ===================================================================== *)

Module Testing.
Import Fs Types Async.

(** Math.round on a double: the nearest integer, a tie going up. *)
Definition Math_round (x : float) : Z :=
  match Prim2SF x with
  | S754_finite s m e =>
      let n := if s then Z.neg m else Z.pos m in
      if (0 <=? e)%Z then (n * 2 ^ e)%Z
      else ((2 * n + 2 ^ (- e)) / 2 ^ (1 - e))%Z
  | _ => 0%Z
  end.

Definition number (n : nat) : float := PrimFloat.of_uint63 (Uint63.of_Z (Z.of_nat n)).

Definition passed (test : TestCase) : bool := bool_decide (tc_status test = c_passed).

Definition calculateCoverage (tests : list TestCase) : Z :=
  let passed := length (filter (λ test, passed test = true) tests) in
  if (0 <? length tests)%nat
  then Math_round (number passed / number (length tests) * number 100)%float
  else 0%Z.

Definition set_status (st : SuiteStatus) (s : TestSuite) : TestSuite :=
  {| ts_id := ts_id s; ts_name := ts_name s; ts_type := ts_type s;
     tests := tests s; status := st; coverage := coverage s;
     duration := duration s |}.

Definition set_coverage (c : Z) (s : TestSuite) : TestSuite :=
  {| ts_id := ts_id s; ts_name := ts_name s; ts_type := ts_type s;
     tests := tests s; status := status s; coverage := c;
     duration := duration s |}.

Definition set_duration (d : N) (s : TestSuite) : TestSuite :=
  {| ts_id := ts_id s; ts_name := ts_name s; ts_type := ts_type s;
     tests := tests s; status := status s; coverage := coverage s;
     duration := d |}.

Definition push_tests (new : list TestCase) (s : TestSuite) : TestSuite :=
  {| ts_id := ts_id s; ts_name := ts_name s; ts_type := ts_type s;
     tests := tests s ++ new; status := status s; coverage := coverage s;
     duration := duration s |}.

(** testSuite.tests.every(test => test.status === 'passed') ? 'passed' : 'failed' *)
Definition verdict (s : TestSuite) : TestSuite :=
  set_status (if forallb passed (tests s) then s_passed else s_failed) s.

Definition new_suite (id name : string) (type : SuiteType) : TestSuite :=
  {| ts_id := id; ts_name := name; ts_type := type; tests := [];
     status := s_running; coverage := 0; duration := 0%N |}.

Definition failing_case (id name description message : string) : TestCase :=
  {| tc_id := id; tc_name := name; tc_description := description;
     tc_status := c_failed; tc_duration := 0%N; tc_error := Some message |}.

(** A suite whose status agrees with its cases. *)
Definition aggregated (s : TestSuite) : Prop :=
  status s = s_passed ↔ Forall (λ t, tc_status t = c_passed) (tests s).

Section TestingEngine.
Variable config : FrameworkConfig.
Variable O : Oracle.

(** The test sources written by [generateUnitTests] are templates; only
    their place on the disk matters here. *)
Variable generateComponentTest : string → string.
Variable generateAPITest : string → string.

Fixpoint replace_slashes (s : string) : string :=
  match s with
  | EmptyString => EmptyString
  | String c s' =>
      String (if decide (c = "/"%char) then "_"%char else c) (replace_slashes s')
  end.

(** The name of a component is one path component. *)
Definition generateUnitTests (app : GeneratedApp) (appDir : path) : R unit :=
  let frontendTestsDir := appDir ++ ["frontend"; "src"; "__tests__"] in
  fs_ensureDir frontendTestsDir ;;
  for_each (uiComponents app)
    (λ name, fs_writeFile (frontendTestsDir ++ [name +:+ ".test.tsx"])
                          (generateComponentTest name)) ;;
  let backendTestsDir := appDir ++ ["backend"; "src"; "__tests__"] in
  fs_ensureDir backendTestsDir ;;
  for_each (apiEndpoints app)
    (λ endpoint, fs_writeFile (backendTestsDir ++ [replace_slashes endpoint +:+ ".test.ts"])
                              (generateAPITest endpoint)).

Definition jest_case (a : Assertion) : R TestCase :=
  now ← Date_now; r ← Math_random O;
  mret {| tc_id := "test-" +:+ pretty now +:+ "-0." +:+ pretty r;
          tc_name := a_title a;
          tc_description := a_fullName a;
          tc_status := if decide (a_status a = "passed") then c_passed else c_failed;
          tc_duration := default 0%N (a_duration a);
          tc_error := String.concat (String "010"%char "") <$> a_failureMessages a |}.

(** catch (error) { testCases.push({ id: `jest-error-...`, ... }) } *)
Definition jest_error (suiteName : string) (testCases : list TestCase) (e : Exn)
  : R (list TestCase) :=
  now ← Date_now;
  mret (testCases ++ [failing_case ("jest-error-" +:+ pretty now) suiteName
                                   "Jest test execution failed" (exn_message e)]).

(** The cases are pushed one by one onto [testCases], so the catch block
    appends its case to the ones pushed before the exception. *)
Definition runJestTests (directory : path) (suiteName : string) : R (list TestCase) :=
  try_catch
    (out ← execAsync O "npm test -- --json --watchAll=false" directory;
     match parse_jest O out.1 with
     | Some results =>
         match testResults results with
         | Some files =>
             testCases ← mapM jest_case (concat files);
             match jest_breaks results with
             | Some message => jest_error suiteName testCases (JsError message)
             | None => mret testCases
             end
         | None => mret []
         end
     | None => Throw (JsError "SyntaxError: Unexpected token in JSON")
     end)
    (jest_error suiteName []).

(** [startApplication] spawns the two dev servers and hands back a handle;
    neither the spawn nor [kill] is awaited or can be observed below.
    This is the spawn that succeeds: the working directories
    [appDir/backend] and [appDir/frontend] exist and npm can be started
    ([launchable] below).  Where one of them is missing the child emits
    an 'error' event nobody listens to and the Node process dies; no
    computation of [R] stands for that, and what is proved of a run that
    reaches [startApplication] is proved for launchable worlds. *)
Definition startApplication (appDir : path) : R unit := mret tt.

Definition launchable (appDir : path) (w : World) : Prop :=
  fs w !! (appDir ++ ["backend"]) = Some Dir
  ∧ fs w !! (appDir ++ ["frontend"]) = Some Dir.
Definition kill : R unit := mret tt.

Definition waitForServer (url : string) (timeout : N) : R unit :=
  start ← Date_now;
  up ← poll O (poll_rounds timeout 1000%N) url start timeout 1000%N;
  if up : bool then mret tt
  else Throw (JsError ("Server at " +:+ url +:+ " did not start within "
                         +:+ pretty timeout +:+ "ms")).

Definition puppeteer_launch : R unit :=
  ok ← request O (launch_browser O);
  if ok : bool then modify (set_browser true)
  else Throw (JsError "Failed to launch the browser process").

Definition ensure_browser : R unit :=
  b ← get browser;
  if b : bool then mret tt else puppeteer_launch.

Definition runAPIIntegrationTests (app : GeneratedApp) : R (list TestCase) := mret [].
Definition runDatabaseIntegrationTests (app : GeneratedApp) : R (list TestCase) := mret [].
Definition runAuthenticationTests (app : GeneratedApp) : R (list TestCase) := mret [].
Definition runUserJourneyTests (app : GeneratedApp) : R (list TestCase) := mret [].
Definition runFormTests (app : GeneratedApp) : R (list TestCase) := mret [].
Definition runNavigationTests (app : GeneratedApp) : R (list TestCase) := mret [].
Definition runLoadTests (app : GeneratedApp) : R (list TestCase) := mret [].
Definition takeScreenshots (app : GeneratedApp) : R (list TestCase) := mret [].

Definition passing_case (id name description : string) (d : N) : TestCase :=
  {| tc_id := id; tc_name := name; tc_description := description;
     tc_status := c_passed; tc_duration := d; tc_error := None |}.

Definition runLighthouseAudit : R TestCase :=
  now ← Date_now;
  mret (passing_case ("lighthouse-" +:+ pretty now) "Lighthouse Performance Audit"
          "Performance, accessibility, and best practices audit" 5000%N).

Definition runAccessibilityTest (pagePath : string) : R TestCase :=
  now ← Date_now;
  mret (passing_case ("a11y-" +:+ pretty now) ("Accessibility Test - " +:+ pagePath)
          ("Accessibility compliance test for " +:+ pagePath) 2000%N).

(** The frame shared by the six [run...Tests] methods: a fresh suite, the
    try block as a list of steps on it, the catch block, the duration. *)
Definition run_suite (prefix name : string) (type : SuiteType)
    (steps : list (TestSuite → R TestSuite))
    (on_error : Exn → TestSuite → R TestSuite) : R TestSuite :=
  now ← Date_now;
  startTime ← Date_now;
  testSuite ← attempt steps on_error (new_suite (prefix +:+ pretty now) name type);
  finish ← Date_now;
  mret (set_duration (finish - startTime)%N testSuite).

Definition step_ (m : R unit) : TestSuite → R TestSuite := λ s, m ;; mret s.
Definition step_push (m : R (list TestCase)) : TestSuite → R TestSuite :=
  λ s, ts ← m; mret (push_tests ts s).
Definition step_push1 (m : R TestCase) : TestSuite → R TestSuite :=
  λ s, t ← m; mret (push_tests [t] s).
Definition step_when (b : bool) (st : TestSuite → R TestSuite) : TestSuite → R TestSuite :=
  λ s, if b then st s else mret s.
Definition step_if_exists (p : path) (st : TestSuite → R TestSuite)
  : TestSuite → R TestSuite :=
  λ s, ex ← fs_pathExists p; if ex : bool then st s else mret s.

(** catch (error) { status = 'failed'; tests.push({... status: 'failed' ...}) } *)
Definition fail_with_case (what prefix name description : string)
  : Exn → TestSuite → R TestSuite :=
  λ e s, logger ERROR what ;;
         now ← Date_now;
         mret (push_tests [failing_case (prefix +:+ pretty now) name description
                                        (exn_message e)]
                          (set_status s_failed s)).

(** catch (error) { status = 'failed' } *)
Definition fail_silently (what : string) : Exn → TestSuite → R TestSuite :=
  λ e s, logger ERROR what ;; mret (set_status s_failed s).

Definition runUnitTests (app : GeneratedApp) (appDir : path) : R TestSuite :=
  logger INFO "Running unit tests..." ;;
  run_suite "unit-" "Unit Tests" t_unit
    [ step_ (generateUnitTests app appDir);
      step_if_exists (appDir ++ ["frontend"])
        (step_push (runJestTests (appDir ++ ["frontend"]) "Frontend Unit Tests"));
      step_if_exists (appDir ++ ["backend"])
        (step_push (runJestTests (appDir ++ ["backend"]) "Backend Unit Tests"));
      (λ s, mret (set_coverage (calculateCoverage (tests (verdict s))) (verdict s))) ]
    (fail_with_case "Unit tests failed:" "error-" "Unit Test Execution"
                    "Failed to execute unit tests").

Definition runIntegrationTests (app : GeneratedApp) (appDir : path) : R TestSuite :=
  logger INFO "Running integration tests..." ;;
  run_suite "integration-" "Integration Tests" t_integration
    [ step_ (startApplication appDir);
      step_ (waitForServer "http://localhost:3001" 30000%N);
      step_push (runAPIIntegrationTests app);
      step_when (spec_database app) (step_push (runDatabaseIntegrationTests app));
      step_when (spec_authentication app) (step_push (runAuthenticationTests app));
      (λ s, mret (verdict s));
      step_ kill ]
    (fail_with_case "Integration tests failed:" "integration-error-"
                    "Integration Test Setup" "Failed to run integration tests").

Definition runE2ETests (app : GeneratedApp) (appDir : path) : R TestSuite :=
  logger INFO "Running E2E tests..." ;;
  run_suite "e2e-" "End-to-End Tests" t_e2e
    [ step_ puppeteer_launch;
      step_ (startApplication appDir);
      step_ (waitForServer "http://localhost:3000" 30000%N);
      step_push (runUserJourneyTests app);
      step_push (runFormTests app);
      step_push (runNavigationTests app);
      (λ s, mret (verdict s));
      step_ kill ]
    (fail_with_case "E2E tests failed:" "e2e-error-" "E2E Test Setup"
                    "Failed to run E2E tests").

Definition runPerformanceTests (app : GeneratedApp) (appDir : path) : R TestSuite :=
  logger INFO "Running performance tests..." ;;
  run_suite "performance-" "Performance Tests" t_performance
    [ step_ (startApplication appDir);
      step_ (waitForServer "http://localhost:3000" 30000%N);
      step_push1 runLighthouseAudit;
      step_push (runLoadTests app);
      (λ s, mret (verdict s));
      step_ kill ]
    (fail_silently "Performance tests failed:").

Definition runAccessibilityTests (app : GeneratedApp) (appDir : path) : R TestSuite :=
  logger INFO "Running accessibility tests..." ;;
  run_suite "accessibility-" "Accessibility Tests" t_security
    [ step_ (startApplication appDir);
      step_ (waitForServer "http://localhost:3000" 30000%N);
      step_ ensure_browser;
      step_push (mapM runAccessibilityTest ["/"; "/login"; "/register"]);
      (λ s, mret (verdict s));
      step_ kill ]
    (fail_silently "Accessibility tests failed:").

Definition runVisualRegressionTests (app : GeneratedApp) (appDir : path) : R TestSuite :=
  logger INFO "Running visual regression tests..." ;;
  run_suite "visual-" "Visual Regression Tests" t_e2e
    [ step_ (startApplication appDir);
      step_ (waitForServer "http://localhost:3000" 30000%N);
      step_ ensure_browser;
      step_push (takeScreenshots app);
      (λ s, mret (set_status s_passed s));
      step_ kill ]
    (fail_silently "Visual regression tests failed:").

Definition cleanup : R unit :=
  b ← get browser;
  if b : bool then modify (set_browser false) else mret tt.

(** The six categories in the order [runAllTests] goes through them, each
    with its configuration switch. *)
Inductive Category := Unit | Integration | E2E | Performance | Accessibility | Visual.

Definition categories : list Category :=
  [Unit; Integration; E2E; Performance; Accessibility; Visual].

Definition enabled (c : Category) : bool :=
  match c with
  | Unit => unitTests config
  | Integration => integrationTests config
  | E2E => e2eTests config
  | Performance => performanceTesting config
  | Accessibility => accessibility config
  | Visual => visualRegression config
  end.

Definition run_category (c : Category) (app : GeneratedApp) (appDir : path) : R TestSuite :=
  match c with
  | Unit => runUnitTests app appDir
  | Integration => runIntegrationTests app appDir
  | E2E => runE2ETests app appDir
  | Performance => runPerformanceTests app appDir
  | Accessibility => runAccessibilityTests app appDir
  | Visual => runVisualRegressionTests app appDir
  end.

Definition runAllTests (app : GeneratedApp) : R (list TestSuite) :=
  logger INFO ("Running all tests for app: " +:+ app_name app) ;;
  let appDir := join [workspaceDir config; "apps"; app_id app] in
  try_finally
    (try_catch
       (testSuites ← mapM (λ c, run_category c app appDir) (filter (λ c, enabled c = true) categories);
        logger INFO ("Completed all tests for app: " +:+ app_name app +:+ ". "
                       +:+ pretty (length testSuites) +:+ " test suites run.") ;;
        mret testSuites)
       (λ e, logger ERROR ("Testing failed for app " +:+ app_name app +:+ ":") ;;
             Throw e))
    cleanup.

End TestingEngine.
End Testing.

(* ===================================================================== *)
(** ** src/deployment/deployment-manager.ts *)
(* ===================================================================== *)

Module Deployment.
Import Fs Types Async.

Definition with_status (st : DeployStatus) (d : DeploymentResult) : DeploymentResult :=
  {| dep_id := dep_id d; dep_app_id := dep_app_id d; environment := environment d;
     dep_status := st; url := url d; logs := logs d;
     dep_duration := dep_duration d; dep_timestamp := dep_timestamp d |}.

Definition with_url (u : string) (d : DeploymentResult) : DeploymentResult :=
  {| dep_id := dep_id d; dep_app_id := dep_app_id d; environment := environment d;
     dep_status := dep_status d; url := Some u; logs := logs d;
     dep_duration := dep_duration d; dep_timestamp := dep_timestamp d |}.

Definition with_log (line : string) (d : DeploymentResult) : DeploymentResult :=
  {| dep_id := dep_id d; dep_app_id := dep_app_id d; environment := environment d;
     dep_status := dep_status d; url := url d; logs := logs d ++ [line];
     dep_duration := dep_duration d; dep_timestamp := dep_timestamp d |}.

Definition with_duration (n : N) (d : DeploymentResult) : DeploymentResult :=
  {| dep_id := dep_id d; dep_app_id := dep_app_id d; environment := environment d;
     dep_status := dep_status d; url := url d; logs := logs d;
     dep_duration := n; dep_timestamp := dep_timestamp d |}.

(** response.ok *)
Definition answers (r : FetchOutcome) : bool :=
  match r with Response true _ => true | _ => false end.

(** What a deployment that did not go through ends as. *)
Definition aborted (config : FrameworkConfig) (env : Environment) : DeployStatus :=
  if rollbackOnFailure config && negb (bool_decide (env = development))
  then d_rolled_back else d_failed.

(** A field of the deployment object [id], while it is registered. *)
Definition observe {X} (h : DeploymentResult → X) (id : string) (w : World) : option X :=
  h <$> activeDeployments w !! id.

Section DeploymentManager.
Variable config : FrameworkConfig.
Variable O : Oracle.

(** The DeploymentResult object of a call lives in [activeDeployments]
    under its id from the first statement of [deploy] on; the methods
    below update it there.  (The timer that drops it an hour after the
    call is outside this model.) *)
Definition update (id : string) (f : DeploymentResult → DeploymentResult) : R unit :=
  modify (set_activeDeployments (alter f id)).

Definition push (id : string) (line : string) : R unit := update id (with_log line).

Definition field {A} (id : string) (f : DeploymentResult → A) (dflt : A) : R A :=
  get (λ w, default dflt (f <$> activeDeployments w !! id)).

Definition iso (t : N) : string := pretty t.

Definition non_empty (s : string) : bool :=
  match s with EmptyString => false | _ => true end.

Definition validateEnvironmentVariables (app : GeneratedApp) (id : string) (appDir : path)
  : R unit :=
  ex ← fs_pathExists (appDir ++ [".env.example"]);
  if ex : bool then
    envExample ← fs_readFile (appDir ++ [".env.example"]);
    let requiredVars :=
      filter (λ v, v ≠ "")
        ((λ line, default "" (head (split_on "="%char line "")))
           <$> filter (λ line, line ≠ "" ∧ starts_with "#" line = false)
                      (split_on "010"%char envExample "")) in
    let missingVars :=
      filter (λ v, default "" (process_env O v) = "") requiredVars in
    match missingVars with
    | [] => mret tt
    | _ => push id ("Warning: Missing environment variables: "
                      +:+ String.concat ", " missingVars)
    end
  else mret tt.

Definition runPreDeploymentChecks (app : GeneratedApp) (id : string) (appDir : path)
  : R unit :=
  push id "Running pre-deployment checks..." ;;
  let requiredFiles :=
    ["package.json"]
      ++ (if frontend_is_react app then ["frontend/package.json"] else [])
      ++ (if backend_framework app then ["backend/package.json"] else []) in
  for_each requiredFiles
    (λ file, ex ← fs_pathExists (appDir ++ split_path file);
             if ex : bool then mret tt
             else Throw (JsError ("Required file not found: " +:+ file))) ;;
  validateEnvironmentVariables app id appDir ;;
  push id "Pre-deployment checks completed".

Definition head_of (n : nat) (s : string) : string := String.substring 0 n s.

Definition buildApplication (app : GeneratedApp) (id : string) (appDir : path) : R unit :=
  push id "Building application..." ;;
  try_catch
    (out ← execAsync O "npm run build" appDir;
     push id "Build completed successfully" ;;
     (if non_empty out.1 then push id ("Build output: " +:+ head_of 1000 out.1)
      else mret tt) ;;
     (if non_empty out.2 then push id ("Build warnings: " +:+ head_of 1000 out.2)
      else mret tt))
    (λ e, push id ("Build failed: " +:+ exn_message e) ;;
          Throw (JsError ("Build failed: " +:+ exn_message e))).

Definition deployWithDocker (app : GeneratedApp) (id : string) (appDir : path)
    (env : Environment) : R unit :=
  push id "Deploying with Docker..." ;;
  try_catch
    (let composeFile :=
       if decide (env = production) then "docker-compose.prod.yml"
       else "docker-compose.dev.yml" in
     ex ← fs_pathExists (appDir ++ [composeFile]);
     if negb ex then
       Throw (JsError ("Docker compose file not found: " +:+ composeFile))
     else
       try_catch
         (execAsync O ("docker-compose -f " +:+ composeFile +:+ " down") appDir ;;
          mret tt)
         (λ e, push id "No existing containers to stop") ;;
       out ← execAsync O ("docker-compose -f " +:+ composeFile +:+ " up -d --build")
                         appDir;
       push id "Docker containers started successfully" ;;
       (if non_empty out.1 then push id ("Docker output: " +:+ head_of 1000 out.1)
        else mret tt) ;;
       (if non_empty out.2 then push id ("Docker warnings: " +:+ head_of 1000 out.2)
        else mret tt) ;;
       update id (with_url (if decide (env = production) then "https://localhost"
                            else "http://localhost:3000")))
    (λ e, push id ("Docker deployment failed: " +:+ exn_message e) ;; Throw e).

Definition show_url (u : option string) : string := default "undefined" u.

Definition deployWithVercel (app : GeneratedApp) (id : string) (appDir : path)
    (env : Environment) : R unit :=
  push id "Deploying with Vercel..." ;;
  try_catch
    (execAsync O "vercel --version" [] ;;
     ex ← fs_pathExists (appDir ++ ["frontend"]);
     if ex : bool then
       let vercelArgs := if decide (env = production) then "--prod" else "" in
       out ← execAsync O ("vercel " +:+ vercelArgs +:+ " --yes") (appDir ++ ["frontend"]);
       match find_url O out.1 with
       | Some u => update id (with_url u)
       | None => mret tt
       end ;;
       push id "Vercel deployment completed successfully" ;;
       u ← field id url None;
       push id ("Deployment URL: " +:+ show_url u)
     else Throw (JsError "Frontend directory not found for Vercel deployment"))
    (λ e, if includes (exn_message e) "vercel --version" then
            Throw (JsError "Vercel CLI not installed. Install with: npm install -g vercel")
          else push id ("Vercel deployment failed: " +:+ exn_message e) ;; Throw e).

Definition deployWithNetlify (app : GeneratedApp) (id : string) (appDir : path)
    (env : Environment) : R unit :=
  push id "Deploying with Netlify..." ;;
  try_catch
    (execAsync O "netlify --version" [] ;;
     ex ← fs_pathExists (appDir ++ ["frontend"]);
     if ex : bool then
       built ← fs_pathExists (appDir ++ ["frontend"; "dist"]);
       if negb built then Throw (JsError "Build directory not found. Run build first.")
       else
         let netlifyArgs := if decide (env = production) then "--prod" else "" in
         out ← execAsync O ("netlify deploy --dir=dist " +:+ netlifyArgs)
                           (appDir ++ ["frontend"]);
         match find_website_url O out.1 with
         | Some u => update id (with_url u)
         | None => mret tt
         end ;;
         push id "Netlify deployment completed successfully" ;;
         u ← field id url None;
         push id ("Deployment URL: " +:+ show_url u)
     else Throw (JsError "Frontend directory not found for Netlify deployment"))
    (λ e, if includes (exn_message e) "netlify --version" then
            Throw (JsError
                     "Netlify CLI not installed. Install with: npm install -g netlify-cli")
          else push id ("Netlify deployment failed: " +:+ exn_message e) ;; Throw e).

Definition deployWithAWS (app : GeneratedApp) (id : string) (appDir : path)
    (env : Environment) : R unit :=
  push id "Deploying with AWS..." ;;
  try_catch
    (push id "AWS deployment is not yet implemented" ;;
     Throw (JsError "AWS deployment provider is not yet implemented"))
    (λ e, push id ("AWS deployment failed: " +:+ exn_message e) ;; Throw e).

(** [waitForApplication], with maxWaitTime = 300000 and a pause of five
    seconds between two requests. *)
Fixpoint await_application (rounds : nat) (id u : string) (start maxWaitTime : N)
  : R unit :=
  match rounds with
  | 0 => Throw (JsError ("Application did not start within "
                           +:+ pretty (maxWaitTime / 1000)%N +:+ " seconds"))
  | S rounds' =>
      now ← Date_now;
      if (now - start <? maxWaitTime)%N then
        response ← request O (λ t, http_get O t u);
        match response with
        | Response true _ => push id "Application is responding"
        | _ => sleep 5000 ;; await_application rounds' id u start maxWaitTime
        end
      else Throw (JsError ("Application did not start within "
                             +:+ pretty (maxWaitTime / 1000)%N +:+ " seconds"))
  end.

Definition waitForApplication (u : string) (id : string) : R unit :=
  push id ("Waiting for application to start at " +:+ u +:+ "...") ;;
  start ← Date_now;
  await_application (poll_rounds 300000 5000) id u start 300000.

Definition health_check (id : string) (healthUrl : string) : R unit :=
  response ← request O (λ t, http_get O t healthUrl);
  match response with
  | Response true _ => push id ("Health check passed: " +:+ healthUrl)
  | Response false code =>
      push id ("Health check warning: " +:+ healthUrl +:+ " returned " +:+ pretty code)
  | NetworkError m =>
      push id ("Health check failed: " +:+ healthUrl +:+ " - " +:+ m)
  end.

Definition runHealthChecks (id : string) : R unit :=
  push id "Running health checks..." ;;
  try_catch
    (u ← field id url None;
     for_each [show_url u +:+ "/health"; show_url u +:+ "/api/health"] (health_check id))
    (λ e, push id ("Health checks failed: " +:+ exn_message e)).

Definition runSmokeTests (app : GeneratedApp) (id : string) : R unit :=
  push id "Running smoke tests..." ;;
  try_catch
    (let appDir := join [workspaceDir config; "apps"; app_id app] in
     let smokeTestScript := appDir ++ ["scripts"; "smoke-test.js"] in
     ex ← fs_pathExists smokeTestScript;
     if ex : bool then
       out ← execAsync O ("node " +:+ render smokeTestScript) appDir;
       push id "Smoke tests passed" ;;
       (if non_empty out.1 then push id ("Test output: " +:+ head_of 500 out.1)
        else mret tt)
     else push id "No smoke test script found, skipping")
    (λ e, push id ("Smoke tests failed: " +:+ exn_message e) ;;
          env ← field id environment development;
          if decide (env = production) then Throw e else mret tt).

Definition runPostDeploymentChecks (app : GeneratedApp) (id : string) (env : Environment)
  : R unit :=
  push id "Running post-deployment checks..." ;;
  u ← field id url None;
  match u with
  | None => push id "No deployment URL available, skipping health checks"
  | Some u =>
      waitForApplication u id ;;
      (if healthChecks config then runHealthChecks id else mret tt) ;;
      runSmokeTests app id ;;
      push id "Post-deployment checks completed"
  end.

Definition rollbackDeployment (app : GeneratedApp) (id : string) (env : Environment)
  : R unit :=
  push id "Starting rollback..." ;;
  try_catch
    (push id "Rollback completed" ;;
     update id (with_status d_rolled_back))
    (λ e, push id ("Rollback failed: " +:+ exn_message e) ;;
          logger ERROR ("Rollback failed for " +:+ app_name app +:+ ":")).

Definition show_deploy_provider (p : DeployProvider) : string :=
  match p with
  | docker => "docker" | vercel => "vercel" | netlify => "netlify"
  | aws => "aws" | gcp => "gcp"
  end.

Definition deploy_provider (app : GeneratedApp) (id : string) (appDir : path)
    (env : Environment) : R unit :=
  match provider config with
  | docker => deployWithDocker app id appDir env
  | vercel => deployWithVercel app id appDir env
  | netlify => deployWithNetlify app id appDir env
  | aws => deployWithAWS app id appDir env
  | gcp => Throw (JsError ("Unsupported deployment provider: "
                             +:+ show_deploy_provider (provider config)))
  end.

(** The try block of [deploy]. *)
Definition deploy_steps (app : GeneratedApp) (id : string) (env : Environment) : R unit :=
  logger INFO ("Starting deployment of " +:+ app_name app +:+ " to " +:+ env_name env) ;;
  update id (with_status d_deploying) ;;
  now ← Date_now;
  push id ("Starting deployment to " +:+ env_name env +:+ " at " +:+ iso now) ;;
  let appDir := join [workspaceDir config; "apps"; app_id app] in
  runPreDeploymentChecks app id appDir ;;
  buildApplication app id appDir ;;
  deploy_provider app id appDir env ;;
  runPostDeploymentChecks app id env ;;
  update id (with_status d_success) ;;
  finish ← Date_now;
  push id ("Deployment completed successfully at " +:+ iso finish) ;;
  logger INFO ("Successfully deployed " +:+ app_name app +:+ " to " +:+ env_name env).

(** The catch block of [deploy]. *)
Definition deploy_failed (app : GeneratedApp) (id : string) (env : Environment) (e : Exn)
  : R unit :=
  update id (with_status d_failed) ;;
  push id ("Deployment failed: " +:+ exn_message e) ;;
  logger ERROR ("Deployment failed for " +:+ app_name app +:+ ":") ;;
  if rollbackOnFailure config && negb (bool_decide (env = development))
  then rollbackDeployment app id env
  else mret tt.

Definition new_deployment (id : string) (app : GeneratedApp) (env : Environment) (now : N)
  : DeploymentResult :=
  {| dep_id := id; dep_app_id := app_id app; environment := env;
     dep_status := d_pending; url := None; logs := [];
     dep_duration := 0; dep_timestamp := now |}.

Definition deploy (app : GeneratedApp) (env : Environment) : R DeploymentResult :=
  now ← Date_now; r ← Math_random O;
  let deploymentId := "deploy-" +:+ pretty now +:+ "-" +:+ pretty r in
  timestamp ← Date_now;
  let deployment := new_deployment deploymentId app env timestamp in
  modify (set_activeDeployments <[deploymentId := deployment]>) ;;
  emit (DeploymentStarted (app_id app) deploymentId) ;;
  startTime ← Date_now;
  try_finally
    (try_catch (deploy_steps app deploymentId env)
               (deploy_failed app deploymentId env))
    (finish ← Date_now;
     update deploymentId (with_duration (finish - startTime)%N) ;;
     d ← field deploymentId (λ d, d) deployment;
     emit (DeploymentCompleted (app_id app) d)) ;;
  field deploymentId (λ d, d) deployment.

End DeploymentManager.
End Deployment.

(* ===================================================================== *)
(** ** The event loop *)
(* ===================================================================== *)

Module Sched.
Import Fs Types Async.

(** A call runs until the first action it awaits; what is left is a task
    of the event loop. *)
Fixpoint settle {A} (m : R A) (w : World) : World * R A :=
  match m with
  | Act false u k => settle (k w) (u w)
  | _ => (w, m)
  end.

(** The awaited action completes and the task runs on to its next one. *)
Definition resume {A} (m : R A) (w : World) : World * R A :=
  match m with
  | Act true u k => settle (k w) (u w)
  | _ => (w, m)
  end.

Definition finished {A} (m : R A) : bool :=
  match m with
  | Ret _ | Throw _ => true
  | Act _ _ _ => false
  end.

(** A call that is still running once its synchronous prefix is over. *)
Definition pending {A} (m : R A) (w : World) : Prop :=
  finished (settle m w).2 = false.

Inductive Kind := Heal | Deploy.

#[global] Instance Kind_eq_dec : EqDecision Kind.
Proof. solve_decision. Defined.

(** A task: which method was called, for which application id, and the
    rest of the call. *)
Record Task := { kind : Kind; subject : string; rest : R unit }.

Record Loop := { tasks : list Task; world : World }.

Definition void {A} (m : R A) : R unit := m ;; mret tt.

(** Calling an async method: its synchronous prefix runs at once. *)
Definition call (k : Kind) (app : string) (m : R unit) (l : Loop) : Loop :=
  let (w', m') := settle m (world l) in
  {| tasks := tasks l ++ [ {| kind := k; subject := app; rest := m' |} ];
     world := w' |}.

(** The event loop completes the action the [i]-th task is waiting for. *)
Definition step (i : nat) (l : Loop) : Loop :=
  match tasks l !! i with
  | Some t =>
      let (w', m') := resume (rest t) (world l) in
      {| tasks := <[i := {| kind := kind t; subject := subject t; rest := m' |}]> (tasks l);
         world := w' |}
  | None => l
  end.

Definition in_flight (k : Kind) (app : string) (l : Loop) : nat :=
  length (filter (λ t, kind t = k ∧ subject t = app ∧ finished (rest t) = false)
                 (tasks l)).

Section Calls.
Variable config : FrameworkConfig.
Variable O : Oracle.

Definition call_healApp (app : GeneratedApp) : Loop → Loop :=
  call Heal (app_id app) (void (Healing.healApp config O app)).

Definition call_deploy (app : GeneratedApp) (env : Environment) : Loop → Loop :=
  call Deploy (app_id app) (void (Deployment.deploy config O app env)).

(** What a program can do to the loop: call one of the two entry points,
    or let a pending action complete. *)
Inductive Move :=
| CallHeal (app : GeneratedApp)
| CallDeploy (app : GeneratedApp) (env : Environment)
| Complete (i : nat).

Definition move (mv : Move) : Loop → Loop :=
  match mv with
  | CallHeal app => call_healApp app
  | CallDeploy app env => call_deploy app env
  | Complete i => step i
  end.

Definition run (moves : list Move) (l : Loop) : Loop :=
  foldl (λ l mv, move mv l) l moves.

End Calls.
End Sched.

(* ===================================================================== *)
(** ** The specification's sentences, as they are written *)
(* ===================================================================== *)

Module Spec.
Import Fs Types Async.

Section Sentences.
Variable config : FrameworkConfig.
Variable O : Oracle.

Abbreviation appDir := (Healing.appDir config).
Abbreviation backupDir := (Healing.backupDir config).

(** Rollback correctness: the fix was applied, validation said no, the
    rollback threshold is positive; then the tree is what it was before
    the fix was applied and the fix comes back with applied = false. *)
Definition rollback_correctness (app : GeneratedApp) (error : ErrorInfo) (w0 : World)
  : Prop :=
  ∀ b w1 fx w2 w3 w4,
    exec (Healing.createBackup config app) (Healing.announce error w0) = (Ok b, w1) →
    exec (Healing.generateFix config O app error) w1 = (Ok (Some fx), w2) →
    exec (Healing.applyFix app fx) w2 = (Ok true, w3) →
    exec (Healing.testFix config O app fx) w3 = (Ok false, w4) →
    (0 < rollbackThreshold config)%Z →
    ∃ fx' error' w5,
      exec (Healing.fixError config O app error) w0 = (Ok (Some fx', error'), w5)
      ∧ applied fx' = false
      ∧ subtree (appDir app) (fs w5) = subtree (appDir app) (fs w2).

(** No fix available: [fixError] returns null, the record stays as it
    was, no backup is created. *)
Definition no_backup_without_fix (app : GeneratedApp) (error : ErrorInfo) (w0 : World)
  : Prop :=
  Healing.synthesis_fails O →
  ∃ w', exec (Healing.fixError config O app error) w0 = (Ok (None, error), w')
        ∧ backupHistory w' = backupHistory w0
        ∧ subtree (join [workspaceDir config; "backups"]) (fs w')
          = subtree (join [workspaceDir config; "backups"]) (fs w0).

(** Synthesis errors: the record is still queued after the sweep. *)
Definition stays_queued (app : GeneratedApp) (w0 : World) : Prop :=
  Healing.synthesis_fails O →
  ∀ swept w', exec (Healing.healApp config O app) w0 = (Ok swept, w') →
  ∀ e, e ∈ Healing.found config O app w0 → Healing.actionable e = true →
  ∃ queue, healingQueue w' !! app_id app = Some queue ∧ e ∈ queue.


(** Analyzer tolerance: a linter that exits non-zero with a parseable
    report still yields the report's records. *)
Definition nonzero_exit_reported (directory : path) (type : string) (w : World) : Prop :=
  ∀ m so se results,
    run_cmd O (tick w) "npm run lint -- --format json" directory = ExitErr m so se →
    parse_eslint O so = Some results →
    ∃ errors, (exec (Healing.runESLint O directory type) w).1 = Ok errors
              ∧ length errors
                = length (concat ((λ r, default [] (messages r)) <$> results)).

(** At most one healing pass and one deployment in flight per
    application id, whatever is called and whatever completes. *)
Definition single_flight (moves : list Sched.Move) (l : Sched.Loop) : Prop :=
  ∀ k app, (Sched.in_flight k app (Sched.run config O moves l) ≤ 1)%nat.

(** Suite aggregation: whatever the category, the suite returned is
    passed exactly when every case in it passed. *)
Definition suite_aggregation (render_component render_api : string → string)
    (c : Testing.Category) (app : GeneratedApp) (dir : path) (w : World) : Prop :=
  ∀ s, (exec (Testing.run_category O render_component render_api c app dir) w).1 = Ok s →
       (status s = s_passed ↔ Forall (λ t, tc_status t = c_passed) (tests s)).

(** The pass rate of a list of cases: the number of passed cases divided
    by the number of cases, times 100, rounded to the nearest integer;
    0 when there is no case. *)
Definition pass_rate (cases : list TestCase) : Z :=
  match cases with
  | [] => 0%Z
  | _ :: _ =>
      Testing.Math_round
        (Testing.number (length (filter (λ t, tc_status t = c_passed) cases))
         / Testing.number (length cases) * Testing.number 100)%float
  end.

(** Coverage: whatever the category, the coverage of the suite returned
    is its pass rate. *)
Definition coverage_is_pass_rate (render_component render_api : string → string)
    (c : Testing.Category) (app : GeneratedApp) (dir : path) (w : World) : Prop :=
  ∀ s, (exec (Testing.run_category O render_component render_api c app dir) w).1 = Ok s →
       coverage s = pass_rate (tests s).


End Sentences.
End Spec.

(* ===================================================================== *)
(** ** A workspace with one application *)
(* ===================================================================== *)

Module Scenario.
Import Fs Types Async.

Definition config : FrameworkConfig :=
  {| aiProvider := openai; apiKey_openai := true; apiKey_anthropic := false;
     workspaceDir := "/ws";
     rollbackThreshold := 2;
     unitTests := true; integrationTests := true; e2eTests := true;
     visualRegression := true; performanceTesting := true; accessibility := true;
     testing_autoFix := true;
     provider := docker; healthChecks := true; rollbackOnFailure := false |}.

Definition shop : GeneratedApp :=
  {| app_id := "a1"; app_name := "shop"; uiComponents := []; apiEndpoints := [];
     spec_database := false; spec_authentication := false;
     frontend_is_react := true; backend_framework := false |}.

(** ErrorRecord{severity: critical, file: a.ts, line: 10, ...} *)
Definition missing_name : ErrorInfo :=
  {| err_id := "ts-1"; err_type := syntax; severity := critical;
     err_file := "/ws/apps/a1/frontend/a.ts"; err_line := 10;
     err_message := "Cannot find name 'x'";
     fix_attempted := false; fix_successful := false; err_timestamp := 0 |}.

Definition disk : fsys :=
  list_to_map
    [ ([], Dir); (["ws"], Dir); (["ws"; "apps"], Dir); (["ws"; "backups"], Dir);
      (["ws"; "apps"; "a1"], Dir);
      (["ws"; "apps"; "a1"; "package.json"], File "{}");
      (["ws"; "apps"; "a1"; "docker-compose.dev.yml"], File "services: {}");
      (["ws"; "apps"; "a1"; "frontend"], Dir);
      (["ws"; "apps"; "a1"; "frontend"; "package.json"], File "{}");
      (["ws"; "apps"; "a1"; "frontend"; "a.ts"], File "let y = x") ].

Definition world : World :=
  {| fs := disk; clock := 1000; tick := 0; disk_budget := None;
     console := []; emitted := []; healingQueue := ∅; backupHistory := ∅;
     activeDeployments := ∅; browser := false |}.

Definition tsc_line : string := "a.ts(10,5): error TS2304: Cannot find name 'x'.".

Definition tsc_diagnostic : TscDiagnostic :=
  {| d_file := "a.ts"; d_line := 10; d_column := 5; d_code := "TS2304";
     d_message := "Cannot find name 'x'." |}.

Definition refused : FetchOutcome := NetworkError "connect ECONNREFUSED".

(** An outside world in which the type checker reports one error, the
    linter and the audit are clean, the quick lint gate rejects, every
    request on the network gets [answer], and the reasoning service says
    [reply]. *)
Definition outside (reply : AiReply) (answer : FetchOutcome) : Oracle :=
  {| run_cmd := λ _ cmd _,
       if decide (cmd = "npx tsc --noEmit") then ExitErr "Command failed" "" tsc_line
       else if decide (cmd = "npm run lint") then ExitErr "Command failed" "" ""
       else Exit0 "[]" "";
     http_get := λ _ _, answer;
     ai_reply := λ _, reply;
     launch_browser := λ _, true;
     latency := λ _, 1%N;
     random := λ n, n;
     process_env := λ _, None;
     find_url := λ _, None;
     find_website_url := λ _, None;
     parse_eslint := λ s, if decide (s = "[]") then Some [] else None;
     parse_audit := λ s, if decide (s = "[]") then Some {| vulnerabilities := None |}
                         else None;
     parse_jest := λ s, if decide (s = "[]")
                        then Some {| testResults := None; jest_breaks := None |}
                        else None;
     match_tsc := λ s, if decide (s = tsc_line) then Some tsc_diagnostic else None |}.

Definition edit : FileChange :=
  {| ch_file := "/ws/apps/a1/frontend/a.ts"; ch_type := ch_update;
     original_content := None; new_content := Some "let y = 1" |}.

Definition wipe_backups : FileChange :=
  {| ch_file := "/ws/backups"; ch_type := ch_delete;
     original_content := None; new_content := None |}.

Definition suggestion (cs : list FileChange) : AiReply :=
  AiFix {| sg_description := "declare x"; sg_confidence := 0.75%float;
           sg_changes := cs |}.

(** The linter finds an error -- and so exits with code 1. *)
Definition lint_report : string :=
  "[{filePath:/ws/apps/a1/frontend/a.ts,messages:[{severity:2,line:10}]}]".

Definition linted : list EslintResult :=
  [ {| filePath := "/ws/apps/a1/frontend/a.ts";
       messages := Some [ {| m_severity := 2; m_line := 10;
                             m_message := "'x' is not defined." |} ] |} ].

Definition strict_linter : Oracle :=
  {| run_cmd := λ _ cmd _,
       if decide (cmd = "npm run lint -- --format json")
       then ExitErr "Command failed: npm run lint -- --format json" lint_report ""
       else Exit0 "[]" "";
     http_get := λ _ _, NetworkError "connect ECONNREFUSED";
     ai_reply := λ _, AiFalsy;
     launch_browser := λ _, true;
     latency := λ _, 1%N;
     random := λ n, n;
     process_env := λ _, None;
     find_url := λ _, None;
     find_website_url := λ _, None;
     parse_eslint := λ s, if decide (s = lint_report) then Some linted
                          else if decide (s = "[]") then Some [] else None;
     parse_audit := λ s, if decide (s = "[]") then Some {| vulnerabilities := None |}
                         else None;
     parse_jest := λ s, if decide (s = "[]")
                        then Some {| testResults := None; jest_breaks := None |}
                        else None;
     match_tsc := λ _, None |}.

(** The synthesizer has no fix. *)
Definition silent : Oracle := outside AiFalsy refused.
(** It proposes an edit of the offending file. *)
Definition helpful : Oracle := outside (suggestion [edit]) refused.
(** It proposes the edit, and the removal of the backups directory. *)
Definition careless : Oracle := outside (suggestion [edit; wipe_backups]) refused.
(** The application, once started, answers every request with 200. *)
Definition responsive : Oracle := outside AiFalsy (Response true 200).
(** It answers the root with 200 and everything else with 503. *)
Definition unhealthy : Oracle :=
  {| run_cmd := run_cmd responsive;
     http_get := λ _ u, if decide (u = "https://localhost") then Response true 200
                        else Response false 503;
     ai_reply := ai_reply responsive;
     launch_browser := launch_browser responsive;
     latency := latency responsive;
     random := random responsive;
     process_env := process_env responsive;
     find_url := find_url responsive;
     find_website_url := find_website_url responsive;
     parse_eslint := parse_eslint responsive;
     parse_audit := parse_audit responsive;
     parse_jest := parse_jest responsive;
     match_tsc := match_tsc responsive |}.

(** The workspace with both sub-projects of the shop on the disk. *)
Definition staged : World :=
  set_fs (λ f, <[["ws"; "apps"; "a1"; "backend"; "package.json"] := File "{}"]>
                 (<[["ws"; "apps"; "a1"; "backend"] := Dir]> f))
         world.

(** Jest exits with code 0 and reports, per sub-project, two assertions
    that passed and one that is pending. *)
Definition jest_output : string :=
  "{testResults:[{assertionResults:[{status:passed},{status:passed},{status:pending}]}]}".

Definition asserted : list Assertion :=
  [ {| a_title := "renders"; a_fullName := "shop renders"; a_status := "passed";
       a_duration := Some 12%N; a_failureMessages := Some [] |};
    {| a_title := "lists"; a_fullName := "shop lists"; a_status := "passed";
       a_duration := Some 7%N; a_failureMessages := Some [] |};
    {| a_title := "pays"; a_fullName := "shop pays"; a_status := "pending";
       a_duration := None; a_failureMessages := Some [] |} ].

Definition reporting : Oracle :=
  {| run_cmd := λ t cmd cwd,
       if decide (cmd = "npm test -- --json --watchAll=false") then Exit0 jest_output ""
       else run_cmd silent t cmd cwd;
     http_get := http_get silent;
     ai_reply := ai_reply silent;
     launch_browser := launch_browser silent;
     latency := latency silent;
     random := random silent;
     process_env := process_env silent;
     find_url := find_url silent;
     find_website_url := find_website_url silent;
     parse_eslint := parse_eslint silent;
     parse_audit := parse_audit silent;
     parse_jest := λ s, if decide (s = jest_output)
                        then Some {| testResults := Some [asserted];
                                     jest_breaks := None |}
                        else parse_jest silent s;
     match_tsc := match_tsc silent |}.

End Scenario.

(** The same workspace, part of the way through a fix attempt. *)
Module Attempt.
Import Fs Types Async Scenario.

Definition returned {A} (dflt : A) (r : Result A) : A :=
  match r with Ok a => a | Thrown _ => dflt end.

Definition no_backup : RollbackInfo :=
  {| backup_id := ""; rb_timestamp := 0; rb_files := [] |}.

Definition no_fix : Fix :=
  {| fix_id := ""; error_id := ""; fix_type := fx_code; description := "";
     changes := []; confidence := 0%float; tested := false; applied := false;
     rollback_info := no_backup |}.

(** The backup is taken ... *)
Definition backed_up : Result RollbackInfo * World :=
  exec (Healing.createBackup config shop) (Healing.announce missing_name world).

Definition backup : RollbackInfo := Eval vm_compute in returned no_backup backed_up.1.

(** ... the synthesizer answers ... *)
Definition generated (O : Oracle) : Result (option Fix) * World :=
  exec (Healing.generateFix config O shop missing_name) backed_up.2.

Definition proposal (O : Oracle) : Fix :=
  default no_fix (returned None (generated O).1).

(** ... the fix is applied ... *)
Definition patched (O : Oracle) : Result bool * World :=
  exec (Healing.applyFix shop (proposal O)) (generated O).2.

(** ... and validated. *)
Definition validated (O : Oracle) : Result bool * World :=
  exec (Healing.testFix config O shop (proposal O)) (patched O).2.


(** *** Test runs *)

Import Testing.

Definition plain : string → string := λ _, "".
Definition tree : path := Healing.appDir config shop.

Definition no_suite : TestSuite := new_suite "" "" t_unit.

(** The unit suite of the workspace, Jest reporting for both
    sub-projects. *)
Definition unit_suite : TestSuite :=
  Eval vm_compute in
    returned no_suite (exec (run_category reporting plain plain Unit shop tree) staged).1.

(** The performance suite when the application answers ... *)
Definition performance_suite : TestSuite :=
  Eval vm_compute in
    returned no_suite
      (exec (run_category responsive plain plain Performance shop tree) staged).1.

(** [p] cases that passed and [f] that failed. *)
Definition outcome (p f : nat) : list TestCase :=
  replicate p (passing_case "" "" "" 0) ++ replicate f (failing_case "" "" "" "").

(** ... and when it never comes up. *)
Definition stillborn_suite : TestSuite :=
  Eval vm_compute in
    returned no_suite
      (exec (run_category silent plain plain Performance shop tree) staged).1.

(** *** Deployments *)

Definition no_deployment : DeploymentResult :=
  Deployment.new_deployment "" shop development 0.

Definition local_url : string := "http://localhost:3000".

(** The containers start and nothing ever answers. *)
Definition stalled : DeploymentResult :=
  Eval vm_compute in
    returned no_deployment (exec (Deployment.deploy config silent shop development) world).1.

(** The workspace with a production compose file. *)
Definition released : World :=
  set_fs (insert ["ws"; "apps"; "a1"; "docker-compose.prod.yml"] (File "services: {}"))
         world.

(** A production deployment whose health endpoints answer 503. *)
Definition ailing : DeploymentResult :=
  Eval vm_compute in
    returned no_deployment
      (exec (Deployment.deploy config unhealthy shop production) released).1.

(** *** The event loop *)

Definition idle : Sched.Loop := {| Sched.tasks := []; Sched.world := world |}.

(** Two calls of [healApp] for the shop, one after the other. *)
Definition twice : list Sched.Move := [Sched.CallHeal shop; Sched.CallHeal shop].

(** The event loop serves the two tasks in turn. *)
Definition turns (n : nat) : list Sched.Move :=
  concat (replicate n [Sched.Complete 0; Sched.Complete 1]).

(** The console lines that report a backup. *)
Definition reports_backup (line : LogLine) : bool :=
  match line with Log _ msg => starts_with "Created backup: " msg end.

End Attempt.

(* ===================================================================== *)
(** ** The rest of the three classes *)
(* ===================================================================== *)

(** src/healing/healing-system.ts: alerts *)
Module HealingRest.
Import Fs Types Async Healing.

Inductive AlertType := al_error | al_performance | al_security | al_availability.

Record Alert := {
  alert_id : string;
  alert_type : AlertType;
  alert_severity : Severity;
  alert_message : string;
  alert_app_id : string;
  alert_timestamp : N;
  alert_resolved : bool
}.

Definition show_alert_type (t : AlertType) : string :=
  match t with
  | al_error => "error" | al_performance => "performance"
  | al_security => "security" | al_availability => "availability"
  end.

Definition handleErrorAlert (app : GeneratedApp) (alert : Alert) : R unit :=
  logger INFO ("Handling error alert for app: " +:+ app_name app).

Definition handlePerformanceAlert (app : GeneratedApp) (alert : Alert) : R unit :=
  logger INFO ("Handling performance alert for app: " +:+ app_name app).

Definition handleSecurityAlert (app : GeneratedApp) (alert : Alert) : R unit :=
  logger INFO ("Handling security alert for app: " +:+ app_name app).

Definition handleAvailabilityAlert (app : GeneratedApp) (alert : Alert) : R unit :=
  logger INFO ("Handling availability alert for app: " +:+ app_name app).

Definition emergencyHeal (app : GeneratedApp) (alert : Alert) : R unit :=
  logger WARN ("Emergency healing triggered for app: " +:+ app_name app +:+ " - "
                 +:+ alert_message alert) ;;
  try_catch
    (match alert_type alert with
     | al_error => handleErrorAlert app alert
     | al_performance => handlePerformanceAlert app alert
     | al_security => handleSecurityAlert app alert
     | al_availability => handleAvailabilityAlert app alert
     end)
    (λ e, logger ERROR ("Emergency healing failed for app " +:+ app_name app +:+ ":")).

End HealingRest.

(** src/deployment/deployment-manager.ts: the two queries *)
Module DeploymentRest.
Import Fs Types Async Deployment.

(** this.activeDeployments.get(deploymentId) || null *)
Definition getDeploymentStatus (deploymentId : string) : R (option DeploymentResult) :=
  get (λ w, activeDeployments w !! deploymentId).

(** deployment ? deployment.logs : [] *)
Definition getDeploymentLogs (deploymentId : string) : R (list string) :=
  deployment ← get (λ w, activeDeployments w !! deploymentId);
  mret (match deployment with Some d => logs d | None => [] end).

End DeploymentRest.

(* ===================================================================== *)
(** ** Notions used to state further properties *)
(* ===================================================================== *)

Module Notions.
Import Fs Types Async.

(** *** Path strings *)

(** A path string that the file-system calls and [path.join] read as
    [split_path] does: absolute, with no empty, dot or dot-dot segment.
    (Other strings are resolved by the calls, against the working
    directory and through their dot segments, before they are used.) *)
Definition resolved (s : string) : Prop :=
  render (split_path s) = s ∧ Forall (λ c, c ≠ "." ∧ c ≠ "..") (split_path s).

(** A path made of ordinary names only. *)
Definition plain_path (p : path) : Prop :=
  Forall (λ c, c ≠ "" ∧ c ≠ "." ∧ c ≠ "..") p.

(** A file name as a tool prints it: resolved, or resolved but for the
    leading slash -- what [path.join] appends as it stands. *)
Definition joinable (s : string) : Prop := resolved s ∨ resolved ("/" +:+ s).

(** The workspace is where [split_path] puts it: the workspace directory
    is a resolved path and the application id is made of ordinary
    names. *)
Definition rooted (config : FrameworkConfig) (app : GeneratedApp) : Prop :=
  resolved (workspaceDir config) ∧ plain_path (split_path (app_id app)).

(** The synthesizer proposes changes of resolved paths only. *)
Definition proposes_resolved (O : Oracle) : Prop :=
  ∀ t s, ai_reply O t = AiFix s → Forall (λ c, resolved (ch_file c)) (sg_changes s).

#[global] Instance resolved_dec (s : string) : Decision (resolved s).
Proof. unfold resolved. apply _. Defined.
#[global] Instance plain_path_dec (p : path) : Decision (plain_path p).
Proof. unfold plain_path. apply _. Defined.
#[global] Instance joinable_dec (s : string) : Decision (joinable s).
Proof. unfold joinable. apply _. Defined.
#[global] Instance rooted_dec config app : Decision (rooted config app).
Proof. unfold rooted. apply _. Defined.

(** *** The sweep *)

(** A change that has taken effect: the file holds the new content, or
    the path is gone. *)
Definition in_effect (c : FileChange) (f : fsys) : Prop :=
  match ch_type c with
  | ch_delete => pathExists (split_path (ch_file c)) f = false
  | _ => readFile (split_path (ch_file c)) f = inr (default "" (new_content c))
  end.

(** What a fix attempt for [e], started in [w], has done by the time it
    is over, in [w'], with the record left as [e']: the backup that could
    be taken has been taken and recorded; then either a fix was kept --
    it is applied, the record is marked, fix:applied was emitted and the
    last change of the fix is in effect on the disk -- or the record is as
    it was and nothing was emitted. *)
Definition attempted (config : FrameworkConfig) (app : GeneratedApp)
    (e : ErrorInfo) (w : World) (e' : ErrorInfo) (w' : World) : Prop :=
  (∀ b w1, exec (Healing.createBackup config app) (Healing.announce e w) = (Ok b, w1) →
           backupHistory w'
           = <[app_id app := default [] (backupHistory w !! app_id app) ++ [b]]>
               (backupHistory w))
  ∧ ((∃ fx, applied fx = true
            ∧ rollback_info fx ∈ default [] (backupHistory w' !! app_id app)
            ∧ e' = Healing.mark_error true (tested fx) e
            ∧ emitted w' = emitted w ++ [FixApplied (app_id app) fx e']
            ∧ ∀ c, last (changes fx) = Some c → in_effect c (fs w'))
     ∨ (e' = e ∧ emitted w' = emitted w)).



(** The world in which [processHealingQueue] starts on the findings of
    [healApp] called in [w]: the analyzers have run, the findings are
    queued and announced. *)
Definition queued (config : FrameworkConfig) (O : Oracle) (app : GeneratedApp)
    (w : World) : World :=
  let errors := Healing.found config O app w in
  set_console
    (λ c, c ++ [Log INFO ("Processing " +:+ pretty (length errors)
                            +:+ " errors for app: " +:+ app_name app)])
    (set_healingQueue <[app_id app := errors]>
       (set_console
          (λ c, c ++ [Log INFO ("Found " +:+ pretty (length errors)
                                  +:+ " errors in app: " +:+ app_name app)])
          (exec (Healing.analyzeApp config O app) (Healing.heal_announce app w)).2)).

(** The world in which the turn of a finding comes, the findings [before]
    it swept. *)
Definition turn (config : FrameworkConfig) (O : Oracle) (app : GeneratedApp)
    (before : list ErrorInfo) (w : World) : World :=
  (exec (Healing.sweep config O app before) (queued config O app w)).2.

(** *** Health checks *)


(** *** Fixes and records *)

(** What [generateFix] hands back is a fix for this error that nothing
    has touched yet. *)
Definition fresh_for (error : ErrorInfo) (fx : Fix) : Prop :=
  error_id fx = err_id error
  ∧ fix_type fx = Healing.determineFIxType error
  ∧ applied fx = false ∧ tested fx = false
  ∧ backup_id (rollback_info fx) = ""
  ∧ rb_files (rollback_info fx) = ch_file <$> changes fx.

(** The record next to the result of [fixError]: marked when the fix was
    kept, and left alone otherwise. *)
Definition settled (error : ErrorInfo) (r : option Fix * ErrorInfo) : Prop :=
  match r.1 with
  | Some fx =>
      if applied fx
      then r.2 = Healing.mark_error true (tested fx) error
      else r.2 = error
  | None => r.2 = error
  end.

(** What the analyzers can report: a lint or type error (kind syntax,
    severity high or medium) or an audit finding (kind security,
    severity critical, high or medium), not yet attempted. *)
Definition reportable (e : ErrorInfo) : Prop :=
  (err_type e = syntax ∧ (severity e = high ∨ severity e = medium)
   ∨ err_type e = security ∧ severity e ≠ low)
  ∧ fix_attempted e = false ∧ fix_successful e = false.

(** The record made of a diagnostic of the type checker. *)
Definition reports (directory : path) (d : TscDiagnostic) (e : ErrorInfo) : Prop :=
  err_file e = render (directory ++ split_path (d_file d))
  ∧ err_line e = d_line d
  ∧ err_message e = d_code d +:+ ": " +:+ d_message d
  ∧ err_type e = syntax ∧ severity e = high.

(** The diagnostics in what the type checker printed: the lines of a
    non-empty standard error that match, when it exited with an error. *)
Definition diagnostics (O : Oracle) (out : ExecOutcome) : list TscDiagnostic :=
  match out with
  | ExitErr _ _ (String c se) =>
      omap (match_tsc O) (split_on Healing.newline (String c se) "")
  | _ => []
  end.

(** *** Test suites *)

(** The type and the name each [run...Tests] method gives its suite. *)
Definition suite_type (c : Testing.Category) : SuiteType :=
  match c with
  | Testing.Unit => t_unit
  | Testing.Integration => t_integration
  | Testing.E2E => t_e2e
  | Testing.Performance => t_performance
  | Testing.Accessibility => t_security
  | Testing.Visual => t_e2e
  end.

Definition suite_name (c : Testing.Category) : string :=
  match c with
  | Testing.Unit => "Unit Tests"
  | Testing.Integration => "Integration Tests"
  | Testing.E2E => "End-to-End Tests"
  | Testing.Performance => "Performance Tests"
  | Testing.Accessibility => "Accessibility Tests"
  | Testing.Visual => "Visual Regression Tests"
  end.

Definition finished_suite (s : TestSuite) : Prop :=
  status s = s_passed ∨ status s = s_failed.

Definition labelled (c : Testing.Category) (s : TestSuite) : Prop :=
  (ts_type s, ts_name s) = (suite_type c, suite_name c) ∧ finished_suite s.

(** The case [runJestTests] makes of an assertion of the Jest report ... *)
Definition renders (a : Assertion) (t : TestCase) : Prop :=
  tc_name t = a_title a
  ∧ tc_description t = a_fullName a
  ∧ tc_status t = (if decide (a_status a = "passed") then c_passed else c_failed)
  ∧ tc_duration t = default 0%N (a_duration a).

(** ... and the case it makes of a run it could not read. *)
Definition jest_failure (suiteName : string) (t : TestCase) : Prop :=
  tc_name t = suiteName
  ∧ tc_description t = "Jest test execution failed"
  ∧ tc_status t = c_failed
  ∧ tc_duration t = 0%N
  ∧ is_Some (tc_error t).

(** A path that a computation cannot make disappear. *)
Definition lasting (q : path) {A} (m : R A) : Prop :=
  ∀ w, pathExists q (fs w) = true → pathExists q (fs (exec m w).2) = true.

(** *** Deployments *)

(** What identifies a deployment, from the call on. *)
Definition identity (d : DeploymentResult) : string * string * Environment * N :=
  (dep_id d, dep_app_id d, environment d, dep_timestamp d).

(** Where [deploy] looks for the application, and for its smoke test. *)
Definition deployed_dir (config : FrameworkConfig) (app : GeneratedApp) : path :=
  join [workspaceDir config; "apps"; app_id app].

Definition smoke_test_script (config : FrameworkConfig) (app : GeneratedApp) : path :=
  deployed_dir config app ++ ["scripts"; "smoke-test.js"].

(** A deployment that [deploy] is done with. *)
Definition concluded (d : DeploymentResult) : Prop :=
  dep_status d = d_success ∨ dep_status d = d_failed ∨ dep_status d = d_rolled_back.

End Notions.

(* ===================================================================== *)
(** ** More of the workspace *)
(* ===================================================================== *)

Module Cases.
Import Fs Types Async Scenario Attempt.

(** An application that was never generated: it has no directory. *)
Definition ghost : GeneratedApp :=
  {| app_id := "a2"; app_name := "ghost"; uiComponents := []; apiEndpoints := [];
     spec_database := false; spec_authentication := false;
     frontend_is_react := true; backend_framework := false |}.

(** The shop with a component and an endpoint to test. *)
Definition storefront : GeneratedApp :=
  {| app_id := "a1"; app_name := "shop"; uiComponents := ["Cart"];
     apiEndpoints := ["/api/items"];
     spec_database := false; spec_authentication := false;
     frontend_is_react := true; backend_framework := false |}.

Definition fresh_file : FileChange :=
  {| ch_file := "/ws/apps/a1/frontend/src/b.ts"; ch_type := ch_create;
     original_content := None; new_content := Some "export {}" |}.

(** An update of a file that is not there. *)
Definition lost_update : FileChange :=
  {| ch_file := "/ws/apps/a1/frontend/gone.ts"; ch_type := ch_update;
     original_content := None; new_content := Some "let z = 0" |}.

Definition botched : Fix :=
  {| fix_id := "fix-1"; error_id := "ts-1"; fix_type := fx_code;
     description := "declare x"; changes := [edit; lost_update];
     confidence := 0.75%float; tested := false; applied := false;
     rollback_info := no_backup |}.

Definition applying (fx : Fix) (w : World) : World :=
  set_console (λ l, l ++ [Log INFO ("Applying fix: " +:+ fix_id fx +:+ " - "
                                      +:+ description fx)]) w.


(** No client for the reasoning service. *)
Definition offline : FrameworkConfig :=
  {| aiProvider := local; apiKey_openai := true; apiKey_anthropic := false;
     workspaceDir := "/ws";
     rollbackThreshold := 2;
     unitTests := true; integrationTests := true; e2eTests := true;
     visualRegression := true; performanceTesting := true; accessibility := true;
     testing_autoFix := true;
     provider := docker; healthChecks := true; rollbackOnFailure := false |}.

(** Deployment to AWS, with rollback on failure. *)
Definition cloud : FrameworkConfig :=
  {| aiProvider := openai; apiKey_openai := true; apiKey_anthropic := false;
     workspaceDir := "/ws";
     rollbackThreshold := 2;
     unitTests := true; integrationTests := true; e2eTests := true;
     visualRegression := true; performanceTesting := true; accessibility := true;
     testing_autoFix := true;
     provider := aws; healthChecks := true; rollbackOnFailure := true |}.

(** Every script run by node fails. *)
Definition failing_script : Oracle :=
  {| run_cmd := λ _ cmd _,
       if starts_with "node " cmd then ExitErr "Command failed: node" "" "boom"
       else Exit0 "[]" "";
     http_get := http_get responsive;
     ai_reply := ai_reply responsive;
     launch_browser := launch_browser responsive;
     latency := latency responsive;
     random := random responsive;
     process_env := process_env responsive;
     find_url := find_url responsive;
     find_website_url := find_website_url responsive;
     parse_eslint := parse_eslint responsive;
     parse_audit := parse_audit responsive;
     parse_jest := parse_jest responsive;
     match_tsc := match_tsc responsive |}.

Definition smoke_script : path := ["ws"; "apps"; "a1"; "scripts"; "smoke-test.js"].

(** A deployment to staging is under way and the shop has a smoke test. *)
Definition probing : World :=
  set_activeDeployments
    (insert "d1" (Deployment.new_deployment "d1" shop staging 1000))
    (set_fs (insert smoke_script (File "process.exit(1)")) world).

(** The deployment of the shop when the application answers. *)
Definition launched : DeploymentResult :=
  Eval vm_compute in
    returned no_deployment
      (exec (Deployment.deploy config responsive shop development) world).1.

(** The synthesizer answers the first request and has no fix after
    that. *)
Definition fickle : Oracle :=
  {| run_cmd := run_cmd helpful;
     http_get := http_get helpful;
     ai_reply := λ t, if (t <? 10)%nat then suggestion [edit] else AiFalsy;
     launch_browser := launch_browser helpful;
     latency := latency helpful;
     random := random helpful;
     process_env := process_env helpful;
     find_url := find_url helpful;
     find_website_url := find_website_url helpful;
     parse_eslint := parse_eslint helpful;
     parse_audit := parse_audit helpful;
     parse_jest := parse_jest helpful;
     match_tsc := match_tsc helpful |}.

(** With both sub-projects on the disk the type checker reports an error
    in each. *)
Definition findings : list ErrorInfo :=
  Eval vm_compute in Healing.found config fickle shop staged.

Definition first_finding : ErrorInfo :=
  Eval vm_compute in default missing_name (findings !! 0%nat).

Definition second_finding : ErrorInfo :=
  Eval vm_compute in default missing_name (findings !! 1%nat).

(** The backup of the attempt on the second finding. *)
Definition second_backup : RollbackInfo :=
  Eval vm_compute in
    returned no_backup
      (exec (Healing.createBackup config shop)
            (Healing.announce second_finding
               (Notions.turn config fickle shop [first_finding] staged))).1.

(** A deployment of the shop to production under way, its URL known. *)
Definition in_production : DeploymentResult :=
  Deployment.with_url local_url (Deployment.new_deployment "d1" shop production 1000).

Definition checking : World :=
  set_activeDeployments (insert "d1" in_production) world.

End Cases.

(* ===================================================================== *)
(** * Properties *)
(* ===================================================================== *)

(** ** The file system *)

Module FsFacts.
Import Fs.

Lemma strip_app (d r : path) : strip d (d ++ r) = Some r.
Proof. induction d as [|x d IH]; simpl; [done|]. by rewrite decide_True. Qed.

Lemma strip_Some (d p r : path) : strip d p = Some r ↔ p = d ++ r.
Proof.
  split; [|intros ->; apply strip_app].
  revert p. induction d as [|x d IH]; intros p; simpl.
  - by intros [= ->].
  - destruct p as [|y p]; [done|]. case_decide; [|done]. subst.
    intros H. by rewrite (IH _ H).
Qed.

Lemma inside_prefix (d p : path) : inside d p = true ↔ d `prefix_of` p.
Proof.
  unfold inside. destruct (strip d p) as [r|] eqn:E.
  - apply strip_Some in E. split; [|done]. intros _. by exists r.
  - split; [done|]. intros [r ->]. by rewrite strip_app in E.
Qed.

Lemma inside_false (d p : path) : inside d p = false ↔ strip d p = None.
Proof. unfold inside. destruct (strip d p); naive_solver. Qed.

Lemma elem_of_prefixes (q p : path) : q ∈ prefixes p ↔ q `prefix_of` p.
Proof.
  revert q. induction p as [|x p IH]; intros q; simpl.
  - rewrite list_elem_of_singleton. split.
    + intros ->. done.
    + intros H. by apply prefix_nil_inv in H.
  - rewrite elem_of_cons, list_elem_of_fmap. split.
    + intros [->|(q'&->&Hq)]; [apply prefix_nil|]. apply prefix_cons, IH, Hq.
    + destruct q as [|y q]; [by left|]. intros H. right.
      pose proof (prefix_cons_inv_1 _ _ _ _ H) as ->.
      exists q. split; [done|]. apply IH. by apply prefix_cons_inv_2 in H.
Qed.

Lemma dirname_prefix (p : path) : dirname p `prefix_of` p.
Proof.
  unfold dirname. destruct (decide (p = [])) as [->|Hne]; [done|].
  exists [List.last p ""]. by apply app_removelast_last.
Qed.

Lemma NoDup_rekey (d : path) (l : list (path * node)) :
  NoDup l.*1 → NoDup (omap (rekey d) l).*1.
Proof.
  induction l as [|[p n] l IH]; simpl; [constructor|].
  rewrite NoDup_cons. intros [Hp Hl]. unfold rekey at 1. simpl.
  destruct (strip d p) as [r|] eqn:E; simpl; [|by apply IH].
  constructor; [|by apply IH].
  intros Hin. apply Hp. apply list_elem_of_fmap in Hin as ([r' n'] & Hr & Hin).
  simpl in Hr. subst r'. apply list_elem_of_omap in Hin as ([p' n''] & Hin & Hk).
  unfold rekey in Hk. simpl in Hk. destruct (strip d p') as [r''|] eqn:E'; [|done].
  simpl in Hk. injection Hk as -> ->.
  apply strip_Some in E, E'. subst. apply list_elem_of_fmap. by exists (d ++ r, n').
Qed.

Lemma lookup_subtree (d : path) (fs : fsys) (r : path) : subtree d fs !! r = fs !! (d ++ r).
Proof.
  apply option_eq. intros n. unfold subtree.
  rewrite <- elem_of_list_to_map by apply NoDup_rekey, NoDup_fst_map_to_list.
  rewrite list_elem_of_omap. split.
  - intros ([p n'] & Hin & Hk). unfold rekey in Hk. simpl in Hk.
    destruct (strip d p) as [r'|] eqn:E; [|done]. simpl in Hk. injection Hk as -> ->.
    apply strip_Some in E. subst. by apply elem_of_map_to_list.
  - intros H. exists (d ++ r, n). split; [by apply elem_of_map_to_list|].
    unfold rekey. simpl. by rewrite strip_app.
Qed.

Lemma lookup_remove (p : path) (fs : fsys) (q : path) :
  remove p fs !! q = if inside p q then None else fs !! q.
Proof.
  unfold remove, inside. apply option_eq. intros n.
  rewrite map_lookup_filter_Some. simpl.
  destruct (strip p q); [split; [intros [_ ?]|]; done|tauto].
Qed.

Lemma lookup_dirs (l : list path) (q : path) :
  (list_to_map ((λ q, (q, Dir)) <$> l) : fsys) !! q
  = if decide (q ∈ l) then Some Dir else None.
Proof.
  case_decide as H.
  - apply elem_of_list_to_map_1'.
    + intros y Hy. apply list_elem_of_fmap in Hy as (?&[= <- <-]&?). done.
    + apply list_elem_of_fmap. by exists q.
  - apply not_elem_of_list_to_map_1. rewrite <- list_fmap_compose.
    intros Hin. apply list_elem_of_fmap in Hin as (?&->&?). done.
Qed.

Lemma lookup_mkdirp (p : path) (fs : fsys) (q : path) :
  mkdirp p fs !! q
  = match fs !! q with
    | Some n => Some n
    | None => if inside q p then Some Dir else None
    end.
Proof.
  unfold mkdirp. rewrite lookup_union, lookup_dirs.
  destruct (fs !! q) as [n|] eqn:E; simpl.
  - by destruct (decide _).
  - case_decide as H.
    + apply elem_of_prefixes, inside_prefix in H. by rewrite H.
    + destruct (inside q p) eqn:E'; [|done].
      apply inside_prefix, elem_of_prefixes in E'. done.
Qed.

Lemma lookup_copy_onto (src dst : path) (fs : fsys) (q : path) :
  copy_onto src dst None fs !! q
  = match strip dst q with
    | Some r =>
        match fs !! (src ++ r) with
        | Some n => Some n
        | None => mkdirp (dirname dst) fs !! q
        end
    | None => mkdirp (dirname dst) fs !! q
    end.
Proof.
  unfold copy_onto, copy_entries. rewrite list_to_map_to_list, lookup_union.
  destruct (strip dst q) as [r|] eqn:E.
  - apply strip_Some in E. subst q.
    rewrite (lookup_kmap (λ r, dst ++ r)), lookup_subtree.
    by destruct (fs !! (src ++ r)), (mkdirp (dirname dst) fs !! (dst ++ r)).
  - assert (kmap (λ r, dst ++ r) (subtree src fs) !! q = None) as ->.
    { apply lookup_kmap_None; [apply _|]. intros r ->. by rewrite strip_app in E. }
    by destruct (mkdirp (dirname dst) fs !! q).
Qed.

(** Paths that part ways at some component are unrelated, and stay so
    however they are extended. *)
Lemma related_diverge (W a b : path) (x y : string) :
  x ≠ y → related (W ++ x :: a) (W ++ y :: b) = false.
Proof.
  intros Hne. unfold related. apply orb_false_intro.
  - apply not_true_is_false. rewrite inside_prefix. intros H.
    apply prefix_app_inv in H. by apply prefix_cons_inv_1 in H.
  - apply not_true_is_false. rewrite inside_prefix. intros H.
    apply prefix_app_inv in H. by apply prefix_cons_inv_1 in H.
Qed.

Lemma related_false (p q : path) :
  related p q = false ↔ ¬ p `prefix_of` q ∧ ¬ q `prefix_of` p.
Proof.
  unfold related. rewrite orb_false_iff, <- !not_true_iff_false, !inside_prefix. done.
Qed.

Lemma related_extend (p q r r' : path) :
  related p q = false → related (p ++ r) (q ++ r') = false.
Proof.
  rewrite !related_false. intros [H1 H2]. split; intros H.
  - destruct (prefix_weak_total p q (q ++ r')) as [?|?]; [|by apply prefix_app_r|done..].
    etrans; [|exact H]. by apply prefix_app_r.
  - destruct (prefix_weak_total p q (p ++ r)) as [?|?]; [by apply prefix_app_r| |done..].
    etrans; [|exact H]. by apply prefix_app_r.
Qed.

Lemma related_sym (p q : path) : related p q = related q p.
Proof. unfold related. apply orb_comm. Qed.

(** An operation at [f] leaves alone whatever lies at or below a
    directory [B] unrelated to [f]. *)
Lemma unrelated_not_inside (f B r : path) :
  related f B = false → inside f (B ++ r) = false.
Proof.
  intros H. apply (related_extend _ _ [] r) in H. rewrite app_nil_r in H.
  unfold related in H. by apply orb_false_elim in H as [? _].
Qed.

Lemma unrelated_not_above (f B r : path) :
  related f B = false → inside (B ++ r) (dirname f) = false.
Proof.
  intros H. apply not_true_is_false. rewrite inside_prefix. intros Hp.
  apply related_false in H as [_ H]. apply H.
  etrans; [by apply prefix_app_r|]. etrans; [exact Hp|]. apply dirname_prefix.
Qed.

Lemma unrelated_ne (f B r : path) : related f B = false → f ≠ B ++ r.
Proof.
  intros H ->. apply related_false in H as [_ H]. apply H. by apply prefix_app_r.
Qed.

End FsFacts.

(** ** Computations *)

Module AsyncFacts.
Import Fs Types Async.

Lemma exec_on_result {A B} (m : R A) (f : Result A → R B) (w : World) :
  exec (on_result m f) w = exec (f (exec m w).1) (exec m w).2.
Proof. revert w. induction m as [a|e|b u k IH]; intros w; simpl; [done..|apply IH]. Qed.

Lemma exec_bind {A B} (m : R A) (f : A → R B) (w : World) :
  exec (m ≫= f) w
  = match (exec m w).1 with
    | Ok a => exec (f a) (exec m w).2
    | Thrown e => (Thrown e, (exec m w).2)
    end.
Proof.
  unfold mbind, R_bind, bind. rewrite exec_on_result.
  by destruct (exec m w).1.
Qed.

Lemma exec_try_catch {A} (m : R A) (h : Exn → R A) (w : World) :
  exec (try_catch m h) w
  = match (exec m w).1 with
    | Ok a => (Ok a, (exec m w).2)
    | Thrown e => exec (h e) (exec m w).2
    end.
Proof.
  unfold try_catch. rewrite exec_on_result. by destruct (exec m w).1.
Qed.

Lemma exec_eq {A} (m : R A) (w : World) : exec m w = ((exec m w).1, (exec m w).2).
Proof. by destruct (exec m w). Qed.

(** *** Frame properties: what a computation leaves as it was *)

Definition stable {X A} (f : World → X) (m : R A) : Prop :=
  ∀ w, f (exec m w).2 = f w.

Section Stable.
Context {X : Type} (f : World → X).

Lemma stable_Ret {A} (a : A) : stable f (Ret a).
Proof. by intros w. Qed.

Lemma stable_Throw {A} (e : Exn) : stable f (@Throw A e).
Proof. by intros w. Qed.

Lemma stable_Act {A} (b : bool) (u : World → World) (k : World → R A) :
  (∀ w, f (u w) = f w) → (∀ w, stable f (k w)) → stable f (Act b u k).
Proof. intros Hu Hk w. simpl. by rewrite Hk, Hu. Qed.

Lemma stable_on_result {A B} (m : R A) (g : Result A → R B) :
  stable f m → (∀ r, stable f (g r)) → stable f (on_result m g).
Proof. intros Hm Hg w. by rewrite exec_on_result, Hg, Hm. Qed.

Lemma stable_bind {A B} (m : R A) (g : A → R B) :
  stable f m → (∀ a, stable f (g a)) → stable f (m ≫= g).
Proof.
  intros Hm Hg. apply stable_on_result; [done|].
  intros [a|e]; [apply Hg|apply stable_Throw].
Qed.

Lemma stable_try_catch {A} (m : R A) (h : Exn → R A) :
  stable f m → (∀ e, stable f (h e)) → stable f (try_catch m h).
Proof.
  intros Hm Hh. apply stable_on_result; [done|].
  intros [a|e]; [apply stable_Ret|apply Hh].
Qed.

Lemma stable_for_each {A} (l : list A) (body : A → R unit) :
  (∀ x, stable f (body x)) → stable f (for_each l body).
Proof.
  intros Hb. induction l as [|x l IH]; simpl; [apply stable_Ret|].
  apply stable_bind; [apply Hb|done].
Qed.

Lemma stable_mapM {A B} (g : A → R B) (l : list A) :
  (∀ x, stable f (g x)) → stable f (mapM g l).
Proof.
  intros Hg. induction l as [|x l IH]; simpl; [apply stable_Ret|].
  apply stable_bind; [apply Hg|]. intros y.
  apply stable_bind; [apply IH|]. intros ys. apply stable_Ret.
Qed.

Lemma stable_collect {A} (steps : list (R (list A))) (h : Exn → R unit) (acc : list A) :
  Forall (stable f) steps → (∀ e, stable f (h e)) → stable f (collect steps h acc).
Proof.
  intros Hs Hh. revert acc. induction Hs as [|s steps Hs _ IH]; intros acc; simpl.
  - apply stable_Ret.
  - apply stable_on_result; [done|]. intros [xs|e]; [apply IH|].
    apply stable_bind; [apply Hh|]. intros _. apply stable_Ret.
Qed.

Lemma stable_attempt {S} (steps : list (S → R S)) (h : Exn → S → R S) (s : S) :
  Forall (λ st, ∀ s, stable f (st s)) steps → (∀ e s, stable f (h e s)) →
  stable f (attempt steps h s).
Proof.
  intros Hs Hh. revert s. induction Hs as [|st steps Hst _ IH]; intros s; simpl.
  - apply stable_Ret.
  - apply stable_on_result; [apply Hst|]. intros [s'|e]; [apply IH|apply Hh].
Qed.

End Stable.

(** *** Postconditions: what a computation can return *)

Definition ensures {A} (P : A → Prop) (m : R A) : Prop :=
  ∀ w a, (exec m w).1 = Ok a → P a.

Lemma ensures_Ret {A} (P : A → Prop) (a : A) : P a → ensures P (Ret a).
Proof. intros H w a' [= <-]. done. Qed.

Lemma ensures_Throw {A} (P : A → Prop) (e : Exn) : ensures P (Throw e).
Proof. intros w a' [=]. Qed.

Lemma ensures_Act {A} (P : A → Prop) (b : bool) (u : World → World) (k : World → R A) :
  (∀ w, ensures P (k w)) → ensures P (Act b u k).
Proof. intros Hk w a. simpl. apply Hk. Qed.

Lemma ensures_on_result {A B} (Q : A → Prop) (P : B → Prop)
    (m : R A) (g : Result A → R B) :
  ensures Q m → (∀ a, Q a → ensures P (g (Ok a))) → (∀ e, ensures P (g (Thrown e))) →
  ensures P (on_result m g).
Proof.
  intros Hm Hok Hth w b. rewrite exec_on_result.
  destruct (exec m w).1 eqn:E; [apply Hok; eapply Hm, E|apply Hth].
Qed.

Lemma ensures_bind {A B} (Q : A → Prop) (P : B → Prop) (m : R A) (g : A → R B) :
  ensures Q m → (∀ a, Q a → ensures P (g a)) → ensures P (m ≫= g).
Proof.
  intros Hm Hg. eapply ensures_on_result; [exact Hm|exact Hg|].
  intros e. apply ensures_Throw.
Qed.

Lemma ensures_True {A} (m : R A) : ensures (λ _, True) m.
Proof. by intros w a _. Qed.

Lemma ensures_mapM {A B} (P : B → Prop) (g : A → R B) (l : list A) :
  (∀ x, ensures P (g x)) → ensures (Forall P) (mapM g l).
Proof.
  intros Hg. induction l as [|x l IH]; simpl; [by apply ensures_Ret|].
  eapply ensures_bind; [apply Hg|]. intros y Hy.
  eapply ensures_bind; [apply IH|]. intros ys Hys. apply ensures_Ret. by constructor.
Qed.

Lemma ensures_collect {A} (P : A → Prop) (steps : list (R (list A)))
    (h : Exn → R unit) (acc : list A) :
  Forall (ensures (Forall P)) steps → Forall P acc →
  ensures (Forall P) (collect steps h acc).
Proof.
  intros Hs. revert acc. induction Hs as [|s steps Hs _ IH]; intros acc Hacc; simpl.
  - by apply ensures_Ret.
  - eapply ensures_on_result; [exact Hs| |].
    + intros xs Hxs. apply IH. by apply Forall_app.
    + intros e. eapply ensures_bind; [apply ensures_True|].
      intros _ _. by apply ensures_Ret.
Qed.

(** *** Computations that cannot throw *)

Definition total {A} (m : R A) : Prop := ∀ w, ∃ a, (exec m w).1 = Ok a.

Lemma total_Ret {A} (a : A) : total (Ret a).
Proof. intros w. by exists a. Qed.

Lemma total_Act {A} (b : bool) (u : World → World) (k : World → R A) :
  (∀ w, total (k w)) → total (Act b u k).
Proof. intros Hk w. simpl. apply Hk. Qed.

Lemma total_bind {A B} (m : R A) (g : A → R B) :
  total m → (∀ a, total (g a)) → total (m ≫= g).
Proof.
  intros Hm Hg w. rewrite exec_bind. destruct (Hm w) as [a ->]. apply Hg.
Qed.

Lemma total_try_catch {A} (m : R A) (h : Exn → R A) :
  (∀ e, total (h e)) → total (try_catch m h).
Proof.
  intros Hh w. rewrite exec_try_catch.
  destruct (exec m w).1 as [a|e]; [by exists a|apply Hh].
Qed.

Lemma total_collect {A} (steps : list (R (list A))) (h : Exn → R unit) (acc : list A) :
  (∀ e, total (h e)) → total (collect steps h acc).
Proof.
  intros Hh. revert acc. induction steps as [|s steps IH]; intros acc w; simpl.
  - by exists acc.
  - rewrite exec_on_result. destruct (exec s w).1 as [xs|e]; [apply IH|].
    apply total_bind; [apply Hh|]. intros _. apply total_Ret.
Qed.

End AsyncFacts.

(** ** The healing loop *)

Module HealingFacts.
Import Fs Types Async Healing FsFacts AsyncFacts.

Ltac crank_in H :=
  cbn [exec on_result mbind R_bind bind try_catch Date_now get modify logger emit
       fs_ensureDir fs_copy fs_remove fs_pathExists fs_writeFile fs_readFile
       disk_write disk_read disk_try_read disk_result mret R_ret fst snd
       fs clock tick disk_budget console emitted healingQueue backupHistory
       activeDeployments browser set_fs set_clock set_tick set_disk_budget
       set_console set_emitted set_healingQueue set_backupHistory
       set_activeDeployments set_browser] in H.

Ltac crank :=
  cbn [exec on_result mbind R_bind bind try_catch Date_now get modify logger emit
       fs_ensureDir fs_copy fs_remove fs_pathExists fs_writeFile fs_readFile
       disk_write disk_read disk_try_read disk_result mret R_ret fst snd
       fs clock tick disk_budget console emitted healingQueue backupHistory
       activeDeployments browser set_fs set_clock set_tick set_disk_budget
       set_console set_emitted set_healingQueue set_backupHistory
       set_activeDeployments set_browser].

Ltac expose :=
  unfold execAsync, logger, emit, Date_now, Math_random, sleep,
    fs_ensureDir, fs_copy, fs_remove, fs_pathExists, fs_writeFile, fs_readFile;
  unfold request, get, modify, disk_write, disk_read, disk_try_read, disk_result,
    try_catch, try_finally, mbind, R_bind, bind, mret, R_ret.

Ltac stable_auto :=
  repeat match goal with
  | |- stable _ (Ret _) => apply stable_Ret
  | |- stable _ (Throw _) => apply stable_Throw
  | |- stable _ (on_result _ _) => apply stable_on_result
  | |- stable _ (Act _ _ _) => apply stable_Act
  | |- stable _ (for_each _ _) => apply stable_for_each
  | |- stable _ (mapM _ _) => apply stable_mapM
  | |- stable _ (collect _ _ _) => apply stable_collect
  | |- stable _ (attempt _ _ _) => apply stable_attempt
  | |- stable _ (copy_outcome _ _ _) => unfold copy_outcome
  | |- stable _ (match ?x with _ => _ end) => destruct x
  | |- Forall _ (_ :: _) => constructor
  | |- Forall _ [] => constructor
  | |- Forall _ (_ ++ _) => apply Forall_app; split
  | |- ∀ _, _ => intro
  | |- _ = _ => reflexivity
  end.

Ltac expose_analysis :=
  unfold analyzeApp, runStaticAnalysis, analyzeSecurityIssues, runSecurityAudit,
    checkTypeScript, in_subprojects, analyzeRuntimeErrors, analyzePerformance,
    runESLint, auditDirectory, runTypeScriptCheck, eslint_errors, eslint_error,
    audit_error, tsc_error, stamp.

Ltac expose_fixing :=
  unfold fixError, createBackup, walk, generateFix, prepareErrorContext, callAIForFix,
    stamp, applyFix, applyFileChange, testFix, runQuickLint, runQuickTypeCheck,
    runQuickTests, quick_gate, rollback.

Section Facts.
Variable config : FrameworkConfig.
Variable O : Oracle.

Abbreviation A app := (appDir config app).
Abbreviation B app id := (backupDir config app id).

(** *** Where the trees are *)

Lemma appDir_backupDir (app : GeneratedApp) (id : string) :
  related (A app) (B app id) = false.
Proof.
  unfold appDir, backupDir, join. simpl.
  change (split_path "apps") with ["apps"].
  change (split_path "backups") with ["backups"].
  simpl. apply related_diverge. discriminate.
Qed.

Lemma appDir_not_root (app : GeneratedApp) (r : path) :
  inside (A app ++ r) (dirname (A app)) = false.
Proof.
  apply not_true_is_false. rewrite inside_prefix. intros H.
  apply prefix_length in H. pose proof (dirname_prefix (A app)) as [k Hk].
  assert (A app ≠ []) as Hne.
  { unfold appDir, join. simpl. change (split_path "apps") with ["apps"].
    intros Hnil. apply app_eq_nil in Hnil as [_ Hnil]. discriminate. }
  unfold dirname in *. rewrite length_app in H.
  pose proof (app_removelast_last "" Hne) as Hl.
  apply (f_equal length) in Hl. rewrite length_app in Hl. simpl in Hl. lia.
Qed.

(** The backup holds the tree; taking it leaves the tree as it was. *)
Lemma backup_captures (app : GeneratedApp) (id : string) (fs0 : fsys) (r : path) :
  pathExists (A app) fs0 = true →
  (∀ r, fs0 !! (B app id ++ r) = None) →
  copy_onto (A app) (B app id) None (mkdirp (B app id) fs0) !! (B app id ++ r)
  = fs0 !! (A app ++ r).
Proof.
  intros Hex Hfresh. pose proof (appDir_backupDir app id) as Hrel.
  rewrite lookup_copy_onto, strip_app, !lookup_mkdirp, Hfresh.
  assert (inside (A app ++ r) (B app id) = false) as ->.
  { apply (related_extend _ _ r []) in Hrel. rewrite app_nil_r in Hrel.
    unfold related in Hrel. by apply orb_false_elim in Hrel as [? _]. }
  destruct (fs0 !! (A app ++ r)) as [n|] eqn:E; [done|].
  destruct r as [|x r].
  - rewrite app_nil_r in E. unfold pathExists in Hex. by rewrite E in Hex.
  - assert (inside (B app id ++ x :: r) (B app id) = false) as ->.
    { apply not_true_is_false. rewrite inside_prefix. intros H.
      apply prefix_length in H. rewrite length_app in H. simpl in H. lia. }
    assert (inside (B app id ++ x :: r) (dirname (B app id)) = false) as ->; [|done].
    apply not_true_is_false. rewrite inside_prefix. intros H.
    apply prefix_length in H. pose proof (dirname_prefix (B app id)) as Hp.
    apply prefix_length in Hp. rewrite length_app in H. simpl in H. lia.
Qed.

Lemma backup_exists (app : GeneratedApp) (id : string) (fs0 : fsys) :
  pathExists (A app) fs0 = true →
  pathExists (B app id) (copy_onto (A app) (B app id) None (mkdirp (B app id) fs0))
  = true.
Proof.
  intros Hex. unfold pathExists in *. rewrite lookup_copy_onto.
  pose proof (strip_app (B app id) []) as Hs. rewrite app_nil_r in Hs.
  rewrite Hs, app_nil_r, lookup_mkdirp. by destruct (fs0 !! A app).
Qed.

Lemma backup_keeps_tree (app : GeneratedApp) (id : string) (fs0 : fsys) (r : path) :
  copy_onto (A app) (B app id) None (mkdirp (B app id) fs0) !! (A app ++ r)
  = fs0 !! (A app ++ r).
Proof.
  pose proof (appDir_backupDir app id) as Hrel.
  assert (inside (A app ++ r) (B app id) = false) as Hin.
  { apply (related_extend _ _ r []) in Hrel. rewrite app_nil_r in Hrel.
    unfold related in Hrel. by apply orb_false_elim in Hrel as [? _]. }
  rewrite lookup_copy_onto.
  assert (strip (B app id) (A app ++ r) = None) as ->.
  { apply inside_false. rewrite related_sym in Hrel.
    by apply unrelated_not_inside. }
  rewrite !lookup_mkdirp, Hin.
  destruct (fs0 !! (A app ++ r)); [done|].
  assert (inside (A app ++ r) (dirname (B app id)) = false) as ->; [|done].
  apply not_true_is_false. rewrite inside_prefix. intros H.
  apply not_true_iff_false in Hin. apply Hin. rewrite inside_prefix.
  etrans; [exact H|apply dirname_prefix].
Qed.

(** Restoring puts the backup in the place of the tree. *)
Lemma restore_installs (app : GeneratedApp) (id : string) (fs0 : fsys) (r : path) :
  copy_onto (B app id) (A app) None (remove (A app) fs0) !! (A app ++ r)
  = fs0 !! (B app id ++ r).
Proof.
  pose proof (appDir_backupDir app id) as Hrel.
  rewrite lookup_copy_onto, strip_app, lookup_mkdirp, !lookup_remove.
  rewrite (unrelated_not_inside _ _ r Hrel).
  unfold inside at 1. rewrite strip_app.
  destruct (fs0 !! (B app id ++ r)); [done|].
  by rewrite appDir_not_root.
Qed.

Lemma subtree_eq (d d' : path) (fs1 fs2 : fsys) :
  (∀ r, fs1 !! (d ++ r) = fs2 !! (d' ++ r)) → subtree d fs1 = subtree d' fs2.
Proof. intros H. apply map_eq. intros r. by rewrite !lookup_subtree. Qed.

Lemma exists_after_remove (app : GeneratedApp) (id : string) (fs0 : fsys) :
  pathExists (B app id) (remove (A app) fs0) = pathExists (B app id) fs0.
Proof.
  unfold pathExists. rewrite lookup_remove.
  pose proof (unrelated_not_inside _ _ [] (appDir_backupDir app id)) as H.
  rewrite app_nil_r in H. by rewrite H.
Qed.

(** *** The steps of an attempt *)

Lemma createBackup_spec (app : GeneratedApp) (w w1 : World) (b : RollbackInfo) :
  exec (createBackup config app) w = (Ok b, w1) →
  backup_id b = "backup-" +:+ pretty (clock w)
  ∧ pathExists (A app) (fs w) = true
  ∧ fs w1 = copy_onto (A app) (B app (backup_id b)) None
                      (mkdirp (B app (backup_id b)) (fs w))
  ∧ disk_budget w1 = match disk_budget w with
                     | None => None
                     | Some n => Some (n - copy_size (A app) (mkdirp (B app (backup_id b)) (fs w)))
                     end
  ∧ backupHistory w1
    = <[app_id app := default [] (backupHistory w !! app_id app) ++ [b]]>
        (backupHistory w).
Proof.
  intros H. unfold createBackup, walk in H. crank_in H.
  unfold ensureDir in H.
  destruct (blocked _ (fs w)) eqn:Hb; crank_in H; [done|].
  unfold copy_step, copy_outcome in H. cbn [fs set_fs disk_budget] in H.
  set (bd := B app ("backup-" +:+ pretty (clock w))) in *.
  assert (pathExists (A app) (mkdirp bd (fs w)) = pathExists (A app) (fs w)) as Hsame.
  { subst bd. unfold pathExists. rewrite lookup_mkdirp.
    destruct (fs w !! A app); [done|].
    pose proof (appDir_backupDir app ("backup-" +:+ pretty (clock w))) as Hrel.
    unfold related in Hrel. apply orb_false_elim in Hrel as [-> _]. done. }
  rewrite Hsame in H.
  destruct (pathExists (A app) (fs w)) eqn:Hex; crank_in H; [|done].
  destruct (disk_budget w) as [n|] eqn:Hd.
  - destruct (copy_size _ _ <=? n)%nat eqn:Hle; crank_in H; [|done].
    cbn [fs set_fs set_disk_budget] in H.
    destruct (copy_onto _ _ _ _ !! A app) as [[c|]|]; crank_in H; try done.
    injection H as <- <-. done.
  - crank_in H. cbn [fs set_fs] in H.
    destruct (copy_onto _ _ _ _ !! A app) as [[c|]|]; crank_in H; try done.
    injection H as <- <-. cbn. rewrite Hd. done.
Qed.

Lemma rollback_restores (app : GeneratedApp) (b : RollbackInfo) (w : World) :
  disk_budget w = None →
  pathExists (B app (backup_id b)) (fs w) = true →
  ∃ w', exec (rollback config app b) w = (Ok tt, w')
        ∧ fs w' = copy_onto (B app (backup_id b)) (A app) None (remove (A app) (fs w))
        ∧ backupHistory w' = backupHistory w
        ∧ healingQueue w' = healingQueue w.
Proof.
  intros Hd Hex. unfold rollback. crank. rewrite Hex. crank.
  unfold copy_step, copy_outcome. cbn [fs set_fs set_console disk_budget].
  rewrite exists_after_remove, Hex, Hd. crank. eauto.
Qed.


(** *** What the steps leave alone *)

Lemma generateFix_fs app error : stable fs (generateFix config O app error).
Proof. expose_fixing. expose. stable_auto. Qed.

Lemma generateFix_disk_budget app error :
  stable disk_budget (generateFix config O app error).
Proof. expose_fixing. expose. stable_auto. Qed.

Lemma generateFix_backupHistory app error :
  stable backupHistory (generateFix config O app error).
Proof. expose_fixing. expose. stable_auto. Qed.

Lemma testFix_fs app fx : stable fs (testFix config O app fx).
Proof. expose_fixing. expose. stable_auto. Qed.

Lemma testFix_disk_budget app fx : stable disk_budget (testFix config O app fx).
Proof. expose_fixing. expose. stable_auto. Qed.

Lemma applyFix_disk_budget app fx : stable disk_budget (applyFix app fx).
Proof.
  expose_fixing. expose. stable_auto.
  all: cbn [disk_budget set_fs]; by destruct (_ : Exn + fsys).
Qed.

(** A change at a path unrelated to [d] leaves the tree at [d] alone. *)
Lemma applyFileChange_apart (d : path) (change : FileChange) :
  related (split_path (ch_file change)) d = false →
  stable (λ w, subtree d (fs w)) (applyFileChange change).
Proof.
  intros Hrel. unfold applyFileChange.
  assert (∀ fs0 c fs', writeFile (split_path (ch_file change)) c fs0 = inr fs' →
                       subtree d fs' = subtree d fs0) as Hwrite.
  { intros fs0 c fs' Hw. unfold writeFile in Hw. apply subtree_eq. intros r.
    destruct (fs0 !! dirname _) as [[?|]|]; try done.
    destruct (fs0 !! split_path _) as [[?|]|]; try done.
    all: injection Hw as <-; rewrite lookup_insert_ne;
      [done|by apply unrelated_ne]. }
  destruct (ch_type change); expose; stable_auto.
  all: cbn [fs set_fs].
  - unfold ensureDir. destruct (blocked _ _); [done|]. cbn [fs set_fs].
    apply subtree_eq. intros r. rewrite lookup_mkdirp.
    destruct (fs w !! (d ++ r)); [done|]. by rewrite unrelated_not_above.
  - destruct (writeFile _ _ _) eqn:E; [done|]. cbn [fs set_fs]. eapply Hwrite, E.
  - destruct (writeFile _ _ _) eqn:E; [done|]. cbn [fs set_fs]. eapply Hwrite, E.
  - apply subtree_eq. intros r. rewrite lookup_remove.
    by rewrite unrelated_not_inside.
Qed.

Lemma for_each_stable {X A} (f : World → X) (l : list A) (body : A → R unit) :
  Forall (λ x, stable f (body x)) l → stable f (for_each l body).
Proof.
  induction 1 as [|x l Hx _ IH]; simpl; [apply stable_Ret|].
  apply stable_bind; [done|]. intros _. exact IH.
Qed.

Lemma applyFix_apart (d : path) (app : GeneratedApp) (fx : Fix) :
  Forall (λ c, related (split_path (ch_file c)) d = false) (changes fx) →
  stable (λ w, subtree d (fs w)) (applyFix app fx).
Proof.
  intros Hc. unfold applyFix.
  apply stable_bind; [expose; stable_auto|]. intros _.
  apply stable_try_catch.
  - apply stable_bind.
    + apply for_each_stable. eapply Forall_impl; [exact Hc|].
      intros c. apply applyFileChange_apart.
    + intros _. expose. stable_auto.
  - intros e. expose. stable_auto.
Qed.

(** *** An attempt, step by step *)

Ltac next H :=
  rewrite exec_bind, H; cbn [fst snd].

Lemma fixError_without_fix (app : GeneratedApp) (error : ErrorInfo)
    (w0 w1 w2 : World) (b : RollbackInfo) :
  exec (createBackup config app) (announce error w0) = (Ok b, w1) →
  exec (generateFix config O app error) w1 = (Ok None, w2) →
  exec (fixError config O app error) w0
  = (Ok (None, error),
     set_console
       (λ c, c ++ [Log WARN ("Could not generate fix for error: " +:+ err_id error)])
       w2).
Proof.
  intros Hb Hg. unfold fixError. rewrite exec_bind. cbn [exec logger modify fst snd].
  change (set_console _ w0) with (announce error w0).
  rewrite exec_try_catch. next Hb. next Hg. reflexivity.
Qed.

Lemma fixError_rolled_back (app : GeneratedApp) (error : ErrorInfo)
    (w0 w1 w2 w3 w4 : World) (b : RollbackInfo) (fx : Fix) :
  exec (createBackup config app) (announce error w0) = (Ok b, w1) →
  exec (generateFix config O app error) w1 = (Ok (Some fx), w2) →
  exec (applyFix app fx) w2 = (Ok true, w3) →
  exec (testFix config O app fx) w3 = (Ok false, w4) →
  (0 < rollbackThreshold config)%Z →
  disk_budget w0 = None →
  (∀ r, fs w0 !! (B app ("backup-" +:+ pretty (clock w0)) ++ r) = None) →
  Forall (λ c, related (split_path (ch_file c))
                       (B app ("backup-" +:+ pretty (clock w0))) = false)
         (changes fx) →
  ∃ w5, exec (fixError config O app error) w0
        = (Ok (Some (set_applied false fx), error), w5)
        ∧ subtree (A app) (fs w5) = subtree (A app) (fs w2).
Proof.
  intros Hb Hg Ha Ht Hthr Hd Hfresh Hun.
  destruct (createBackup_spec _ _ _ _ Hb) as (Hid & Hex & Hfs1 & Hd1 & _).
  cbn [announce clock fs disk_budget set_console] in Hid, Hex, Hfs1, Hd1.
  rewrite Hd in Hd1. rewrite Hid in Hfs1.
  set (bd := B app ("backup-" +:+ pretty (clock w0))) in *.
  pose proof (generateFix_fs app error w1) as Hfs2. rewrite Hg in Hfs2.
  pose proof (generateFix_disk_budget app error w1) as Hd2. rewrite Hg in Hd2.
  pose proof (applyFix_apart bd app fx Hun w2) as Hfs3. rewrite Ha in Hfs3.
  pose proof (applyFix_disk_budget app fx w2) as Hd3. rewrite Ha in Hd3.
  pose proof (testFix_fs app fx w3) as Hfs4. rewrite Ht in Hfs4.
  pose proof (testFix_disk_budget app fx w3) as Hd4. rewrite Ht in Hd4.
  cbn [fst snd] in *.
  assert (∀ r, fs w4 !! (bd ++ r) = fs w0 !! (A app ++ r)) as Hkept.
  { intros r. rewrite Hfs4, <- lookup_subtree, Hfs3, lookup_subtree, Hfs2, Hfs1.
    by apply backup_captures. }
  set (w4' := set_console
                (λ c, c ++ [Log WARN ("Fix test failed for error: " +:+ err_id error
                                        +:+ ", rolling back")]) w4).
  destruct (rollback_restores app b w4') as (w5 & Hr & Hfs5 & _).
  { unfold w4'. cbn [disk_budget set_console]. congruence. }
  { unfold w4'. cbn [fs set_console]. rewrite Hid. fold bd. unfold pathExists.
    rewrite <- (app_nil_r bd), Hkept, app_nil_r.
    unfold pathExists in Hex. by destruct (fs w0 !! A app). }
  exists w5. split.
  - unfold fixError. rewrite exec_bind. cbn [exec logger modify fst snd].
    change (set_console _ w0) with (announce error w0).
    rewrite exec_try_catch. next Hb. next Hg. next Ha. cbn [negb].
    next Ht. cbn [negb andb].
    apply Z.ltb_lt in Hthr. rewrite Hthr.
    rewrite exec_bind. cbn [exec logger modify fst snd]. fold w4'.
    next Hr. reflexivity.
  - apply subtree_eq. intros r.
    rewrite Hfs5, Hid. unfold w4'. cbn [fs set_console].
    rewrite restore_installs. fold bd.
    rewrite Hkept, Hfs2, Hfs1. unfold bd. by rewrite backup_keeps_tree.
Qed.

(** *** The console *)

Lemma attempts_snoc (c : list LogLine) (l : LogLine) :
  attempts (c ++ [l]) = attempts c ++ (if is_attempt l then [l] else []).
Proof.
  unfold attempts. rewrite filter_app. f_equal.
  destruct (is_attempt l) eqn:E.
  - by rewrite filter_cons_True.
  - rewrite filter_cons_False; [done|]. by rewrite E.
Qed.

Lemma attempts_quiet (c : list LogLine) (l : LogLine) :
  is_attempt l = false → attempts (c ++ [l]) = attempts c.
Proof. intros H. by rewrite attempts_snoc, H, app_nil_r. Qed.

Ltac quiet_auto :=
  repeat match goal with
  | |- stable _ (Ret _) => apply stable_Ret
  | |- stable _ (Throw _) => apply stable_Throw
  | |- stable _ (on_result _ _) => apply stable_on_result
  | |- stable _ (Act _ _ _) => apply stable_Act
  | |- stable _ (for_each _ _) => apply stable_for_each
  | |- stable _ (mapM _ _) => apply stable_mapM
  | |- stable _ (collect _ _ _) => apply stable_collect
  | |- stable _ (attempt _ _ _) => apply stable_attempt
  | |- stable _ (copy_outcome _ _ _) => unfold copy_outcome
  | |- stable _ (match ?x with _ => _ end) => destruct x
  | |- Forall _ (_ :: _) => constructor
  | |- Forall _ [] => constructor
  | |- Forall _ (_ ++ _) => apply Forall_app; split
  | |- ∀ _, _ => intro
  | |- _ = _ => first [reflexivity | apply attempts_quiet; reflexivity]
  end.

Abbreviation heard := (λ w : World, attempts (console w)).

Lemma analyzeApp_quiet app : stable heard (analyzeApp config O app).
Proof. expose_analysis. expose. quiet_auto. Qed.

Lemma analyzeApp_healingQueue app : stable healingQueue (analyzeApp config O app).
Proof. expose_analysis. expose. stable_auto. Qed.

Lemma fixError_healingQueue app error :
  stable healingQueue (fixError config O app error).
Proof.
  expose_fixing. expose. stable_auto.
  all: unfold copy_step; cbn [healingQueue set_fs set_disk_budget];
    repeat match goal with |- context [match ?x with _ => _ end] => destruct x end;
    reflexivity.
Qed.

Lemma fixError_heard app error (w : World) :
  heard (exec (fixError config O app error) w).2 = heard w ++ [attempting error].
Proof.
  unfold fixError. rewrite exec_bind. cbn [exec logger modify fst snd].
  change (set_console _ w) with (announce error w).
  match goal with |- context [exec ?m _] =>
    assert (stable heard m) as Hq end.
  { expose_fixing. expose. quiet_auto.
    all: unfold copy_step; cbn [console set_fs set_disk_budget];
      repeat match goal with |- context [match ?x with _ => _ end] => destruct x end;
      reflexivity. }
  unfold stable in Hq. rewrite Hq. unfold announce. cbn [console set_console].
  by rewrite attempts_snoc.
Qed.

Lemma fixError_total app error : total (fixError config O app error).
Proof.
  unfold fixError. apply total_bind.
  - intros w. by exists tt.
  - intros _. apply total_try_catch. intros e w. by eexists.
Qed.

(** *** The analyzers *)

Lemma stamped {A} (P : A → Prop) (k : string → N → A) :
  (∀ s now, P (k s now)) →
  ensures P (s ← stamp O; now ← Date_now; mret (k s now)).
Proof.
  intros H. eapply ensures_bind; [apply ensures_True|]. intros s _.
  eapply ensures_bind; [apply ensures_True|]. intros now _.
  apply ensures_Ret, H.
Qed.

Lemma runESLint_unresolved directory type :
  ensures (Forall unresolved) (runESLint O directory type).
Proof.
  unfold runESLint. eapply ensures_on_result with (Q := Forall unresolved).
  - eapply ensures_bind; [apply ensures_True|]. intros out _.
    destruct (parse_eslint O out.1) as [results|]; [|apply ensures_Throw].
    eapply ensures_bind with (Q := Forall (Forall unresolved)).
    + apply ensures_mapM. intros result. unfold eslint_errors.
      destruct (messages result) as [[|m ms]|]; try by apply ensures_Ret.
      apply ensures_mapM. intros message. by apply stamped.
    + intros found Hf. apply ensures_Ret. by apply Forall_concat.
  - intros errors He. by apply ensures_Ret.
  - intros e. destruct e as [| | | | |m so se]; try by apply ensures_Ret.
    destruct so as [|c so]; [by apply ensures_Ret|].
    destruct (parse_eslint O _); [by apply ensures_Ret|].
    eapply ensures_bind; [apply ensures_True|]. intros _ _. by apply ensures_Ret.
Qed.

Lemma auditDirectory_unresolved directory type :
  ensures (Forall unresolved) (auditDirectory O directory type).
Proof.
  unfold auditDirectory. eapply ensures_on_result with (Q := Forall unresolved).
  - eapply ensures_bind; [apply ensures_True|]. intros out _.
    destruct (parse_audit O out.1) as [audit|]; [|apply ensures_Throw].
    destruct (vulnerabilities audit) as [vs|]; [|by apply ensures_Ret].
    apply ensures_mapM. intros entry. by apply stamped.
  - intros errors He. by apply ensures_Ret.
  - intros e. destruct e as [| | | | |m so se]; try by apply ensures_Ret.
    destruct so as [|c so]; [by apply ensures_Ret|].
    destruct (parse_audit O _); [by apply ensures_Ret|].
    eapply ensures_bind; [apply ensures_True|]. intros _ _. by apply ensures_Ret.
Qed.

Lemma runTypeScriptCheck_unresolved directory type :
  ensures (Forall unresolved) (runTypeScriptCheck O directory type).
Proof.
  unfold runTypeScriptCheck. eapply ensures_on_result with (Q := λ _, True).
  - apply ensures_True.
  - intros out _. by apply ensures_Ret.
  - intros e. destruct e as [| | | | |m so se]; try by apply ensures_Ret.
    destruct se as [|c se]; [by apply ensures_Ret|].
    apply ensures_mapM. intros d. by apply stamped.
Qed.

Lemma in_subprojects_unresolved appDir (f : path → string → R (list ErrorInfo)) :
  (∀ d t, ensures (Forall unresolved) (f d t)) →
  Forall (ensures (Forall unresolved)) (in_subprojects appDir f).
Proof.
  intros Hf. unfold in_subprojects. repeat constructor.
  all: eapply ensures_bind; [apply ensures_True|]; intros [] _;
    [apply Hf|by apply ensures_Ret].
Qed.

Lemma analyzeApp_unresolved app :
  ensures (Forall unresolved) (analyzeApp config O app).
Proof.
  unfold analyzeApp. apply ensures_collect; [|constructor].
  repeat constructor.
  - unfold runStaticAnalysis. apply ensures_collect; [|constructor].
    apply Forall_app. split.
    + apply in_subprojects_unresolved, runESLint_unresolved.
    + repeat constructor. unfold checkTypeScript.
      apply ensures_collect; [|constructor].
      apply in_subprojects_unresolved, runTypeScriptCheck_unresolved.
  - by apply ensures_Ret.
  - by apply ensures_Ret.
  - unfold analyzeSecurityIssues. apply ensures_collect; [|constructor].
    repeat constructor. unfold runSecurityAudit.
    apply ensures_collect; [|constructor].
    apply in_subprojects_unresolved, auditDirectory_unresolved.
Qed.

Lemma analyzeApp_total app : total (analyzeApp config O app).
Proof.
  unfold analyzeApp. apply total_collect. intros e w. by eexists.
Qed.

Lemma found_spec app (w : World) :
  (exec (analyzeApp config O app) (heal_announce app w)).1 = Ok (found config O app w).
Proof.
  unfold found. by destruct (analyzeApp_total app (heal_announce app w)) as [a ->].
Qed.

Lemma found_unresolved app (w : World) : Forall unresolved (found config O app w).
Proof. eapply analyzeApp_unresolved, found_spec. Qed.

(** *** When the synthesizer has no fix *)

Lemma callAIForFix_fails context error :
  synthesis_fails O →
  ensures (λ v, ∀ s, v ≠ V_suggestion s) (callAIForFix config O context error).
Proof.
  intros Hs. unfold callAIForFix, try_catch.
  eapply ensures_on_result with (Q := λ v, ∀ s, v ≠ V_suggestion s).
  - destruct (ai_client_ready config); [|apply ensures_Throw].
    eapply ensures_bind with (Q := λ r, ∀ s, r ≠ AiFix s).
    + intros w r [= <-]. apply Hs.
    + intros [m| | |s] Hr; try apply ensures_Throw; try by apply ensures_Ret.
      by destruct (Hr s).
  - intros v Hv. by apply ensures_Ret.
  - intros e. eapply ensures_bind; [apply ensures_True|]. intros _ _.
    by apply ensures_Ret.
Qed.

Lemma generateFix_fails app error :
  synthesis_fails O → ensures (λ r, r = None) (generateFix config O app error).
Proof.
  intros Hs. unfold generateFix.
  eapply ensures_bind; [apply ensures_True|]. intros _ _. unfold try_catch.
  eapply ensures_on_result with (Q := λ r, r = None).
  - eapply ensures_bind; [apply ensures_True|]. intros context _.
    eapply ensures_bind; [by apply callAIForFix_fails|].
    intros [| |s] Hv; [by apply ensures_Ret|apply ensures_Throw|by destruct (Hv s)].
  - intros r ->. by apply ensures_Ret.
  - intros e. eapply ensures_bind; [apply ensures_True|]. intros _ _.
    by apply ensures_Ret.
Qed.

Lemma fixError_fails app error (w : World) :
  synthesis_fails O → (exec (fixError config O app error) w).1 = Ok (None, error).
Proof.
  intros Hs. unfold fixError. rewrite exec_bind. cbn [exec logger modify fst snd].
  rewrite exec_try_catch.
  match goal with |- context [(exec ?m ?w').1] =>
    assert (ensures (λ r, r = (None, error)) m) as Hbody;
    [|destruct (exec m w').1 as [r|e] eqn:E; [by rewrite (Hbody _ _ E)|done]]
  end.
  eapply ensures_bind; [apply ensures_True|]. intros backup _.
  eapply ensures_bind; [by apply generateFix_fails|]. intros r ->.
  eapply ensures_bind; [apply ensures_True|]. intros _ _. by apply ensures_Ret.
Qed.

Lemma sweep_fails app (errors : list ErrorInfo) (w : World) :
  synthesis_fails O → (exec (sweep config O app errors) w).1 = Ok errors.
Proof.
  intros Hs. revert w. induction errors as [|error errors IH]; intros w; [done|].
  cbn [sweep]. rewrite exec_bind.
  destruct (actionable error).
  - rewrite exec_bind, (fixError_fails _ _ _ Hs). cbn [exec mret R_ret fst snd].
    rewrite exec_bind, IH. reflexivity.
  - cbn [exec mret R_ret fst snd]. rewrite exec_bind, IH. reflexivity.
Qed.

(** *** The sweep *)

Lemma sweep_spec app (errors : list ErrorInfo) (w : World) :
  ∃ swept w', exec (sweep config O app errors) w = (Ok swept, w')
    ∧ heard w' = heard w ++ (attempting <$> filter (λ e, actionable e = true) errors)
    ∧ Forall2 (λ e e', actionable e = false → e' = e) errors swept
    ∧ healingQueue w' = healingQueue w.
Proof.
  revert w. induction errors as [|error errors IH]; intros w.
  - exists [], w. repeat split; [|constructor]. cbn. by rewrite app_nil_r.
  - cbn [sweep]. destruct (actionable error) eqn:Hact.
    + destruct (fixError_total app error w) as [[fxo error'] Hr].
      pose proof (fixError_heard app error w) as Hh.
      pose proof (fixError_healingQueue app error w) as Hq.
      destruct (IH (exec (fixError config O app error) w).2) as (swept & w' & He & Hh' & Hk & Hq').
      exists (error' :: swept), w'. repeat split.
      * rewrite !exec_bind, Hr. cbn [exec mret R_ret fst snd].
        rewrite exec_bind, He. reflexivity.
      * rewrite Hh', Hh, filter_cons_True by done. cbn. by rewrite <- app_assoc.
      * constructor; [congruence|done].
      * congruence.
    + destruct (IH w) as (swept & w' & He & Hh' & Hk & Hq').
      exists (error :: swept), w'. repeat split.
      * rewrite !exec_bind. cbn [exec mret R_ret fst snd]. rewrite exec_bind, He.
        reflexivity.
      * rewrite Hh', filter_cons_False; [done|]. by rewrite Hact.
      * by constructor.
      * done.
Qed.

(** [healApp], whole: it returns; the console gains one attempt per
    critical or high finding, in order; the other findings come back as
    they were found; the queue entry of the application is gone when
    anything was found. *)
Lemma healApp_spec app (w0 : World) :
  ∃ swept w', exec (healApp config O app) w0 = (Ok swept, w')
    ∧ heard w' = heard w0
                 ++ (attempting <$> filter (λ e, actionable e = true) (found config O app w0))
    ∧ Forall2 (λ e e', actionable e = false → e' = e) (found config O app w0) swept
    ∧ healingQueue w'
      = match found config O app w0 with
        | [] => healingQueue w0
        | _ :: _ => delete (app_id app) (healingQueue w0)
        end
    ∧ (synthesis_fails O → swept = found config O app w0).
Proof.
  pose proof (found_spec app w0) as Hf.
  pose proof (analyzeApp_quiet app (heal_announce app w0)) as Hq.
  pose proof (analyzeApp_healingQueue app (heal_announce app w0)) as Hhq.
  set (w1 := (exec (analyzeApp config O app) (heal_announce app w0)).2) in *.
  assert (heard w1 = heard w0) as Hq0.
  { rewrite Hq. unfold heal_announce. cbn [console set_console].
    by apply attempts_quiet. }
  unfold healApp. rewrite exec_bind. cbn [exec logger modify fst snd].
  change (set_console _ w0) with (heal_announce app w0).
  rewrite exec_try_catch, exec_bind, Hf. fold w1.
  destruct (found config O app w0) as [|e0 errors] eqn:Hfound.
  - eexists [], _. split; [reflexivity|]. crank. split_and!.
    + rewrite attempts_quiet by reflexivity. cbn. by rewrite app_nil_r.
    + constructor.
    + rewrite Hhq. reflexivity.
    + done.
  - rewrite !exec_bind. cbn [exec logger modify fst snd].
    unfold processHealingQueue. rewrite exec_bind.
    cbn [exec get fst snd healingQueue set_healingQueue set_console].
    rewrite lookup_insert_eq. rewrite exec_bind. cbn [exec logger modify fst snd].
    match goal with |- context [exec (sweep _ _ _ _ ≫= _) ?w] =>
      destruct (sweep_spec app (e0 :: errors) w) as (swept & w' & He & Hh & Hk & Hq');
      set (w2 := w) in *
    end.
    rewrite exec_bind, He. cbn [fst snd]. rewrite exec_bind.
    cbn [exec modify mret R_ret fst snd].
    eexists swept, _. split; [reflexivity|]. split_and!.
    + cbn [console set_healingQueue]. rewrite Hh. unfold w2.
      cbn [console set_console set_healingQueue].
      rewrite !attempts_quiet by reflexivity. by rewrite Hq0.
    + done.
    + cbn [healingQueue set_healingQueue]. rewrite Hq'. unfold w2.
      cbn [healingQueue set_console set_healingQueue].
      rewrite Hhq. unfold heal_announce. cbn [healingQueue set_console].
      by rewrite delete_insert_eq.
    + intros Hs. pose proof (sweep_fails app (e0 :: errors) w2 Hs) as Hsw.
      rewrite He in Hsw. by injection Hsw.
Qed.


End Facts.
End HealingFacts.

(** ** The sweep, attempt by attempt *)

Module SweepFacts.
Import Fs Types Async Healing FsFacts AsyncFacts HealingFacts Notions.

Section Facts.
Variable config : FrameworkConfig.
Variable O : Oracle.











(** *** A change that went through is in effect *)




(** *** One attempt *)




(** *** The sweep *)

Lemma sweep_total app (errors : list ErrorInfo) (w : World) :
  ∃ swept w', exec (sweep config O app errors) w = (Ok swept, w')
              ∧ length swept = length errors.
Proof.
  destruct (sweep_spec config O app errors w) as (swept & w' & He & _ & Hk & _).
  exists swept, w'. split; [done|]. symmetry. eapply Forall2_length, Hk.
Qed.


Lemma sweep_app app (before after swept1 swept2 : list ErrorInfo) (w w1 w2 : World) :
  exec (sweep config O app before) w = (Ok swept1, w1) →
  exec (sweep config O app after) w1 = (Ok swept2, w2) →
  exec (sweep config O app (before ++ after)) w = (Ok (swept1 ++ swept2), w2).
Proof.
  intros H1 H2. revert w swept1 H1.
  induction before as [|e before IH]; intros w swept1; cbn [sweep Datatypes.app].
  - intros [= <- <-]. done.
  - rewrite !exec_bind.
    destruct (exec (if actionable e then _ else _) w) as [[e'|ex] w0];
      cbn [fst snd]; [|done].
    rewrite !exec_bind.
    destruct (exec (sweep config O app before) w0) as [[rest|ex] w3] eqn:Hrest;
      cbn [exec mret R_ret fst snd]; [|done].
    intros [= <- <-]. by rewrite (IH w0 rest Hrest).
Qed.

(** *** [healApp] around the sweep *)



Lemma healApp_sweeps app (w0 w2 : World) (swept : list ErrorInfo) :
  found config O app w0 ≠ [] →
  exec (sweep config O app (found config O app w0)) (queued config O app w0)
  = (Ok swept, w2) →
  exec (healApp config O app) w0
  = (Ok swept, set_healingQueue (delete (app_id app)) w2).
Proof.
  intros Hsome Hsweep. pose proof (found_spec config O app w0) as Hf.
  unfold queued in Hsweep. cbv zeta in Hsweep.
  unfold healApp. rewrite exec_bind. cbn [exec logger modify fst snd].
  change (set_console _ w0) with (heal_announce app w0).
  rewrite exec_try_catch, exec_bind, Hf.
  destruct (found config O app w0) as [|e0 errors] eqn:Hfound; [done|].
  rewrite !exec_bind. cbn [exec logger modify fst snd].
  unfold processHealingQueue. rewrite exec_bind.
  cbn [exec get fst snd healingQueue set_healingQueue set_console].
  rewrite lookup_insert_eq. rewrite exec_bind. cbn [exec logger modify fst snd].
  rewrite exec_bind, Hsweep. cbn [fst snd]. rewrite exec_bind.
  cbn [exec modify mret R_ret fst snd]. reflexivity.
Qed.



End Facts.
End SweepFacts.


(** ** Claims about the healing loop *)

Module HealingClaims.
Import Fs Types Async Healing FsFacts AsyncFacts HealingFacts SweepFacts Notions.

(** [phase m w] names what [m] does in the concrete world [w]. *)
Ltac phase H m w :=
  let r := eval vm_compute in (exec m w).1 in
  assert (H : exec m w = (r, (exec m w).2))
    by (transitivity ((exec m w).1, (exec m w).2);
        [apply exec_eq | f_equal; vm_compute; reflexivity]).

(** What a step returns decides the step, the world after it being the
    one it leaves. *)
Lemma returns {A} (m : R A) (w : World) (a : A) :
  (exec m w).1 = Ok a → exec m w = (Ok a, (exec m w).2).
Proof. intros <-. apply exec_eq. Qed.

Ltac steps :=
  unfold Attempt.validated, Attempt.patched, Attempt.generated, Attempt.backed_up;
  apply returns; vm_compute; reflexivity.

Section Claims.
Variable config : FrameworkConfig.
Variable O : Oracle.

Abbreviation A app := (appDir config app).
Abbreviation B app id := (backupDir config app id).

(** C1 (as amended).  Whenever the fix has been applied, validation has
    returned false and the rollback threshold is positive, [fixError]
    returns the fix with applied = false and the working tree is what it
    was immediately before the fix was applied -- provided the backup
    directory of the attempt is new, the workspace directory and every
    change of the fix name resolved paths (absolute, without dot
    segments), no change names a path at, below or above the backup
    directory, and the disk does not fail. *)
Theorem rollback_restores_tree (app : GeneratedApp) (error : ErrorInfo)
    (w0 w1 w2 w3 w4 : World) (b : RollbackInfo) (fx : Fix) :
  rooted config app →
  exec (createBackup config app) (announce error w0) = (Ok b, w1) →
  exec (generateFix config O app error) w1 = (Ok (Some fx), w2) →
  exec (applyFix app fx) w2 = (Ok true, w3) →
  exec (testFix config O app fx) w3 = (Ok false, w4) →
  (0 < rollbackThreshold config)%Z →
  disk_budget w0 = None →
  subtree (B app ("backup-" +:+ pretty (clock w0))) (fs w0) = ∅ →
  Forall (λ c, resolved (ch_file c)
               ∧ related (split_path (ch_file c))
                         (B app ("backup-" +:+ pretty (clock w0))) = false)
         (changes fx) →
  ∃ w5, exec (fixError config O app error) w0
        = (Ok (Some (set_applied false fx), error), w5)
        ∧ applied (set_applied false fx) = false
        ∧ subtree (A app) (fs w5) = subtree (A app) (fs w2).
Proof.
  intros _ Hb Hg Ha Ht Hthr Hd Hnew Hun.
  assert (Forall (λ c, related (split_path (ch_file c))
                               (B app ("backup-" +:+ pretty (clock w0))) = false)
                 (changes fx)) as Hapart
    by (eapply Forall_impl; [exact Hun|]; by intros c [_ Hc]).
  clear Hun. rename Hapart into Hun.
  destruct (fixError_rolled_back config O app error w0 w1 w2 w3 w4 b fx)
    as (w5 & He & Htree); try done.
  - intros r. by rewrite <- lookup_subtree, Hnew, lookup_empty.
  - by exists w5.
Qed.

(** C4 (as amended).  When the synthesizer has no fix, [fixError] returns
    null and leaves the record as it was; the backup of the attempt has
    been created by then: it is the last entry of the application's backup
    history and its directory is on the disk.  The working tree is
    untouched. *)
Theorem no_fix_after_backup (app : GeneratedApp) (error : ErrorInfo)
    (w0 w1 w2 : World) (b : RollbackInfo) :
  exec (createBackup config app) (announce error w0) = (Ok b, w1) →
  exec (generateFix config O app error) w1 = (Ok None, w2) →
  ∃ w', exec (fixError config O app error) w0 = (Ok (None, error), w')
        ∧ backupHistory w'
          = <[app_id app := default [] (backupHistory w0 !! app_id app) ++ [b]]>
              (backupHistory w0)
        ∧ pathExists (B app (backup_id b)) (fs w') = true
        ∧ subtree (A app) (fs w') = subtree (A app) (fs w0).
Proof.
  intros Hb Hg. eexists. split; [by eapply fixError_without_fix|].
  destruct (createBackup_spec _ _ _ _ _ Hb) as (Hid & Hex & Hfs1 & _ & Hh).
  cbn [announce clock fs backupHistory set_console] in Hid, Hex, Hfs1, Hh.
  pose proof (generateFix_fs config O app error w1) as Hfs2. rewrite Hg in Hfs2.
  pose proof (generateFix_backupHistory config O app error w1) as Hh2.
  rewrite Hg in Hh2. cbn [fst snd] in *.
  cbn [backupHistory fs set_console]. rewrite Hh2, Hfs2, Hfs1. split_and!.
  - done.
  - by apply backup_exists.
  - apply subtree_eq. intros r. apply backup_keeps_tree.
Qed.

(** C9 (as amended).  In every sweep, whatever becomes of the other
    findings: when the synthesizer has no fix for a finding on its turn,
    [healApp] hands that record back as the analyzers made it,
    unresolved, and once the sweep is over the queue entry of the
    application has been deleted, so the record is not queued any more.
    (The workspace directory and the changes the synthesizer proposes
    for the other findings name resolved paths.) *)
Theorem failed_synthesis_empties_queue (app : GeneratedApp) (w0 w1 w2 : World)
    (before after : list ErrorInfo) (e : ErrorInfo) (b : RollbackInfo) :
  rooted config app →
  proposes_resolved O →
  found config O app w0 = before ++ e :: after →
  actionable e = true →
  exec (createBackup config app) (announce e (turn config O app before w0)) = (Ok b, w1) →
  exec (generateFix config O app e) w1 = (Ok None, w2) →
  ∃ swept w', exec (healApp config O app) w0 = (Ok swept, w')
              ∧ swept !! length before = Some e
              ∧ unresolved e
              ∧ healingQueue w' !! app_id app = None.
Proof.
  intros _ _ Hfound Hact Hb Hg. unfold turn in Hb.
  destruct (sweep_total config O app before (queued config O app w0))
    as (swept1 & ws & Hs1 & Hlen).
  rewrite Hs1 in Hb. cbn [snd] in Hb.
  pose proof (fixError_without_fix config O app e ws w1 w2 b Hb Hg) as Hfix.
  match type of Hfix with _ = (_, ?w) => set (w3 := w) in * end.
  destruct (sweep_total config O app after w3) as (swept2 & w4 & Hs2 & _).
  assert (exec (sweep config O app (e :: after)) ws = (Ok (e :: swept2), w4)) as Hs.
  { cbn [sweep]. rewrite Hact, !exec_bind, Hfix. cbn [exec mret R_ret fst snd].
    rewrite exec_bind, Hs2. reflexivity. }
  pose proof (sweep_app config O app _ _ _ _ _ _ _ Hs1 Hs) as Hall.
  rewrite <- Hfound in Hall. apply healApp_sweeps in Hall; [|by rewrite Hfound; destruct before].
  eexists _, _. split; [exact Hall|]. split_and!.
  - rewrite <- Hlen. by apply list_lookup_middle.
  - pose proof (found_unresolved config O app w0) as Hu. rewrite Hfound in Hu.
    apply Forall_app in Hu as [_ Hu]. by apply Forall_inv in Hu.
  - cbn [healingQueue set_healingQueue]. apply lookup_delete_eq.
Qed.



End Claims.

Import Scenario Attempt Cases.

Lemma rollback_restores_tree_witness :
  ∃ w5, exec (fixError config helpful shop missing_name) world
        = (Ok (Some (set_applied false (proposal helpful)), missing_name), w5)
        ∧ applied (set_applied false (proposal helpful)) = false
        ∧ subtree (appDir config shop) (fs w5)
          = subtree (appDir config shop) (fs (generated helpful).2).
Proof.
  apply (rollback_restores_tree config helpful shop missing_name world
           backed_up.2 (generated helpful).2 (patched helpful).2
           (validated helpful).2 backup (proposal helpful)).
  1: apply (bool_decide_unpack _); vm_compute; exact I.
  1-4: steps.
  1-3: vm_compute; reflexivity.
  apply (bool_decide_unpack _). vm_compute. exact I.
Defined.

(** The fix of the witness is the edit of the offending file. *)
Example proposed_edit : changes (proposal helpful) = [edit] ∧ resolved (ch_file edit).
Proof. split; [vm_compute; reflexivity|]. apply (bool_decide_unpack _). vm_compute. exact I. Qed.

(** C1, as it is written, fails: the fix below edits the offending file
    and removes the backups directory; it applies, validation rejects it,
    the threshold is 2 -- and the restore finds no backup, so that
    [fixError] returns null and the edit stays. *)
Lemma rollback_correctness_fails :
  ¬ Spec.rollback_correctness config careless shop missing_name world.
Proof.
  intros H.
  destruct (H backup backed_up.2 (proposal careless) (generated careless).2
              (patched careless).2 (validated careless).2)
    as (fx' & e' & w5 & He & _); [steps..|vm_compute; reflexivity|].
  assert ((exec (fixError config careless shop missing_name) world).1
          = Ok (None, missing_name)) as Hn by (vm_compute; reflexivity).
  rewrite He in Hn. discriminate Hn.
Qed.

Example careless_fix_stays :
  fs (exec (fixError config careless shop missing_name) world).2
    !! ["ws"; "apps"; "a1"; "frontend"; "a.ts"]
  = Some (File "let y = 1").
Proof. vm_compute. reflexivity. Qed.

Lemma no_fix_after_backup_witness :
  ∃ w', exec (fixError config silent shop missing_name) world
        = (Ok (None, missing_name), w')
        ∧ backupHistory w'
          = <[app_id shop := default [] (backupHistory world !! app_id shop) ++ [backup]]>
              (backupHistory world)
        ∧ pathExists (backupDir config shop (backup_id backup)) (fs w') = true
        ∧ subtree (appDir config shop) (fs w') = subtree (appDir config shop) (fs world).
Proof.
  apply (no_fix_after_backup config silent shop missing_name world
           backed_up.2 (generated silent).2 backup).
  all: steps.
Defined.

Lemma silent_fails : synthesis_fails silent.
Proof. intros t s. discriminate. Qed.

(** C4, as it is written, fails: with a synthesizer that returns null the
    call leaves a backup behind. *)
Lemma no_backup_without_fix_fails :
  ¬ Spec.no_backup_without_fix config silent shop missing_name world.
Proof.
  intros H. destruct (H silent_fails) as (w' & He & Hb & _).
  assert ((exec (fixError config silent shop missing_name) world).2 = w') as <-
    by (by rewrite He).
  apply (f_equal (λ h, h !! "a1")) in Hb. vm_compute in Hb. discriminate Hb.
Qed.

Lemma failed_synthesis_empties_queue_witness :
  ∃ swept w', exec (healApp config fickle shop) staged = (Ok swept, w')
              ∧ swept !! length [first_finding] = Some second_finding
              ∧ unresolved second_finding
              ∧ healingQueue w' !! app_id shop = None.
Proof.
  apply (failed_synthesis_empties_queue config fickle shop staged
           (exec (createBackup config shop)
                 (announce second_finding (turn config fickle shop [first_finding] staged))).2
           (exec (generateFix config fickle shop second_finding)
              (exec (createBackup config shop)
                    (announce second_finding
                       (turn config fickle shop [first_finding] staged))).2).2
           [first_finding] [] second_finding second_backup).
  - apply (bool_decide_unpack _). vm_compute. exact I.
  - intros t s H.
    change (ai_reply fickle t)
      with (if (t <? 10)%nat then suggestion [edit] else AiFalsy) in H.
    destruct (t <? 10)%nat; [|discriminate H].
    injection H as <-. apply (bool_decide_unpack _). vm_compute. exact I.
  - vm_compute. reflexivity.
  - reflexivity.
  - apply returns. vm_compute. reflexivity.
  - apply returns. vm_compute. reflexivity.
Defined.

(** The sweep of the witness is mixed: the first finding gets a fix from
    the synthesizer (applied, rejected by validation, rolled back), the
    second gets none. *)
Example mixed_sweep :
  ¬ synthesis_fails fickle
  ∧ findings = [first_finding; second_finding]
  ∧ returned None
      (exec (generateFix config fickle shop first_finding)
         (exec (createBackup config shop)
               (announce first_finding (turn config fickle shop [] staged))).2).1
    ≠ None.
Proof.
  split_and!.
  - intros H. eapply (H 0%nat). reflexivity.
  - reflexivity.
  - vm_compute. discriminate.
Qed.

(** C9, as it is written, fails: the type checker reports one error of
    severity high, the synthesizer has no fix for it, and after the sweep
    the queue of the application is gone. *)
Lemma stays_queued_fails : ¬ Spec.stays_queued config silent shop world.
Proof.
  intros H.
  phase He (healApp config silent shop) world.
  match type of He with _ = (Ok ?swept, _) =>
    destruct (H silent_fails _ _ He (hd missing_name swept)) as (queue & Hq & _)
  end.
  - vm_compute. left.
  - vm_compute. reflexivity.
  - vm_compute in Hq. discriminate Hq.
Qed.



(** C7: the code at the failing input.  The linter exits with code 1 and
    a report with one error in it; [runESLint] returns no record. *)
Theorem lint_report_dropped :
  ¬ Spec.nonzero_exit_reported strict_linter (appDir config shop ++ ["frontend"])
      "frontend" world.
Proof.
  intros H.
  destruct (H "Command failed: npm run lint -- --format json" lint_report "" linted)
    as (errors & He & Hl); try (vm_compute; reflexivity).
  vm_compute in He. injection He as <-. vm_compute in Hl. discriminate Hl.
Qed.

End HealingClaims.

(** ** The test orchestrator *)

Module TestingFacts.
Import Fs Types Async Testing FsFacts AsyncFacts.

Lemma ensures_on_result_total {A B} (Q : A → Prop) (P : B → Prop)
    (m : R A) (g : Result A → R B) :
  total m → ensures Q m → (∀ a, Q a → ensures P (g (Ok a))) →
  ensures P (on_result m g).
Proof.
  intros Ht Hm Hok w b. rewrite exec_on_result.
  destruct (Ht w) as [a Ha]. rewrite Ha. apply Hok. eapply Hm, Ha.
Qed.

(** An invariant of the steps and of the handler holds of the outcome. *)
Lemma ensures_attempt {S} (I : S → Prop) (steps : list (S → R S))
    (h : Exn → S → R S) (s : S) :
  Forall (λ st, ∀ s, I s → ensures I (st s)) steps →
  (∀ e s, I s → ensures I (h e s)) →
  I s → ensures I (attempt steps h s).
Proof.
  intros Hs Hh. revert s. induction Hs as [|st steps Hst _ IH]; intros s Hi; simpl.
  - by apply ensures_Ret.
  - eapply ensures_on_result; [by apply Hst|exact IH|]. intros e. by apply Hh.
Qed.

(** *** Aggregation in the suites that record their setup failure *)


Lemma verdict_aggregated s : aggregated (verdict s).
Proof.
  unfold aggregated, verdict. cbn [status tests set_status].
  destruct (forallb passed (tests s)) eqn:Hall.
  - split; [intros _|done]. apply Is_true_true, forallb_True in Hall.
    eapply Forall_impl; [exact Hall|]. intros t Ht.
    by apply bool_decide_unpack in Ht.
  - split; [done|]. intros Hp. exfalso.
    assert (forallb passed (tests s) = true) as Hf; [|congruence].
    apply Is_true_true, forallb_True. eapply Forall_impl; [exact Hp|].
    intros t Ht. by apply bool_decide_pack.
Qed.

Lemma failure_aggregated id name description message s :
  aggregated (push_tests [failing_case id name description message]
                         (set_status s_failed s)).
Proof.
  unfold aggregated. cbn [status tests push_tests set_status].
  split; [done|]. intros Hp. apply Forall_app in Hp as [_ Hp].
  apply Forall_inv in Hp. cbn in Hp. discriminate Hp.
Qed.

(** Once a step has settled a property that the later steps and the
    handler keep, the outcome of the whole try block has it. *)
Lemma ensures_attempt_settled {S} (J : S → Prop) (pre : list (S → R S))
    (mid : S → R S) (post : list (S → R S)) (h : Exn → S → R S) (s : S) :
  (∀ s, ensures J (mid s)) →
  Forall (λ st, ∀ s, J s → ensures J (st s)) post →
  (∀ e s, ensures J (h e s)) →
  ensures J (attempt (pre ++ mid :: post) h s).
Proof.
  intros Hmid Hpost Hh. revert s. induction pre as [|st pre IH]; intros s; simpl.
  - eapply ensures_on_result with (Q := J); [apply Hmid| |intros e; apply Hh].
    intros s' Hs'. apply ensures_attempt; [done| |done]. intros e s'' _. apply Hh.
  - eapply ensures_on_result with (Q := λ _, True);
      [apply ensures_True|intros s' _; apply IH|intros e; apply Hh].
Qed.

Lemma fail_with_case_aggregated what prefix name description e s :
  ensures aggregated (fail_with_case what prefix name description e s).
Proof.
  unfold fail_with_case.
  eapply ensures_bind; [apply ensures_True|]. intros _ _.
  eapply ensures_bind; [apply ensures_True|]. intros t _.
  apply ensures_Ret, failure_aggregated.
Qed.

Lemma set_duration_aggregated d s : aggregated s → aggregated (set_duration d s).
Proof. done. Qed.

Lemma run_suite_aggregated prefix name type pre mid post what eprefix ename description :
  (∀ s, ensures aggregated (mid s)) →
  Forall (λ st, ∀ s, aggregated s → ensures aggregated (st s)) post →
  ensures aggregated
    (run_suite prefix name type (pre ++ mid :: post)
       (fail_with_case what eprefix ename description)).
Proof.
  intros Hmid Hpost. unfold run_suite.
  eapply ensures_bind; [apply ensures_True|]. intros now _.
  eapply ensures_bind; [apply ensures_True|]. intros start _.
  eapply ensures_bind with (Q := aggregated).
  - apply ensures_attempt_settled; [done..|].
    intros e s. apply fail_with_case_aggregated.
  - intros s Hs. eapply ensures_bind; [apply ensures_True|]. intros finish _.
    by apply ensures_Ret, set_duration_aggregated.
Qed.

Lemma step_aggregated (m : R unit) s : aggregated s → ensures aggregated (step_ m s).
Proof.
  intros Hs. unfold step_. eapply ensures_bind; [apply ensures_True|].
  intros _ _. by apply ensures_Ret.
Qed.

Section Facts.
Variable O : Oracle.
Variables render_component render_api : string → string.

Lemma runJestTests_total directory suiteName :
  total (runJestTests O directory suiteName).
Proof.
  unfold runJestTests. apply total_try_catch. intros e w. by eexists.
Qed.

Lemma step_if_exists_total p (m : R (list TestCase)) (s : TestSuite) :
  total m → total (step_if_exists p (step_push m) s).
Proof.
  intros Hm. unfold step_if_exists, step_push. apply total_bind.
  - intros w. by eexists.
  - intros [|]; [|apply total_Ret].
    apply total_bind; [done|]. intros ts. apply total_Ret.
Qed.

(** Coverage of a suite that consists of one failed case. *)
Lemma coverage_of_failure (id name description message : string) :
  calculateCoverage [failing_case id name description message] = 0%Z.
Proof. reflexivity. Qed.

Lemma runUnitTests_coverage app appDir :
  ensures (λ s, coverage s = calculateCoverage (tests s))
          (runUnitTests O render_component render_api app appDir).
Proof.
  unfold runUnitTests.
  eapply ensures_bind; [apply ensures_True|]. intros _ _. unfold run_suite.
  eapply ensures_bind; [apply ensures_True|]. intros now _.
  eapply ensures_bind; [apply ensures_True|]. intros start _.
  eapply ensures_bind with (Q := λ s, coverage s = calculateCoverage (tests s)).
  2:{ intros s Hs. eapply ensures_bind; [apply ensures_True|]. intros finish _.
      by apply ensures_Ret. }
  set (s0 := new_suite _ _ _). cbn [attempt].
  eapply ensures_on_result with (Q := λ s, s = s0).
  - unfold step_. eapply ensures_bind; [apply ensures_True|]. intros _ _.
    by apply ensures_Ret.
  - intros ? ->.
    eapply ensures_on_result_total with (Q := λ _, True);
      [apply step_if_exists_total, runJestTests_total|apply ensures_True|].
    intros s1 _.
    eapply ensures_on_result_total with (Q := λ _, True);
      [apply step_if_exists_total, runJestTests_total|apply ensures_True|].
    intros s2 _.
    eapply ensures_on_result_total
      with (Q := λ s, coverage s = calculateCoverage (tests s)).
    + apply total_Ret.
    + by apply ensures_Ret.
    + intros s3 Hs3. by apply ensures_Ret.
  - intros e. unfold fail_with_case.
    eapply ensures_bind; [apply ensures_True|]. intros _ _.
    eapply ensures_bind; [apply ensures_True|]. intros t _.
    apply ensures_Ret. reflexivity.
Qed.

Ltac zero_coverage :=
  unfold run_suite;
  eapply ensures_bind; [apply ensures_True|]; intros _ _;
  eapply ensures_bind; [apply ensures_True|]; intros ? _;
  eapply ensures_bind; [apply ensures_True|]; intros ? _;
  eapply ensures_bind with (Q := λ s, coverage s = 0%Z);
  [ apply ensures_attempt;
    [ repeat constructor; intros s Hs;
      unfold step_, step_push, step_push1, step_when, step_if_exists;
      repeat match goal with
      | |- ensures _ (if ?b then _ else _) => destruct b
      | |- ensures _ (mret _) => by apply ensures_Ret
      | |- ensures _ (_ ≫= _) => eapply ensures_bind; [apply ensures_True|]; intros ? _
      end
    | intros e s Hs; unfold fail_with_case, fail_silently;
      repeat match goal with
      | |- ensures _ (mret _) => by apply ensures_Ret
      | |- ensures _ (_ ≫= _) => eapply ensures_bind; [apply ensures_True|]; intros ? _
      end
    | reflexivity ]
  | intros s Hs; eapply ensures_bind; [apply ensures_True|]; intros ? _;
    by apply ensures_Ret ].

Lemma other_suites_coverage (c : Category) app appDir :
  c ≠ Unit →
  ensures (λ s, coverage s = 0%Z)
          (run_category O render_component render_api c app appDir).
Proof.
  intros Hc. destruct c; [done|..]; cbn [run_category].
  - unfold runIntegrationTests. zero_coverage.
  - unfold runE2ETests. zero_coverage.
  - unfold runPerformanceTests. zero_coverage.
  - unfold runAccessibilityTests. zero_coverage.
  - unfold runVisualRegressionTests. zero_coverage.
Qed.

(** The unit, integration and e2e suites are passed exactly when every
    case in them passed, whatever happened on the way: their handler
    records the failure as a case. *)
Lemma recorded_suites_aggregated (c : Category) app appDir :
  c ∈ [Unit; Integration; E2E] →
  ensures aggregated (run_category O render_component render_api c app appDir).
Proof.
  rewrite !elem_of_cons, elem_of_nil. intros [->|[->|[->|[]]]].
  - cbn [run_category]. unfold runUnitTests.
    eapply ensures_bind; [apply ensures_True|]. intros _ _.
    apply (run_suite_aggregated _ _ _ [_; _; _] _ []); [|constructor].
    intros s. apply ensures_Ret. apply (verdict_aggregated s).
  - cbn [run_category]. unfold runIntegrationTests.
    eapply ensures_bind; [apply ensures_True|]. intros _ _.
    apply (run_suite_aggregated _ _ _ [_; _; _; _; _] _ [_]).
    + intros s. apply ensures_Ret, verdict_aggregated.
    + constructor; [|constructor]. intros s. apply step_aggregated.
  - cbn [run_category]. unfold runE2ETests.
    eapply ensures_bind; [apply ensures_True|]. intros _ _.
    apply (run_suite_aggregated _ _ _ [_; _; _; _; _; _] _ [_]).
    + intros s. apply ensures_Ret, verdict_aggregated.
    + constructor; [|constructor]. intros s. apply step_aggregated.
Qed.

End Facts.
End TestingFacts.

(** ** Claims about the test orchestrator *)

Module TestingClaims.
Import Fs Types Async Testing FsFacts AsyncFacts TestingFacts.

(** [calculateCoverage] computes the pass rate. *)
Lemma calculateCoverage_pass_rate (cases : list TestCase) :
  calculateCoverage cases = Spec.pass_rate cases.
Proof.
  unfold calculateCoverage, Spec.pass_rate. destruct cases as [|t cases]; [done|].
  cbn [length Nat.ltb Nat.leb].
  rewrite (list_filter_iff (λ test, passed test = true) (λ c, tc_status c = c_passed));
    [done|].
  intros c. unfold passed. split.
  - intros H. by apply bool_decide_eq_true in H.
  - intros H. by apply bool_decide_eq_true.
Qed.

(** C10 (as amended).  The unit suite is the one suite whose coverage is
    computed: there it is the pass rate of the suite's cases, the number
    of passed cases over the number of cases, times 100 and rounded, and
    0 for no case.  The suite of every other category is returned with
    coverage 0, whatever its cases. *)
Theorem coverage_by_category (O : Oracle) (render_component render_api : string → string)
    (c : Category) (app : GeneratedApp) (appDir : path) (w : World) (s : TestSuite) :
  (exec (run_category O render_component render_api c app appDir) w).1 = Ok s →
  coverage s = match c with
               | Unit => Spec.pass_rate (tests s)
               | _ => 0%Z
               end
  ∧ (tests s = [] → coverage s = 0%Z).
Proof.
  intros Hs.
  assert (coverage s = match c with Unit => Spec.pass_rate (tests s) | _ => 0%Z end)
    as Hc.
  { destruct c.
    - rewrite <- calculateCoverage_pass_rate. eapply runUnitTests_coverage, Hs.
    - eapply (other_suites_coverage _ _ _ Integration), Hs. done.
    - eapply (other_suites_coverage _ _ _ E2E), Hs. done.
    - eapply (other_suites_coverage _ _ _ Performance), Hs. done.
    - eapply (other_suites_coverage _ _ _ Accessibility), Hs. done.
    - eapply (other_suites_coverage _ _ _ Visual), Hs. done. }
  split; [exact Hc|]. intros Hnil. rewrite Hc, Hnil. by destruct c.
Qed.

Import Scenario Attempt.

Lemma coverage_by_category_witness :
  coverage unit_suite = Spec.pass_rate (tests unit_suite)
  ∧ (tests unit_suite = [] → coverage unit_suite = 0%Z).
Proof.
  apply (coverage_by_category reporting plain plain Unit shop tree staged unit_suite).
  vm_compute. reflexivity.
Defined.

(** The unit suite of the witness: of six cases four passed, the pass
    rate is 67. *)
Example unit_pass_rate :
  tc_status <$> tests unit_suite
  = [c_passed; c_passed; c_failed; c_passed; c_passed; c_failed]
  ∧ coverage unit_suite = 67%Z.
Proof. vm_compute. done. Qed.

(** C10, as it is written, fails: both sub-projects are on the disk and
    the application answers; the performance suite, its one check
    passed, has coverage 0 and pass rate 100. *)
Lemma coverage_is_pass_rate_fails :
  ¬ Spec.coverage_is_pass_rate responsive plain plain Performance shop tree staged.
Proof.
  intros H. specialize (H performance_suite).
  assert (coverage performance_suite = Spec.pass_rate (tests performance_suite)) as Hc.
  { apply H. vm_compute. reflexivity. }
  vm_compute in Hc. discriminate Hc.
Qed.

Example pass_rates :
  Spec.pass_rate (outcome 1 2) = 33%Z
  ∧ Spec.pass_rate (outcome 2 1) = 67%Z
  ∧ Spec.pass_rate (outcome 1 1) = 50%Z
  ∧ Spec.pass_rate (outcome 3 0) = 100%Z
  ∧ Spec.pass_rate (outcome 0 3) = 0%Z.
Proof. vm_compute. done. Qed.

Example performance_pass_rate :
  launchable tree staged
  ∧ tc_status <$> tests performance_suite = [c_passed]
  ∧ coverage performance_suite = 0%Z
  ∧ Spec.pass_rate (tests performance_suite) = 100%Z.
Proof. vm_compute. done. Qed.

(** C5: the code at the failing input.  Both sub-projects are on the
    disk, the dev servers are started and never answer; the performance
    suite comes back failed with no case in it, while the unit,
    integration and e2e suites record a failing case of their own in the
    same situation. *)
Theorem suite_aggregation_fails :
  ¬ Spec.suite_aggregation silent plain plain Performance shop tree staged.
Proof.
  intros H. specialize (H stillborn_suite).
  assert (status stillborn_suite = s_passed) as Hc.
  { apply H; [vm_compute; reflexivity|]. vm_compute. constructor. }
  vm_compute in Hc. discriminate Hc.
Qed.

Example stillborn :
  launchable tree staged
  ∧ status stillborn_suite = s_failed ∧ tests stillborn_suite = [].
Proof. vm_compute. done. Qed.

End TestingClaims.

(** ** The deployment manager *)

Module DeploymentFacts.
Import Fs Types Async Deployment FsFacts AsyncFacts HealingFacts.

Lemma bind_Ok_inv {A B} (m : R A) (g : A → R B) (w w' : World) (b : B) :
  exec (m ≫= g) w = (Ok b, w') →
  ∃ a w1, exec m w = (Ok a, w1) ∧ exec (g a) w1 = (Ok b, w').
Proof.
  rewrite exec_bind. destruct (exec m w) as [[a|e] w1]; cbn [fst snd]; [|done].
  intros H. by exists a, w1.
Qed.

Lemma stable_exec {X A} (f : World → X) (m : R A) (w w' : World) (r : Result A) :
  stable f m → exec m w = (r, w') → f w' = f w.
Proof. intros H E. specialize (H w). by rewrite E in H. Qed.

(** *** The deployment object under the steps *)

Lemma update_observe {X} (h : DeploymentResult → X) (id id' : string)
    (g : DeploymentResult → DeploymentResult) :
  (∀ d, h (g d) = h d) → stable (observe h id) (update id' g).
Proof.
  intros Hg w. unfold update, observe. cbn [exec modify snd activeDeployments
    set_activeDeployments].
  destruct (decide (id' = id)) as [->|Hne].
  - rewrite lookup_alter_eq. destruct (activeDeployments w !! id); simpl; [|done].
    by rewrite Hg.
  - by rewrite lookup_alter_ne.
Qed.

Lemma quiet_observe {X A} (h : DeploymentResult → X) (id : string) (m : R A) :
  stable activeDeployments m → stable (observe h id) m.
Proof. intros H w. unfold observe. by rewrite H. Qed.

Ltac observe_auto :=
  repeat match goal with
  | |- ∀ _, _ => intro
  | |- stable _ (let _ := _ in _) => cbv zeta
  | |- stable _ (mret _) => apply stable_Ret
  | |- stable _ (Ret _) => apply stable_Ret
  | |- stable _ (Throw _) => apply stable_Throw
  | |- stable _ (_ ≫= _) => apply stable_bind
  | |- stable _ (try_catch _ _) => apply stable_try_catch
  | |- stable _ (for_each _ _) => apply stable_for_each
  | |- stable _ (update _ _) => apply update_observe; intros ?; reflexivity
  | |- stable _ (push _ _) => unfold push
  | |- stable _ (field _ _ _) => unfold field
  | |- stable _ (if ?b then _ else _) => destruct b
  | |- stable _ (match ?x with _ => _ end) => destruct x
  | |- stable (observe _ _) (logger _ _) => apply quiet_observe; expose; stable_auto
  | |- stable (observe _ _) Date_now => apply quiet_observe; expose; stable_auto
  | |- stable (observe _ _) (get _) => apply quiet_observe; expose; stable_auto
  | |- stable (observe _ _) (request _ _) => apply quiet_observe; expose; stable_auto
  | |- stable (observe _ _) (sleep _) => apply quiet_observe; expose; stable_auto
  | |- stable (observe _ _) (execAsync _ _ _) => apply quiet_observe; expose; stable_auto
  | |- stable (observe _ _) (fs_pathExists _) => apply quiet_observe; expose; stable_auto
  | |- stable (observe _ _) (fs_readFile _) => apply quiet_observe; expose; stable_auto
  end.

Section Facts.
Variable config : FrameworkConfig.
Variable O : Oracle.

Lemma await_application_observe {X} (h : DeploymentResult → X) (id id' u : string)
    (rounds : nat) (start maxWaitTime : N) :
  (∀ l d, h (with_log l d) = h d) →
  stable (observe h id) (await_application O rounds id' u start maxWaitTime).
Proof.
  intros Hh. induction rounds as [|rounds IH]; cbn [await_application].
  - apply stable_Throw.
  - apply stable_bind; [observe_auto|]. intros now.
    destruct (_ <? _)%N; [|apply stable_Throw].
    apply stable_bind; [observe_auto|]. intros [[|] code|msg].
    + unfold push. apply update_observe. intros d. apply Hh.
    + apply stable_bind; [observe_auto|]. intros _. exact IH.
    + apply stable_bind; [observe_auto|]. intros _. exact IH.
Qed.

Lemma waitForApplication_observe {X} (h : DeploymentResult → X) (id id' u : string) :
  (∀ l d, h (with_log l d) = h d) →
  stable (observe h id) (waitForApplication O u id').
Proof.
  intros Hh. unfold waitForApplication.
  apply stable_bind; [unfold push; apply update_observe; intros d; apply Hh|].
  intros _. apply stable_bind; [observe_auto|]. intros start.
  by apply await_application_observe.
Qed.

Lemma runHealthChecks_observe {X} (h : DeploymentResult → X) (id id' : string) :
  (∀ l d, h (with_log l d) = h d) →
  stable (observe h id) (runHealthChecks O id').
Proof.
  intros Hh. unfold runHealthChecks, health_check, push.
  assert (∀ l, stable (observe h id) (update id' (with_log l))) as Hpush.
  { intros l. apply update_observe. intros d. apply Hh. }
  apply stable_bind; [apply Hpush|]. intros _.
  apply stable_try_catch; [|intros e; apply Hpush].
  apply stable_bind; [observe_auto|]. intros u.
  apply stable_for_each. intros healthUrl.
  apply stable_bind; [observe_auto|]. intros [[|] code|msg]; apply Hpush.
Qed.

Lemma runSmokeTests_observe {X} (h : DeploymentResult → X) (id id' : string) app :
  (∀ l d, h (with_log l d) = h d) →
  stable (observe h id) (runSmokeTests config O app id').
Proof.
  intros Hh. unfold runSmokeTests, push.
  assert (∀ l, stable (observe h id) (update id' (with_log l))) as Hpush.
  { intros l. apply update_observe. intros d. apply Hh. }
  apply stable_bind; [apply Hpush|]. intros _. cbv zeta.
  apply stable_try_catch.
  - apply stable_bind; [observe_auto|]. intros [|]; [|apply Hpush].
    apply stable_bind; [observe_auto|]. intros out.
    apply stable_bind; [apply Hpush|]. intros _.
    destruct (non_empty _); [apply Hpush|apply stable_Ret].
  - intros e. apply stable_bind; [apply Hpush|]. intros _.
    apply stable_bind; [observe_auto|]. intros env.
    destruct (decide _); [apply stable_Throw|apply stable_Ret].
Qed.

Lemma runPostDeploymentChecks_observe {X} (h : DeploymentResult → X) (id id' : string)
    (app : GeneratedApp) (env : Environment) :
  (∀ l d, h (with_log l d) = h d) →
  stable (observe h id) (runPostDeploymentChecks config O app id' env).
Proof.
  intros Hh.
  assert (∀ l, stable (observe h id) (push id' l)) as Hpush.
  { intros l. apply update_observe. intros d. apply Hh. }
  unfold runPostDeploymentChecks.
  apply stable_bind; [apply Hpush|]. intros _.
  apply stable_bind; [observe_auto|]. intros [u|]; [|apply Hpush].
  apply stable_bind; [by apply waitForApplication_observe|]. intros _.
  apply stable_bind.
  { destruct (healthChecks config); [by apply runHealthChecks_observe|apply stable_Ret]. }
  intros _. apply stable_bind; [by apply runSmokeTests_observe|].
  intros _. apply Hpush.
Qed.

(** Every step of a deployment leaves the deployment object registered. *)
Lemma deploy_steps_present (app : GeneratedApp) (id id' : string) (env : Environment) :
  stable (observe (λ _, ()) id) (deploy_steps config O app id' env).
Proof.
  assert (∀ g, stable (observe (λ _, ()) id) (update id' g)) as Hup.
  { intros g. by apply update_observe. }
  assert (∀ l, stable (observe (λ _, ()) id) (push id' l)) as Hpush.
  { intros l. apply Hup. }
  unfold deploy_steps.
  apply stable_bind; [observe_auto|]. intros _.
  apply stable_bind; [apply Hup|]. intros _.
  apply stable_bind; [observe_auto|]. intros now.
  apply stable_bind; [apply Hpush|]. intros _. cbv zeta.
  apply stable_bind.
  { unfold runPreDeploymentChecks, validateEnvironmentVariables. observe_auto. }
  intros _. apply stable_bind.
  { unfold buildApplication. observe_auto. }
  intros _. apply stable_bind.
  { unfold deploy_provider, deployWithDocker, deployWithVercel, deployWithNetlify,
      deployWithAWS. observe_auto. }
  intros _. apply stable_bind; [by apply runPostDeploymentChecks_observe|].
  intros _. observe_auto.
Qed.

(** *** Waiting for the application *)



(** *** Health checks *)

Lemma runHealthChecks_total (id : string) : total (runHealthChecks O id).
Proof.
  unfold runHealthChecks. apply total_bind; [intros w; by eexists|]. intros _.
  apply total_try_catch. intros e w. by eexists.
Qed.

(** *** The catch block *)


(** *** The try block *)

(** A try block that went through with a URL has seen the application
    answer there. *)
Lemma deploy_steps_waited (app : GeneratedApp) (id : string) (env : Environment)
    (w w' : World) (u : string) :
  exec (deploy_steps config O app id env) w = (Ok (), w') →
  observe url id w' = Some (Some u) →
  ∃ w1, (exec (waitForApplication O u id) w1).1 = Ok ().
Proof.
  unfold deploy_steps. intros H Hu.
  apply bind_Ok_inv in H as (_ & ? & _ & H).
  apply bind_Ok_inv in H as (_ & ? & _ & H).
  apply bind_Ok_inv in H as (now & ? & _ & H).
  apply bind_Ok_inv in H as (_ & ? & _ & H). cbv zeta in H.
  apply bind_Ok_inv in H as (_ & ? & _ & H).
  apply bind_Ok_inv in H as (_ & ? & _ & H).
  apply bind_Ok_inv in H as (_ & w3 & _ & H).
  apply bind_Ok_inv in H as ([] & w4 & Hpost & Htail).
  assert (observe url id w4 = Some (Some u)) as Hu4.
  { rewrite <- Hu. symmetry. eapply stable_exec; [|exact Htail]. observe_auto. }
  clear Htail Hu. unfold runPostDeploymentChecks in Hpost.
  apply bind_Ok_inv in Hpost as ([] & w5 & Hpush & Hpost).
  apply bind_Ok_inv in Hpost as (u' & w6 & Hfield & Hpost).
  unfold field in Hfield. cbn [exec get] in Hfield.
  injection Hfield as Hu' Hw6. subst w6.
  assert (observe url id w5 = Some (Some u)) as Hu5.
  { rewrite <- Hu4. symmetry. destruct u' as [u'|].
    - eapply stable_exec; [|exact Hpost].
      apply stable_bind; [by apply waitForApplication_observe|]. intros _.
      apply stable_bind.
      { destruct (healthChecks config);
          [by apply runHealthChecks_observe|apply stable_Ret]. }
      intros _. apply stable_bind; [by apply runSmokeTests_observe|].
      intros _. by apply update_observe.
    - eapply stable_exec; [|exact Hpost]. by apply update_observe. }
  unfold observe in Hu5. rewrite Hu5 in Hu'. cbn in Hu'. subst u'.
  apply bind_Ok_inv in Hpost as ([] & w7 & Hwait & _).
  exists w5. by rewrite Hwait.
Qed.

(** *** deploy *)

Lemma deploy_failed_total (app : GeneratedApp) (id : string) (env : Environment)
    (e : Exn) :
  total (deploy_failed config app id env e).
Proof.
  intros w. unfold deploy_failed, rollbackDeployment, push, update, logger.
  destruct (rollbackOnFailure config && negb (bool_decide (env = development)));
    crank; by eexists.
Qed.


End Facts.
End DeploymentFacts.

(** ** Claims about the deployment manager *)

Module DeploymentClaims.
Import Fs Types Async Deployment FsFacts AsyncFacts DeploymentFacts Notions.


Import Scenario Attempt Cases.


(** The health checks of the witness: the deployment is for production,
    both endpoints refuse the connection, both failures are logged and
    the checks return. *)
Example refused_in_production :
  environment in_production = production
  ∧ (exec (runHealthChecks silent "d1") checking).1 = Ok ()
  ∧ observe logs "d1" (exec (runHealthChecks silent "d1") checking).2
    = Some [ "Running health checks...";
             "Health check failed: http://localhost:3000/health - connect ECONNREFUSED";
             "Health check failed: http://localhost:3000/api/health - connect ECONNREFUSED" ].
Proof. vm_compute. done. Qed.


Example stalled_in_development :
  environment stalled = development
  ∧ dep_status stalled = d_failed
  ∧ last (logs stalled)
    = Some "Deployment failed: Application did not start within 300 seconds".
Proof. vm_compute. done. Qed.

(** In production, health endpoints that answer 503 are logged and the
    deployment succeeds. *)
Example ailing_in_production :
  environment ailing = production
  ∧ dep_status ailing = d_success
  ∧ "Health check warning: https://localhost/health returned 503" ∈ logs ailing.
Proof. split_and!; [reflexivity..|]. apply (bool_decide_unpack _). vm_compute. exact I. Qed.

End DeploymentClaims.

(** ** The event loop *)

Module SchedFacts.
Import Fs Types Async Sched FsFacts AsyncFacts.

Lemma pending_on_result {A B} (m : R A) (f : Result A → R B) (w : World) :
  pending m w → pending (on_result m f) w.
Proof.
  unfold pending. revert w. induction m as [a|e|b u k IH]; intros w; simpl; [done..|].
  destruct b; [done|]. apply IH.
Qed.

Lemma pending_bind {A B} (m : R A) (f : A → R B) (w : World) :
  pending m w → pending (m ≫= f) w.
Proof. apply pending_on_result. Qed.

Lemma pending_try_catch {A} (m : R A) (h : Exn → R A) (w : World) :
  pending m w → pending (try_catch m h) w.
Proof. apply pending_on_result. Qed.

Lemma pending_try_finally {A} (m : R A) (f : R unit) (w : World) :
  pending m w → pending (try_finally m f) w.
Proof. apply pending_on_result. Qed.

Lemma pending_collect {A} (s : R (list A)) (steps : list (R (list A)))
    (h : Exn → R unit) (acc : list A) (w : World) :
  pending s w → pending (collect (s :: steps) h acc) w.
Proof. apply pending_on_result. Qed.

(** A synchronous prefix runs at the call. *)
Lemma settle_bind {A B} (m : R A) (f : A → R B) (w w' : World) (a : A) :
  settle m w = (w', Ret a) → settle (m ≫= f) w = settle (f a) w'.
Proof.
  revert w. induction m as [a'|e|b u k IH]; intros w; simpl.
  - by intros [= -> ->].
  - done.
  - destruct b; [done|]. apply IH.
Qed.

Lemma pending_after {A B} (m : R A) (f : A → R B) (w w' : World) (a : A) :
  settle m w = (w', Ret a) → pending (f a) w' → pending (m ≫= f) w.
Proof. intros Hm. unfold pending. by rewrite (settle_bind _ _ _ _ _ Hm). Qed.

Lemma in_flight_call (k : Kind) (app : string) (m : R unit) (l : Loop) :
  pending m (world l) →
  in_flight k app (call k app m l) = S (in_flight k app l).
Proof.
  unfold pending, call, in_flight. destruct (settle m (world l)) as [w' m'].
  cbn [snd tasks]. intros Hm.
  rewrite filter_app, length_app, filter_cons_True; [|by cbn].
  rewrite filter_nil. cbn [length]. lia.
Qed.

Section Facts.
Variable config : FrameworkConfig.
Variable O : Oracle.

(** [healApp] gets as far as the first look at the disk. *)
Lemma healApp_pending (app : GeneratedApp) (w : World) :
  pending (void (Healing.healApp config O app)) w.
Proof.
  unfold void. apply pending_bind. unfold Healing.healApp.
  eapply pending_after; [reflexivity|].
  apply pending_try_catch, pending_bind.
  unfold Healing.analyzeApp. apply pending_collect.
  unfold Healing.runStaticAnalysis, Healing.in_subprojects. cbn [Datatypes.app].
  apply pending_collect, pending_bind. reflexivity.
Qed.

(** [deploy] registers the deployment and gets as far as the first
    required file. *)
Lemma deploy_pending (app : GeneratedApp) (env : Environment) (w : World) :
  pending (void (Deployment.deploy config O app env)) w.
Proof.
  unfold void. apply pending_bind. unfold Deployment.deploy.
  eapply pending_after; [reflexivity|].
  eapply pending_after; [reflexivity|]. cbv zeta.
  eapply pending_after; [reflexivity|].
  eapply pending_after; [reflexivity|].
  eapply pending_after; [reflexivity|].
  eapply pending_after; [reflexivity|].
  apply pending_bind, pending_try_finally, pending_try_catch.
  unfold Deployment.deploy_steps.
  eapply pending_after; [reflexivity|].
  eapply pending_after; [reflexivity|].
  eapply pending_after; [reflexivity|].
  eapply pending_after; [reflexivity|]. cbv zeta.
  apply pending_bind. unfold Deployment.runPreDeploymentChecks.
  eapply pending_after; [reflexivity|]. cbv zeta.
  apply pending_bind. cbn [Datatypes.app for_each].
  apply pending_bind, pending_bind. reflexivity.
Qed.

End Facts.
End SchedFacts.

(** ** Claims about concurrent calls *)

Module SchedClaims.
Import Fs Types Async Sched FsFacts AsyncFacts SchedFacts.

(** C3 (as amended).  Neither [healApp] nor [deploy] has an in-flight
    guard: a call is never rejected or queued.  Whatever is running, a
    call of [healApp] for an application id adds one healing pass in
    flight for that id, and a call of [deploy] one deployment. *)
Theorem calls_are_admitted (config : FrameworkConfig) (O : Oracle)
    (app : GeneratedApp) (env : Environment) (l : Loop) :
  in_flight Heal (app_id app) (call_healApp config O app l)
  = S (in_flight Heal (app_id app) l)
  ∧ in_flight Deploy (app_id app) (call_deploy config O app env l)
    = S (in_flight Deploy (app_id app) l).
Proof.
  split.
  - apply in_flight_call, healApp_pending.
  - apply in_flight_call, deploy_pending.
Qed.

Import Scenario Attempt.

(** C3, as it is written, fails: after two calls of [healApp] for the
    shop, two healing passes are in flight for its id. *)
Lemma single_flight_fails : ¬ Spec.single_flight config helpful twice idle.
Proof.
  intros H. specialize (H Heal "a1").
  assert (in_flight Heal "a1" (run config helpful twice idle) = 2) as E
    by (vm_compute; reflexivity).
  rewrite E in H. lia.
Qed.

(** The two passes interleave: with both still in flight, each has
    announced its fix attempt and copied the tree to the same backup. *)
Example interleaved :
  let l := run config helpful (twice ++ turns 12) idle in
  in_flight Heal "a1" l = 2
  ∧ length (Healing.attempts (console (Sched.world l))) = 2
  ∧ filter (λ line, reports_backup line = true) (console (Sched.world l))
    = replicate 2 (Log INFO "Created backup: backup-1006 for app: shop").
Proof. vm_compute. done. Qed.

End SchedClaims.


(* ===================================================================== *)
(** * Further properties *)
(* ===================================================================== *)

Module AsyncMore.
Import Fs Types Async FsFacts AsyncFacts Notions.

(** What a computation returns decides its outcome, the world after it
    being the one it leaves. *)
Lemma exec_outcome {A} (m : R A) (w : World) (r : Result A) :
  (exec m w).1 = r → exec m w = (r, (exec m w).2).
Proof. intros <-. apply exec_eq. Qed.

(** [mapM] over steps that cannot fail. *)
Lemma exec_mapM_total {X Y} (Q : X → Y → Prop) (g : X → R Y) (l : list X) (w : World) :
  (∀ x w, ∃ y w', exec (g x) w = (Ok y, w') ∧ Q x y) →
  ∃ ys w', exec (mapM g l) w = (Ok ys, w') ∧ Forall2 Q l ys.
Proof.
  intros Hg. revert w. induction l as [|x l IH]; intros w; simpl.
  - exists [], w. split; [done|constructor].
  - destruct (Hg x w) as (y & w1 & Hy & Hq).
    destruct (IH w1) as (ys & w2 & Hys & Hqs).
    exists (y :: ys), w2. split; [|by constructor].
    rewrite exec_bind, Hy. cbn [fst snd]. rewrite exec_bind, Hys. done.
Qed.

(** A step that went well, taken apart. *)
Lemma exec_bind_Ok {A B} (m : R A) (g : A → R B) (w w' : World) (b : B) :
  exec (m ≫= g) w = (Ok b, w') →
  ∃ a w1, exec m w = (Ok a, w1) ∧ exec (g a) w1 = (Ok b, w').
Proof.
  rewrite exec_bind. destruct (exec m w) as [[a|e] w1]; cbn [fst snd]; [|done].
  intros H. by exists a, w1.
Qed.

(** *** Paths that stay *)

Lemma lasting_bind q {A B} (m : R A) (g : A → R B) :
  lasting q m → (∀ a, lasting q (g a)) → lasting q (m ≫= g).
Proof.
  intros Hm Hg w Hw. rewrite exec_bind.
  specialize (Hm w Hw). destruct (exec m w) as [[a|e] w1]; cbn [fst snd] in *;
    [by apply Hg|done].
Qed.

Lemma lasting_for_each q {X} (l : list X) (body : X → R unit) :
  (∀ x, lasting q (body x)) → lasting q (for_each l body).
Proof.
  intros Hb. induction l as [|x l IH]; simpl; [by intros w|].
  apply lasting_bind; [apply Hb|done].
Qed.

Lemma lasting_ensureDir q p : lasting q (fs_ensureDir p).
Proof.
  intros w Hw. unfold fs_ensureDir, disk_write. cbn [exec snd].
  unfold ensureDir. destruct (blocked p (fs w)); [done|]. cbn [exec snd fs set_fs].
  unfold pathExists in *. rewrite lookup_mkdirp. by destruct (fs w !! q).
Qed.

Lemma lasting_writeFile q p c : lasting q (fs_writeFile p c).
Proof.
  intros w Hw. unfold fs_writeFile, disk_write. cbn [exec snd].
  destruct (writeFile p c (fs w)) as [e|fs'] eqn:Hwr; [done|]. cbn [exec snd fs set_fs].
  unfold writeFile in Hwr.
  destruct (fs w !! dirname p) as [[?|]|]; try done.
  assert (fs' = <[p := File c]> (fs w)) as ->.
  { destruct (fs w !! p) as [[?|]|]; congruence. }
  unfold pathExists in *. destruct (decide (p = q)) as [->|Hne].
  - by rewrite lookup_insert_eq.
  - by rewrite lookup_insert_ne.
Qed.

Lemma ensureDir_makes (p q : path) (w w' : World) :
  exec (fs_ensureDir p) w = (Ok (), w') → q `prefix_of` p →
  pathExists q (fs w') = true.
Proof.
  unfold fs_ensureDir, disk_write. cbn [exec]. unfold ensureDir.
  destruct (blocked p (fs w)); [done|]. cbn [exec]. intros [= <-] Hq. cbn [fs set_fs].
  unfold pathExists. rewrite lookup_mkdirp.
  destruct (fs w !! q); [done|]. apply inside_prefix in Hq. by rewrite Hq.
Qed.

(** What exists before a step that went well exists after it. *)
Ltac carry H Hf Hl :=
  match type of H with
  | exec ?m ?w = _ =>
      match type of Hf with
      | pathExists ?q _ = true =>
          assert (Hl : lasting q m)
            by first [ apply lasting_for_each; intros; apply lasting_writeFile
                     | apply lasting_ensureDir ];
          specialize (Hl w Hf); rewrite H in Hl; cbn [snd] in Hl
      end
  end.

End AsyncMore.

(** ** More about the healing system *)

Module HealingMore.
Import Fs Types Async Healing FsFacts AsyncFacts HealingFacts.
Import HealingRest Notions AsyncMore.


Section More.
Variable config : FrameworkConfig.
Variable O : Oracle.

Abbreviation A app := (appDir config app).
Abbreviation B app id := (backupDir config app id).

(** X1.  A backup followed at once by the restore of that backup is a
    round trip: when [createBackup] has returned backup [b], the disk
    does not fail and the directory of [b] was new, [rollback] to [b]
    succeeds and the working tree is what it was before the backup. *)
Theorem backup_restore_round_trip (app : GeneratedApp) (w w1 : World) (b : RollbackInfo) :
  exec (createBackup config app) w = (Ok b, w1) →
  disk_budget w = None →
  subtree (B app ("backup-" +:+ pretty (clock w))) (fs w) = ∅ →
  ∃ w2, exec (rollback config app b) w1 = (Ok (), w2)
        ∧ subtree (A app) (fs w2) = subtree (A app) (fs w).
Proof.
  intros Hb Hd Hnew.
  destruct (createBackup_spec config app w w1 b Hb) as (Hid & Hex & Hfs & Hd1 & _).
  rewrite Hd in Hd1.
  destruct (rollback_restores config app b w1 Hd1) as (w2 & Hr & Hfs2 & _).
  { rewrite Hfs. by apply backup_exists. }
  exists w2. split; [exact Hr|]. apply subtree_eq. intros r.
  rewrite Hfs2, restore_installs, Hfs. apply backup_captures; [done|].
  intros r'. rewrite Hid. by rewrite <- lookup_subtree, Hnew, lookup_empty.
Qed.

(** X2.  [createBackup] of an application whose directory is missing
    throws ENOENT and records no backup, but the backup directory it made
    first stays behind, empty. *)
Theorem createBackup_missing_app (app : GeneratedApp) (w : World) :
  pathExists (A app) (fs w) = false →
  blocked (B app ("backup-" +:+ pretty (clock w))) (fs w) = false →
  ∃ w', exec (createBackup config app) w = (Thrown (ENOENT (A app)), w')
        ∧ backupHistory w' = backupHistory w
        ∧ fs w' = mkdirp (B app ("backup-" +:+ pretty (clock w))) (fs w)
        ∧ pathExists (B app ("backup-" +:+ pretty (clock w))) (fs w') = true.
Proof.
  intros Hex Hb. unfold createBackup, walk. crank.
  unfold ensureDir. rewrite Hb. crank.
  unfold copy_step, copy_outcome. cbn [fs set_fs disk_budget].
  set (bd := B app ("backup-" +:+ pretty (clock w))) in *.
  assert (pathExists (A app) (mkdirp bd (fs w)) = false) as ->.
  { subst bd. unfold pathExists in *. rewrite lookup_mkdirp.
    destruct (fs w !! A app); [done|].
    pose proof (appDir_backupDir config app ("backup-" +:+ pretty (clock w))) as Hrel.
    unfold related in Hrel. apply orb_false_elim in Hrel as [-> _]. done. }
  crank. eexists. split; [reflexivity|]. cbn [backupHistory fs set_console set_fs].
  split_and!; [done..|].
  unfold pathExists. rewrite lookup_mkdirp.
  destruct (fs w !! bd); [done|].
  assert (inside bd bd = true) as ->; [|done].
  apply inside_prefix. done.
Qed.

(** *** Applying a fix *)

(** X3.  A create change is a round trip: once it has been applied, the
    file holds the new content (the empty string when the change carries
    none) and the directory it lies in exists. *)
Theorem create_then_read (change : FileChange) (w w' : World) :
  ch_type change = ch_create →
  exec (applyFileChange change) w = (Ok (), w') →
  readFile (split_path (ch_file change)) (fs w')
  = inr (default "" (new_content change))
  ∧ fs w' !! dirname (split_path (ch_file change)) = Some Dir.
Proof.
  intros Ht. unfold applyFileChange. rewrite Ht. cbv zeta.
  set (p := split_path (ch_file change)). crank.
  destruct (ensureDir (dirname p) (fs w)) as [e|fs1] eqn:He; crank; [done|].
  cbn [fs set_fs]. unfold writeFile.
  destruct (fs1 !! dirname p) as [[c|]|] eqn:Hd; crank; try done.
  destruct (fs1 !! p) as [[c|]|] eqn:Hp; crank; try done.
  - intros [= <-]. cbn [fs set_fs]. unfold readFile.
    rewrite lookup_insert_eq. split; [done|].
    rewrite lookup_insert_ne; [done|]. intros Heq. rewrite <- Heq in Hd. congruence.
  - intros [= <-]. cbn [fs set_fs]. unfold readFile.
    rewrite lookup_insert_eq. split; [done|].
    rewrite lookup_insert_ne; [done|]. intros Heq. rewrite <- Heq in Hd. congruence.
Qed.


Lemma exec_for_each_stops {X} (body : X → R unit) (pre : list X) (c : X)
    (post : list X) (w w1 w2 : World) (e : Exn) :
  exec (for_each pre body) w = (Ok (), w1) →
  exec (body c) w1 = (Thrown e, w2) →
  exec (for_each (pre ++ c :: post) body) w = (Thrown e, w2).
Proof.
  revert w. induction pre as [|x pre IH]; intros w; simpl.
  - intros [= <-] Hc. by rewrite exec_bind, Hc.
  - rewrite !exec_bind. destruct (exec (body x) w) as [[[]|e'] w0]; cbn [fst snd];
      [|done]. apply IH.
Qed.

(** X5.  [applyFix] is not transactional and never throws: when a change
    fails after the changes before it went through, it returns false,
    the changes after it are not tried, and the disk keeps what the
    earlier changes (and the failed one) did to it. *)
Theorem applyFix_stops_at_failure (app : GeneratedApp) (fx : Fix)
    (pre : list FileChange) (c : FileChange) (post : list FileChange)
    (w w1 w2 : World) (e : Exn) :
  changes fx = pre ++ c :: post →
  exec (for_each pre applyFileChange)
       (set_console (λ l, l ++ [Log INFO ("Applying fix: " +:+ fix_id fx +:+ " - "
                                            +:+ description fx)]) w)
  = (Ok (), w1) →
  exec (applyFileChange c) w1 = (Thrown e, w2) →
  ∃ w', exec (applyFix app fx) w = (Ok false, w') ∧ fs w' = fs w2.
Proof.
  intros Hc Hpre Hfail. unfold applyFix. rewrite exec_bind.
  cbn [exec logger modify fst snd]. rewrite exec_try_catch, exec_bind, Hc.
  rewrite (exec_for_each_stops _ _ _ _ _ _ _ _ Hpre Hfail). cbn [fst snd].
  crank. eexists. split; [reflexivity|]. done.
Qed.

(** *** Synthesis *)

Lemma generateFix_total app error : total (generateFix config O app error).
Proof.
  unfold generateFix. apply total_bind; [intros w; by eexists|]. intros _.
  apply total_try_catch. intros e w. by eexists.
Qed.

Lemma generateFix_ensures_fresh app error :
  ensures (λ r, ∀ fx, r = Some fx → fresh_for error fx)
          (generateFix config O app error).
Proof.
  unfold generateFix. eapply ensures_bind; [apply ensures_True|]. intros _ _.
  eapply ensures_on_result with (Q := λ r, ∀ fx, r = Some fx → fresh_for error fx).
  - eapply ensures_bind; [apply ensures_True|]. intros context _.
    eapply ensures_bind; [apply ensures_True|]. intros [| |s] _.
    + by apply ensures_Ret.
    + apply ensures_Throw.
    + eapply ensures_bind; [apply ensures_True|]. intros id _.
      eapply ensures_bind; [apply ensures_True|]. intros now _.
      apply ensures_Ret. intros fx [= <-]. by repeat split.
  - intros r Hr. by apply ensures_Ret.
  - intros e. eapply ensures_bind; [apply ensures_True|]. intros _ _.
    by apply ensures_Ret.
Qed.

(** X6.  [generateFix] never throws and never writes to the disk; a fix
    it returns is for this error, typed by [determineFIxType], neither
    applied nor tested, with an empty backup id and the files of its
    changes as rollback files. *)
Theorem generateFix_fresh (app : GeneratedApp) (error : ErrorInfo) (w : World) :
  ∃ r w', exec (generateFix config O app error) w = (Ok r, w')
          ∧ fs w' = fs w
          ∧ ∀ fx, r = Some fx → fresh_for error fx.
Proof.
  destruct (generateFix_total app error w) as [r Hr].
  exists r, (exec (generateFix config O app error) w).2. split_and!.
  - rewrite <- Hr. apply exec_eq.
  - apply generateFix_fs.
  - eapply generateFix_ensures_fresh, Hr.
Qed.

(** *** One attempt *)

Lemma fixError_ensures_settled app error :
  ensures (settled error) (fixError config O app error).
Proof.
  unfold fixError. eapply ensures_bind; [apply ensures_True|]. intros _ _.
  eapply ensures_on_result with (Q := settled error).
  - eapply ensures_bind; [apply ensures_True|]. intros backup _.
    eapply ensures_bind; [apply ensures_True|]. intros [fx|] _.
    + eapply ensures_bind; [apply ensures_True|]. intros [|] _; cbn [negb].
      * eapply ensures_bind; [apply ensures_True|]. intros testPassed _.
        destruct (negb testPassed && _) eqn:Hroll.
        -- eapply ensures_bind; [apply ensures_True|]. intros _ _.
           eapply ensures_bind; [apply ensures_True|]. intros _ _.
           by apply ensures_Ret.
        -- cbv zeta. eapply ensures_bind; [apply ensures_True|]. intros _ _.
           eapply ensures_bind; [apply ensures_True|]. intros _ _.
           by apply ensures_Ret.
      * eapply ensures_bind; [apply ensures_True|]. intros _ _.
        eapply ensures_bind; [apply ensures_True|]. intros _ _.
        by apply ensures_Ret.
    + eapply ensures_bind; [apply ensures_True|]. intros _ _.
      by apply ensures_Ret.
  - intros r Hr. by apply ensures_Ret.
  - intros e. eapply ensures_bind; [apply ensures_True|]. intros _ _.
    by apply ensures_Ret.
Qed.

(** X7.  [fixError] never throws.  It marks the record (fix_attempted,
    and fix_successful as the validation went) exactly when it returns a
    fix that stays applied; when it returns null, or a fix it has rolled
    back, the record is as it was. *)
Theorem fixError_marks_kept_fixes (app : GeneratedApp) (error : ErrorInfo) (w : World) :
  ∃ r w', exec (fixError config O app error) w = (Ok r, w') ∧ settled error r.
Proof.
  destruct (fixError_total config O app error w) as [r Hr].
  exists r, (exec (fixError config O app error) w).2. split.
  - rewrite <- Hr. apply exec_eq.
  - eapply fixError_ensures_settled, Hr.
Qed.

(** *** The sweep *)

(** X8.  [healApp] touches the queue entry of its own application only:
    the entry of every other application id is after the call what it
    was before. *)
Theorem healApp_keeps_other_queues (app : GeneratedApp) (other : string) (w : World) :
  other ≠ app_id app →
  healingQueue (exec (healApp config O app) w).2 !! other = healingQueue w !! other.
Proof.
  intros Hne.
  destruct (healApp_spec config O app w) as (swept & w' & He & _ & _ & Hq & _).
  rewrite He. cbn [snd]. rewrite Hq.
  destruct (found config O app w); [done|]. by apply lookup_delete_ne.
Qed.

(** *** The analyzers *)

Lemma in_subprojects_ensure {P : list ErrorInfo → Prop} appDir
    (f : path → string → R (list ErrorInfo)) :
  P [] → (∀ d t, ensures P (f d t)) →
  Forall (ensures P) (in_subprojects appDir f).
Proof.
  intros Hnil Hf. unfold in_subprojects. repeat constructor.
  all: eapply ensures_bind; [apply ensures_True|]; intros [] _;
    [apply Hf|by apply ensures_Ret].
Qed.

Lemma runESLint_reportable directory type :
  ensures (Forall reportable) (runESLint O directory type).
Proof.
  unfold runESLint. eapply ensures_on_result with (Q := Forall reportable).
  - eapply ensures_bind; [apply ensures_True|]. intros out _.
    destruct (parse_eslint O out.1) as [results|]; [|apply ensures_Throw].
    eapply ensures_bind with (Q := Forall (Forall reportable)).
    + apply ensures_mapM. intros result. unfold eslint_errors.
      destruct (messages result) as [[|m ms]|]; try by apply ensures_Ret.
      apply ensures_mapM. intros message. apply stamped. intros s now.
      split; [|done]. left. split; [done|]. cbn. case_decide; auto.
    + intros found Hf. apply ensures_Ret. by apply Forall_concat.
  - intros errors He. by apply ensures_Ret.
  - intros e. destruct e as [| | | | |m so se]; try by apply ensures_Ret.
    destruct so as [|c so]; [by apply ensures_Ret|].
    destruct (parse_eslint O _); [by apply ensures_Ret|].
    eapply ensures_bind; [apply ensures_True|]. intros _ _. by apply ensures_Ret.
Qed.

Lemma auditDirectory_reportable directory type :
  ensures (Forall reportable) (auditDirectory O directory type).
Proof.
  unfold auditDirectory. eapply ensures_on_result with (Q := Forall reportable).
  - eapply ensures_bind; [apply ensures_True|]. intros out _.
    destruct (parse_audit O out.1) as [audit|]; [|apply ensures_Throw].
    destruct (vulnerabilities audit) as [vs|]; [|by apply ensures_Ret].
    apply ensures_mapM. intros entry. apply stamped. intros s now.
    split; [|done]. right. split; [done|]. cbn. repeat case_decide; done.
  - intros errors He. by apply ensures_Ret.
  - intros e. destruct e as [| | | | |m so se]; try by apply ensures_Ret.
    destruct so as [|c so]; [by apply ensures_Ret|].
    destruct (parse_audit O _); [by apply ensures_Ret|].
    eapply ensures_bind; [apply ensures_True|]. intros _ _. by apply ensures_Ret.
Qed.

Lemma runTypeScriptCheck_reportable directory type :
  ensures (Forall reportable) (runTypeScriptCheck O directory type).
Proof.
  unfold runTypeScriptCheck. eapply ensures_on_result with (Q := λ _, True).
  - apply ensures_True.
  - intros out _. by apply ensures_Ret.
  - intros e. destruct e as [| | | | |m so se]; try by apply ensures_Ret.
    destruct se as [|c se]; [by apply ensures_Ret|].
    apply ensures_mapM. intros d. apply stamped. intros s now.
    split; [|done]. left. split; [done|]. by left.
Qed.

Lemma analyzeApp_ensures_reportable app :
  ensures (Forall reportable) (analyzeApp config O app).
Proof.
  unfold analyzeApp. apply ensures_collect; [|constructor].
  repeat constructor.
  - unfold runStaticAnalysis. apply ensures_collect; [|constructor].
    apply Forall_app. split.
    + apply in_subprojects_ensure; [constructor|apply runESLint_reportable].
    + repeat constructor. unfold checkTypeScript.
      apply ensures_collect; [|constructor].
      apply in_subprojects_ensure; [constructor|apply runTypeScriptCheck_reportable].
  - by apply ensures_Ret.
  - by apply ensures_Ret.
  - unfold analyzeSecurityIssues. apply ensures_collect; [|constructor].
    repeat constructor. unfold runSecurityAudit.
    apply ensures_collect; [|constructor].
    apply in_subprojects_ensure; [constructor|apply auditDirectory_reportable].
Qed.

(** X9.  [analyzeApp] never throws, and every record it returns is a
    lint or type error of kind syntax and severity high or medium, or an
    audit finding of kind security and severity critical, high or
    medium, with fix_attempted and fix_successful false: no analyzer
    reports severity low. *)
Theorem analyzeApp_reportable (app : GeneratedApp) (w : World) :
  ∃ errors w', exec (analyzeApp config O app) w = (Ok errors, w')
               ∧ Forall reportable errors.
Proof.
  destruct (analyzeApp_total config O app w) as [errors Hr].
  exists errors, (exec (analyzeApp config O app) w).2. split.
  - rewrite <- Hr. apply exec_eq.
  - eapply analyzeApp_ensures_reportable, Hr.
Qed.

(** X10.  [runTypeScriptCheck] never throws.  When the compiler exits
    with an error it returns one record per diagnostic line of its
    standard error, in order, of kind syntax and severity high, the file
    joined to the directory checked; when it exits with code 0, or
    prints nothing on standard error, it returns no record.  The
    directory is made of ordinary names and the compiler names its files
    by paths without dot segments, so that joining the two is appending
    them. *)
Theorem runTypeScriptCheck_reports (directory : path) (type : string) (w : World) :
  plain_path directory →
  Forall (λ d, joinable (d_file d))
         (diagnostics O (run_cmd O (tick w) "npx tsc --noEmit" directory)) →
  ∃ errors w',
    exec (runTypeScriptCheck O directory type) w = (Ok errors, w')
    ∧ Forall2 (reports directory)
        (diagnostics O (run_cmd O (tick w) "npx tsc --noEmit" directory)) errors.
Proof.
  intros _ _.
  unfold runTypeScriptCheck, diagnostics. rewrite exec_on_result.
  unfold execAsync. rewrite exec_bind. cbn [exec request fst snd].
  destruct (run_cmd O (tick w) "npx tsc --noEmit" directory) as [so se|m so se];
    cbn [exec mret R_ret fst snd].
  - eexists _, _. split; [reflexivity|constructor].
  - destruct se as [|c se]; cbn [exec mret R_ret].
    + eexists _, _. split; [reflexivity|constructor].
    + apply exec_mapM_total. intros d w1. unfold tsc_error, stamp.
      crank. unfold Math_random. crank. eexists _, _. split; [reflexivity|].
      by repeat split.
Qed.


Lemma prepareErrorContext_tick app error : stable tick (prepareErrorContext app error).
Proof. unfold prepareErrorContext. expose. stable_auto. Qed.

(** X12.  Without a configured client for the reasoning service (the
    provider is local, or the key of the chosen provider is missing),
    [generateFix] returns null for every error and makes no request. *)
Theorem generateFix_unconfigured (app : GeneratedApp) (error : ErrorInfo) (w : World) :
  ai_client_ready config = false →
  ∃ w', exec (generateFix config O app error) w = (Ok None, w')
        ∧ tick w' = tick w ∧ fs w' = fs w.
Proof.
  intros Hready. unfold generateFix. rewrite exec_bind.
  cbn [exec logger modify fst snd]. rewrite exec_try_catch, exec_bind.
  match goal with |- context [exec (prepareErrorContext _ _) ?w0] =>
    pose proof (prepareErrorContext_tick app error w0) as Ht;
    assert (fs (exec (prepareErrorContext app error) w0).2 = fs w0) as Hf
      by (unfold prepareErrorContext; expose;
          match goal with |- fs (exec ?m _).2 = _ =>
            assert (stable fs m) as Hs by stable_auto; apply Hs end);
    destruct (exec (prepareErrorContext app error) w0) as [[context|e] w1]
  end; cbn [fst snd tick fs set_console] in *.
  - unfold callAIForFix. rewrite Hready. rewrite exec_bind, exec_try_catch.
    cbn [exec fst snd]. rewrite exec_bind. cbn [exec logger modify mret R_ret fst snd].
    eexists. split; [reflexivity|]. by cbn [tick fs set_console].
  - rewrite exec_bind. cbn [exec logger modify mret R_ret fst snd].
    eexists. split; [reflexivity|]. by cbn [tick fs set_console].
Qed.

(** X13.  [emergencyHeal] heals nothing: whatever the alert, it returns
    normally and only the console changes, by a warning and the line of
    the handler of the alert's type; no fix is attempted, and the disk,
    the queue and the backups are as they were. *)
Theorem emergencyHeal_only_logs (app : GeneratedApp) (alert : Alert) (w : World) :
  ∃ w', exec (emergencyHeal app alert) w = (Ok (), w')
        ∧ console w'
          = console w
            ++ [Log WARN ("Emergency healing triggered for app: " +:+ app_name app
                            +:+ " - " +:+ alert_message alert);
                Log INFO ("Handling " +:+ show_alert_type (alert_type alert)
                            +:+ " alert for app: " +:+ app_name app)]
        ∧ attempts (console w') = attempts (console w)
        ∧ fs w' = fs w ∧ healingQueue w' = healingQueue w
        ∧ backupHistory w' = backupHistory w ∧ emitted w' = emitted w.
Proof.
  unfold emergencyHeal, handleErrorAlert, handlePerformanceAlert, handleSecurityAlert,
    handleAvailabilityAlert.
  destruct (alert_type alert); crank; (eexists; split; [reflexivity|]);
    cbn [console fs healingQueue backupHistory emitted set_console];
    rewrite <- app_assoc; (split_and!; try done);
    rewrite (app_assoc _ [_] [_]), !attempts_quiet; done.
Qed.

End More.

Import Scenario Attempt Cases.

Lemma backup_restore_round_trip_witness :
  ∃ w2, exec (rollback config shop backup) backed_up.2 = (Ok (), w2)
        ∧ subtree (appDir config shop) (fs w2)
          = subtree (appDir config shop) (fs (announce missing_name world)).
Proof.
  apply (backup_restore_round_trip config shop (announce missing_name world)
           backed_up.2 backup).
  - unfold backed_up. apply exec_outcome. vm_compute. reflexivity.
  - reflexivity.
  - vm_compute. reflexivity.
Defined.

Lemma createBackup_missing_app_witness :
  ∃ w', exec (createBackup config ghost) world
        = (Thrown (ENOENT (appDir config ghost)), w')
        ∧ backupHistory w' = backupHistory world
        ∧ fs w' = mkdirp (backupDir config ghost ("backup-" +:+ pretty (clock world)))
                         (fs world)
        ∧ pathExists (backupDir config ghost ("backup-" +:+ pretty (clock world)))
                     (fs w') = true.
Proof.
  apply (createBackup_missing_app config ghost world); vm_compute; reflexivity.
Defined.

Lemma create_then_read_witness :
  readFile (split_path (ch_file fresh_file))
           (fs (exec (applyFileChange fresh_file) world).2)
  = inr (default "" (new_content fresh_file))
  ∧ fs (exec (applyFileChange fresh_file) world).2
      !! dirname (split_path (ch_file fresh_file)) = Some Dir.
Proof.
  apply (create_then_read fresh_file world).
  - reflexivity.
  - apply exec_outcome. vm_compute. reflexivity.
Defined.


Lemma applyFix_stops_at_failure_witness :
  ∃ w', exec (applyFix shop botched) world = (Ok false, w')
        ∧ fs w'
          = fs (exec (applyFileChange lost_update)
                  (exec (for_each [edit] applyFileChange) (applying botched world)).2).2.
Proof.
  apply (applyFix_stops_at_failure shop botched [edit] lost_update [] world
           (exec (for_each [edit] applyFileChange) (applying botched world)).2
           (exec (applyFileChange lost_update)
              (exec (for_each [edit] applyFileChange) (applying botched world)).2).2
           (JsError ("File not found: " +:+ ch_file lost_update))).
  - reflexivity.
  - apply exec_outcome. vm_compute. reflexivity.
  - apply exec_outcome. vm_compute. reflexivity.
Defined.


Lemma runTypeScriptCheck_reports_witness :
  ∃ errors w',
    exec (runTypeScriptCheck helpful (tree ++ ["frontend"]) "frontend") world
    = (Ok errors, w')
    ∧ Forall2 (reports (tree ++ ["frontend"]))
        (diagnostics helpful
           (run_cmd helpful (tick world) "npx tsc --noEmit" (tree ++ ["frontend"])))
        errors.
Proof.
  apply (runTypeScriptCheck_reports helpful (tree ++ ["frontend"]) "frontend" world).
  - apply (bool_decide_unpack _). vm_compute. exact I.
  - apply (bool_decide_unpack _). vm_compute. exact I.
Defined.

Lemma healApp_keeps_other_queues_witness :
  healingQueue (exec (healApp config silent shop) world).2 !! app_id ghost
  = healingQueue world !! app_id ghost.
Proof. apply (healApp_keeps_other_queues config silent shop (app_id ghost) world). discriminate. Defined.

Lemma generateFix_unconfigured_witness :
  ∃ w', exec (generateFix offline helpful shop missing_name) world = (Ok None, w')
        ∧ tick w' = tick world ∧ fs w' = fs world.
Proof. apply (generateFix_unconfigured offline helpful shop missing_name world). reflexivity. Defined.

End HealingMore.

(** ** More about the testing engine *)

Module TestingMore.
Import Fs Types Async Testing FsFacts AsyncFacts TestingFacts Notions AsyncMore.

Lemma total_attempt {S} (steps : list (S → R S)) (h : Exn → S → R S) (s : S) :
  (∀ e s, total (h e s)) → total (attempt steps h s).
Proof.
  intros Hh. revert s. induction steps as [|st steps IH]; intros s w; simpl.
  - by eexists.
  - rewrite exec_on_result. destruct (exec (st s) w).1 as [s'|e]; [apply IH|apply Hh].
Qed.

Lemma run_suite_total prefix name type steps h :
  (∀ e s, total (h e s)) → total (run_suite prefix name type steps h).
Proof.
  intros Hh. unfold run_suite.
  apply total_bind; [intros w; by eexists|]. intros now.
  apply total_bind; [intros w; by eexists|]. intros start.
  apply total_bind; [by apply total_attempt|]. intros s.
  apply total_bind; [intros w; by eexists|]. intros finish. apply total_Ret.
Qed.

Lemma fail_with_case_total what prefix name description e s :
  total (fail_with_case what prefix name description e s).
Proof. intros w. by eexists. Qed.

Lemma fail_silently_total what e s : total (fail_silently what e s).
Proof. intros w. by eexists. Qed.

Lemma run_suite_settled (J : TestSuite → Prop) prefix name type pre mid post h :
  (∀ s, ensures J (mid s)) →
  Forall (λ st, ∀ s, J s → ensures J (st s)) post →
  (∀ e s, ensures J (h e s)) →
  (∀ d s, J s → J (set_duration d s)) →
  ensures J (run_suite prefix name type (pre ++ mid :: post) h).
Proof.
  intros Hmid Hpost Hh Hd. unfold run_suite.
  eapply ensures_bind; [apply ensures_True|]. intros now _.
  eapply ensures_bind; [apply ensures_True|]. intros start _.
  eapply ensures_bind with (Q := J).
  - by apply ensures_attempt_settled.
  - intros s Hs. eapply ensures_bind; [apply ensures_True|]. intros finish _.
    by apply ensures_Ret, Hd.
Qed.

(** *** Names of test files *)

Lemma append_one (cur : string) (c : ascii) (r : string) :
  (cur +:+ String c "") +:+ r = cur +:+ String c r.
Proof.
  induction cur as [|a cur IH]; [done|].
  change (String a ((cur +:+ String c "") +:+ r) = String a (cur +:+ String c r)).
  by rewrite IH.
Qed.

Lemma split_on_replace_slashes (s t cur : string) :
  split_on "/" (replace_slashes s +:+ t) cur
  = split_on "/" t (cur +:+ replace_slashes s).
Proof.
  revert cur. induction s as [|c s IH]; intros cur; simpl.
  - f_equal. induction cur as [|a cur IHc]; [done|].
    change (String a cur = String a (cur +:+ "")). by rewrite <- IHc.
  - destruct (decide (c = "/"%char)) as [->|Hc].
    + rewrite decide_False by done. rewrite IH. by rewrite append_one.
    + rewrite decide_False by done. rewrite IH. by rewrite append_one.
Qed.

Lemma append_not_empty (s : string) (c : ascii) (t : string) : s +:+ String c t ≠ "".
Proof. by destruct s. Qed.

(** X14.  The test file of an endpoint lies directly in the tests
    directory: with the slashes of the endpoint replaced, its name is a
    single path component, whatever the endpoint. *)
Theorem endpoint_test_is_flat (endpoint : string) :
  split_path (replace_slashes endpoint +:+ ".test.ts")
  = [replace_slashes endpoint +:+ ".test.ts"].
Proof.
  unfold split_path. rewrite split_on_replace_slashes.
  change ".test.ts" with (replace_slashes ".test.ts" +:+ "") at 1.
  rewrite split_on_replace_slashes. cbn [split_on].
  change (replace_slashes ".test.ts") with ".test.ts".
  change ("" +:+ replace_slashes endpoint) with (replace_slashes endpoint).
  rewrite filter_cons_True; [done|]. apply append_not_empty.
Qed.

Section More.
Variable config : FrameworkConfig.
Variable O : Oracle.
Variables render_component render_api : string → string.

Abbreviation run c app dir := (run_category O render_component render_api c app dir).

Lemma run_category_total c app dir : total (run c app dir).
Proof.
  destruct c; cbn [run_category];
    unfold runUnitTests, runIntegrationTests, runE2ETests, runPerformanceTests,
      runAccessibilityTests, runVisualRegressionTests;
    (apply total_bind; [intros w; by eexists|]); intros _;
    apply run_suite_total; intros e s;
    first [apply fail_with_case_total|apply fail_silently_total].
Qed.

Ltac keeps_label :=
  unfold run_suite;
  eapply ensures_bind; [apply ensures_True|]; intros _ _;
  eapply ensures_bind; [apply ensures_True|]; intros ? _;
  eapply ensures_bind; [apply ensures_True|]; intros ? _;
  match goal with |- ensures ?I _ => eapply ensures_bind with (Q := I) end;
  [ apply ensures_attempt;
    [ repeat constructor; intros s Hs;
      unfold step_, step_push, step_push1, step_when, step_if_exists;
      repeat match goal with
      | |- ensures _ (if ?b then _ else _) => destruct b
      | |- ensures _ (mret _) => by apply ensures_Ret
      | |- ensures _ (_ ≫= _) => eapply ensures_bind; [apply ensures_True|]; intros ? _
      end
    | intros e s Hs; unfold fail_with_case, fail_silently;
      repeat match goal with
      | |- ensures _ (mret _) => by apply ensures_Ret
      | |- ensures _ (_ ≫= _) => eapply ensures_bind; [apply ensures_True|]; intros ? _
      end
    | reflexivity ]
  | intros s Hs; eapply ensures_bind; [apply ensures_True|]; intros ? _;
    by apply ensures_Ret ].

Lemma run_category_label c app dir :
  ensures (λ s, (ts_type s, ts_name s) = (suite_type c, suite_name c)) (run c app dir).
Proof.
  destruct c; cbn [run_category suite_type suite_name].
  - unfold runUnitTests. keeps_label.
  - unfold runIntegrationTests. keeps_label.
  - unfold runE2ETests. keeps_label.
  - unfold runPerformanceTests. keeps_label.
  - unfold runAccessibilityTests. keeps_label.
  - unfold runVisualRegressionTests. keeps_label.
Qed.

Lemma verdict_finished s : finished_suite (verdict s).
Proof. unfold finished_suite, verdict. cbn. destruct (forallb _ _); auto. Qed.

Lemma step_finished (m : R unit) s : finished_suite s → ensures finished_suite (step_ m s).
Proof.
  intros Hs. unfold step_. eapply ensures_bind; [apply ensures_True|].
  intros _ _. by apply ensures_Ret.
Qed.

Lemma handler_finished_case what prefix name description e s :
  ensures finished_suite (fail_with_case what prefix name description e s).
Proof.
  unfold fail_with_case.
  eapply ensures_bind; [apply ensures_True|]. intros _ _.
  eapply ensures_bind; [apply ensures_True|]. intros t _.
  apply ensures_Ret. by right.
Qed.

Lemma handler_finished_silent what e s :
  ensures finished_suite (fail_silently what e s).
Proof.
  unfold fail_silently.
  eapply ensures_bind; [apply ensures_True|]. intros _ _.
  apply ensures_Ret. by right.
Qed.

Lemma run_category_finished c app dir : ensures finished_suite (run c app dir).
Proof.
  destruct c; cbn [run_category];
    unfold runUnitTests, runIntegrationTests, runE2ETests, runPerformanceTests,
      runAccessibilityTests, runVisualRegressionTests;
    (eapply ensures_bind; [apply ensures_True|]); intros _ _.
  - apply (run_suite_settled _ _ _ _ [_; _; _] _ []);
      [|constructor|intros; apply handler_finished_case|done].
    intros s. apply ensures_Ret. apply (verdict_finished s).
  - apply (run_suite_settled _ _ _ _ [_; _; _; _; _] _ [_]);
      [|constructor; [|constructor]|intros; apply handler_finished_case|done].
    + intros s. apply ensures_Ret, verdict_finished.
    + intros s. apply step_finished.
  - apply (run_suite_settled _ _ _ _ [_; _; _; _; _; _] _ [_]);
      [|constructor; [|constructor]|intros; apply handler_finished_case|done].
    + intros s. apply ensures_Ret, verdict_finished.
    + intros s. apply step_finished.
  - apply (run_suite_settled _ _ _ _ [_; _; _; _] _ [_]);
      [|constructor; [|constructor]|intros; apply handler_finished_silent|done].
    + intros s. apply ensures_Ret, verdict_finished.
    + intros s. apply step_finished.
  - apply (run_suite_settled _ _ _ _ [_; _; _; _] _ [_]);
      [|constructor; [|constructor]|intros; apply handler_finished_silent|done].
    + intros s. apply ensures_Ret, verdict_finished.
    + intros s. apply step_finished.
  - apply (run_suite_settled _ _ _ _ [_; _; _; _] _ [_]);
      [|constructor; [|constructor]|intros; apply handler_finished_silent|done].
    + intros s. apply ensures_Ret. by left.
    + intros s. apply step_finished.
Qed.

Lemma run_category_labelled c app dir (w : World) :
  ∃ s w', exec (run c app dir) w = (Ok s, w') ∧ labelled c s.
Proof.
  destruct (run_category_total c app dir w) as [s Hs].
  exists s, (exec (run c app dir) w).2. split.
  - rewrite <- Hs. apply exec_eq.
  - split; [eapply run_category_label, Hs|eapply run_category_finished, Hs].
Qed.

(** X15.  With the two sub-projects of the application on the disk, so
    that its dev servers can be started, [runAllTests] never throws.  It
    returns one suite per enabled category, in the order unit,
    integration, e2e, performance, accessibility, visual; each suite
    carries the type and name of its method (the accessibility suite is
    typed security, the visual one e2e) and is passed or failed, never
    left running; and the browser has been closed when the call
    returns. *)
Theorem runAllTests_suites (app : GeneratedApp) (w : World) :
  launchable (join [workspaceDir config; "apps"; app_id app]) w →
  ∃ suites w',
    exec (runAllTests config O render_component render_api app) w = (Ok suites, w')
    ∧ Forall2 labelled (filter (λ c, enabled config c = true) categories) suites
    ∧ browser w' = false.
Proof.
  intros _.
  unfold runAllTests. rewrite exec_bind. cbn [exec logger modify fst snd]. cbv zeta.
  set (w0 := set_console _ w).
  set (dir := join [workspaceDir config; "apps"; app_id app]).
  destruct (exec_mapM_total labelled (λ c, run c app dir)
              (filter (λ c, enabled config c = true) categories) w0)
    as (suites & w1 & Hm & Hl).
  { intros c w2. apply run_category_labelled. }
  unfold try_finally. rewrite exec_on_result, exec_try_catch.
  rewrite (exec_bind (mapM _ _) _ w0), Hm. cbn [fst snd].
  rewrite !(exec_bind (logger _ _)). cbn [exec logger modify mret R_ret fst snd].
  unfold cleanup. rewrite exec_bind, exec_bind. cbn [exec get fst snd browser set_console].
  destruct (browser w1) eqn:Hb; cbn [exec modify mret R_ret fst snd].
  all: eexists _, _; (split; [reflexivity|]); split; [done|by cbn].
Qed.

(** X16.  [runJestTests] never throws.  It makes one case per assertion
    of the report, in order, passed exactly when the assertion's status
    is the string passed (a pending or skipped assertion comes out
    failed).  When the iteration over the report breaks, it returns the
    cases made until then followed by one failed case named after the
    suite; when the command is rejected or its output cannot be read at
    all, it returns that failed case alone. *)
Theorem runJestTests_cases (directory : path) (suiteName : string) (w : World) :
  ∃ cases w',
    exec (runJestTests O directory suiteName) w = (Ok cases, w')
    ∧ match run_cmd O (tick w) "npm test -- --json --watchAll=false" directory with
      | Exit0 so _ =>
          match parse_jest O so with
          | Some results =>
              match testResults results with
              | Some files =>
                  ∃ made, Forall2 renders (concat files) made
                          ∧ match jest_breaks results with
                            | Some _ => ∃ t, cases = made ++ [t] ∧ jest_failure suiteName t
                            | None => cases = made
                            end
              | None => cases = []
              end
          | None => ∃ t, cases = [t] ∧ jest_failure suiteName t
          end
      | ExitErr _ _ _ => ∃ t, cases = [t] ∧ jest_failure suiteName t
      end.
Proof.
  unfold runJestTests, jest_error. rewrite exec_try_catch.
  unfold execAsync. rewrite !exec_bind. cbn [exec request fst snd].
  destruct (run_cmd O (tick w) _ directory) as [so se|m so se];
    cbn [exec mret R_ret fst snd].
  - destruct (parse_jest O so) as [results|]; cbn [exec fst snd].
    + destruct (testResults results) as [files|]; cbn [exec default mret R_ret fst snd].
      * match goal with |- context [exec (mapM ?g ?l ≫= _) ?w0] =>
          destruct (exec_mapM_total renders g l w0) as (made & w1 & Hm & Hl)
        end.
        { intros a w0. unfold jest_case. rewrite exec_bind.
          cbn [exec Date_now get fst snd]. unfold Math_random.
          rewrite exec_bind. cbn [exec mret R_ret fst snd].
          eexists _, _. split; [reflexivity|]. by repeat split. }
        rewrite exec_bind, Hm. cbn [fst snd].
        destruct (jest_breaks results) as [message|].
        -- rewrite exec_bind. cbn [exec Date_now get mret R_ret fst snd].
           eexists _, _. split; [reflexivity|]. exists made. split; [done|].
           eexists. split; [reflexivity|]. by repeat split.
        -- cbn [exec mret R_ret fst snd]. eexists _, _. split; [reflexivity|].
           by exists made.
      * eexists _, _. split; [reflexivity|]. done.
    + rewrite exec_bind. cbn [exec Date_now get mret R_ret fst snd].
      eexists _, _. split; [reflexivity|]. eexists. split; [reflexivity|].
      by repeat split.
  - rewrite exec_bind. cbn [exec Date_now get mret R_ret fst snd].
    eexists _, _. split; [reflexivity|]. eexists. split; [reflexivity|].
    by repeat split.
Qed.

(** *** Generated tests *)

(** X17.  When [generateUnitTests] returns normally, the frontend and
    the backend directory of the application both exist, whether or not
    the application has components or endpoints to test. *)
Theorem generateUnitTests_makes_both (app : GeneratedApp) (appDir : path) (w w' : World) :
  exec (generateUnitTests render_component render_api app appDir) w = (Ok (), w') →
  pathExists (appDir ++ ["frontend"]) (fs w') = true
  ∧ pathExists (appDir ++ ["backend"]) (fs w') = true.
Proof.
  unfold generateUnitTests. cbv zeta. intros H.
  apply exec_bind_Ok in H as ([] & w1 & H1 & H).
  apply exec_bind_Ok in H as ([] & w2 & H2 & H).
  apply exec_bind_Ok in H as ([] & w3 & H3 & H4).
  assert (pathExists (appDir ++ ["frontend"]) (fs w1) = true) as Hf1.
  { eapply ensureDir_makes; [exact H1|]. by apply prefix_app, prefix_cons, prefix_nil. }
  assert (pathExists (appDir ++ ["backend"]) (fs w3) = true) as Hb3.
  { eapply ensureDir_makes; [exact H3|]. by apply prefix_app, prefix_cons, prefix_nil. }
  split.
  - carry H2 Hf1 Hf2. carry H3 Hf2 Hf3. by carry H4 Hf3 Hf4.
  - by carry H4 Hb3 Hb4.
Qed.

(** *** Waiting for the server *)

Lemma poll_spec (url : string) (start timeout interval : N) (rounds : nat) (w : World) :
  ∃ b w', exec (poll O rounds url start timeout interval) w = (Ok b, w')
    ∧ (clock w ≤ clock w')%N ∧ (tick w ≤ tick w')%nat
    ∧ if b : bool
      then ∃ t, (tick w ≤ t < tick w')%nat ∧ Deployment.answers (http_get O t url) = true
      else (timeout ≤ clock w' - start)%N
           ∨ (clock w + N.of_nat rounds * interval ≤ clock w')%N.
Proof.
  revert w. induction rounds as [|rounds IH]; intros w; cbn [poll].
  - exists false, w. split; [done|]. split_and!; [lia..|]. right. lia.
  - rewrite exec_bind. cbn [exec Date_now get fst snd].
    destruct (clock w - start <? timeout)%N eqn:Hlt.
    + rewrite exec_bind. cbn [exec request fst snd].
      destruct (http_get O (tick w) url) as [[|] code|msg] eqn:Hget;
        cbn [exec mret R_ret].
      * exists true. eexists. split; [reflexivity|].
        unfold passing. cbn [clock tick set_tick set_clock].
        split_and!; [lia..|]. exists (tick w). split; [lia|]. by rewrite Hget.
      * rewrite exec_bind. cbn [exec sleep fst snd].
        match goal with |- context [exec _ ?w2] => destruct (IH w2) as (b & w' & He & Hc & Ht & Hb) end.
        unfold passing in *. cbn [clock tick set_tick set_clock] in *.
        exists b, w'. split; [exact He|]. split_and!; [lia..|].
        destruct b.
        -- destruct Hb as (t & Ht' & Ha). exists t. split; [lia|done].
        -- destruct Hb as [Hb|Hb]; [by left|right]. lia.
      * rewrite exec_bind. cbn [exec sleep fst snd].
        match goal with |- context [exec _ ?w2] => destruct (IH w2) as (b & w' & He & Hc & Ht & Hb) end.
        unfold passing in *. cbn [clock tick set_tick set_clock] in *.
        exists b, w'. split; [exact He|]. split_and!; [lia..|].
        destruct b.
        -- destruct Hb as (t & Ht' & Ha). exists t. split; [lia|done].
        -- destruct Hb as [Hb|Hb]; [by left|right]. lia.
    + exists false, w. split; [done|]. split_and!; [lia..|]. left.
      apply N.ltb_ge in Hlt. done.
Qed.

(** X18.  [waitForServer] returns only after a request to the URL was
    answered ok, and throws -- "Server at <url> did not start within
    <timeout>ms" -- only when the timeout has gone by since it was
    called. *)
Theorem waitForServer_timing (url : string) (timeout : N) (w : World) :
  match exec (waitForServer O url timeout) w with
  | (Ok _, w') =>
      ∃ t, (tick w ≤ t < tick w')%nat ∧ Deployment.answers (http_get O t url) = true
  | (Thrown e, w') =>
      e = JsError ("Server at " +:+ url +:+ " did not start within "
                     +:+ pretty timeout +:+ "ms")
      ∧ (clock w + timeout ≤ clock w')%N
  end.
Proof.
  unfold waitForServer. rewrite exec_bind. cbn [exec Date_now get fst snd].
  rewrite exec_bind.
  destruct (poll_spec url (clock w) timeout 1000 (poll_rounds timeout 1000) w)
    as (b & w' & He & Hc & Ht & Hb).
  rewrite He. cbn [fst snd]. destruct b; cbn [exec mret R_ret].
  - done.
  - split; [done|]. destruct Hb as [Hb|Hb]; [lia|].
    unfold poll_rounds in Hb.
    pose proof (N.mul_succ_div_gt timeout 1000 ltac:(done)). lia.
Qed.

End More.

Import Scenario Attempt Cases.

Lemma runAllTests_suites_witness :
  ∃ suites w',
    exec (runAllTests config responsive plain plain shop) staged = (Ok suites, w')
    ∧ Forall2 labelled (filter (λ c, enabled config c = true) categories) suites
    ∧ browser w' = false.
Proof.
  apply (runAllTests_suites config responsive plain plain shop staged).
  split; vm_compute; reflexivity.
Defined.

Lemma generateUnitTests_makes_both_witness :
  pathExists (tree ++ ["frontend"])
             (fs (exec (generateUnitTests plain plain storefront tree) world).2) = true
  ∧ pathExists (tree ++ ["backend"])
               (fs (exec (generateUnitTests plain plain storefront tree) world).2) = true.
Proof.
  apply (generateUnitTests_makes_both plain plain storefront tree world).
  apply exec_outcome. vm_compute. reflexivity.
Defined.

End TestingMore.

(** ** More about the deployment manager *)

Module DeploymentMore.
Import Fs Types Async Deployment FsFacts AsyncFacts HealingFacts DeploymentFacts.
Import DeploymentRest Notions AsyncMore.

Lemma aborted_cases config env :
  aborted config env = d_failed ∨ aborted config env = d_rolled_back.
Proof. unfold aborted. destruct (_ && _); auto. Qed.

Section More.
Variable config : FrameworkConfig.
Variable O : Oracle.

(** *** Events *)

Lemma await_application_emitted (rounds : nat) (id u : string) (start maxWaitTime : N) :
  stable emitted (await_application O rounds id u start maxWaitTime).
Proof.
  induction rounds as [|rounds IH]; cbn [await_application].
  - apply stable_Throw.
  - apply stable_bind; [expose; stable_auto|]. intros now.
    destruct (_ <? _)%N; [|apply stable_Throw].
    apply stable_bind; [expose; stable_auto|]. intros [[|] code|msg].
    + unfold push, update. expose. stable_auto.
    + apply stable_bind; [expose; stable_auto|]. intros _. exact IH.
    + apply stable_bind; [expose; stable_auto|]. intros _. exact IH.
Qed.

Lemma deploy_steps_emitted (app : GeneratedApp) (id : string) (env : Environment) :
  stable emitted (deploy_steps config O app id env).
Proof.
  unfold deploy_steps, runPreDeploymentChecks, validateEnvironmentVariables,
    buildApplication, deploy_provider, deployWithDocker, deployWithVercel,
    deployWithNetlify, deployWithAWS, runPostDeploymentChecks, waitForApplication,
    runHealthChecks, health_check, runSmokeTests, push, field, update.
  cbv zeta.
  repeat match goal with
  | |- stable _ (await_application _ _ _ _ _ _) => apply await_application_emitted
  | |- stable _ (_ ≫= _) => apply stable_bind
  | |- stable _ (try_catch _ _) => apply stable_try_catch
  | |- stable _ (for_each _ _) => apply stable_for_each
  | |- stable _ (mret _) => apply stable_Ret
  | |- stable _ (Ret _) => apply stable_Ret
  | |- stable _ (Throw _) => apply stable_Throw
  | |- stable _ (if ?b then _ else _) => destruct b
  | |- stable _ (match ?x with _ => _ end) => destruct x
  | |- ∀ _, _ => intro
  | |- stable emitted (logger _ _) => expose; stable_auto
  | |- stable emitted Date_now => expose; stable_auto
  | |- stable emitted (get _) => expose; stable_auto
  | |- stable emitted (modify _) => expose; stable_auto
  | |- stable emitted (request _ _) => expose; stable_auto
  | |- stable emitted (sleep _) => expose; stable_auto
  | |- stable emitted (execAsync _ _ _) => expose; stable_auto
  | |- stable emitted (fs_pathExists _) => expose; stable_auto
  | |- stable emitted (fs_readFile _) => expose; stable_auto
  end.
Qed.

(** *** The deployment object *)

Lemma deploy_steps_identity (app : GeneratedApp) (id id' : string) (env : Environment) :
  stable (observe identity id) (deploy_steps config O app id' env).
Proof.
  unfold deploy_steps.
  apply stable_bind; [observe_auto|]. intros _.
  apply stable_bind; [observe_auto|]. intros _.
  apply stable_bind; [observe_auto|]. intros now.
  apply stable_bind; [observe_auto|]. intros _. cbv zeta.
  apply stable_bind.
  { unfold runPreDeploymentChecks, validateEnvironmentVariables. observe_auto. }
  intros _. apply stable_bind.
  { unfold buildApplication. observe_auto. }
  intros _. apply stable_bind.
  { unfold deploy_provider, deployWithDocker, deployWithVercel, deployWithNetlify,
      deployWithAWS. observe_auto. }
  intros _. apply stable_bind; [by apply runPostDeploymentChecks_observe|].
  intros _. observe_auto.
Qed.

(** A try block that went through leaves the deployment successful. *)
Lemma deploy_steps_success (app : GeneratedApp) (id : string) (env : Environment)
    (w w' : World) (d' : DeploymentResult) :
  exec (deploy_steps config O app id env) w = (Ok (), w') →
  activeDeployments w' !! id = Some d' →
  dep_status d' = d_success.
Proof.
  unfold deploy_steps. intros H Hd'.
  apply bind_Ok_inv in H as (_ & ? & _ & H).
  apply bind_Ok_inv in H as (_ & ? & _ & H).
  apply bind_Ok_inv in H as (now & ? & _ & H).
  apply bind_Ok_inv in H as (_ & ? & _ & H). cbv zeta in H.
  apply bind_Ok_inv in H as (_ & ? & _ & H).
  apply bind_Ok_inv in H as (_ & ? & _ & H).
  apply bind_Ok_inv in H as (_ & w3 & _ & H).
  apply bind_Ok_inv in H as ([] & w4 & _ & H).
  unfold update, push, update, logger in H. crank_in H.
  injection H as <-. cbn [activeDeployments set_activeDeployments set_console] in Hd'.
  rewrite !lookup_alter_eq in Hd'. destruct (activeDeployments w4 !! id); [|done].
  cbn in Hd'. by injection Hd' as <-.
Qed.

Lemma deploy_failed_full (app : GeneratedApp) (id : string) (env : Environment)
    (e : Exn) (w : World) (d : DeploymentResult) :
  activeDeployments w !! id = Some d →
  ∃ w' d', exec (deploy_failed config app id env e) w = (Ok (), w')
           ∧ activeDeployments w' !! id = Some d'
           ∧ dep_status d' = aborted config env
           ∧ url d' = url d ∧ identity d' = identity d
           ∧ ("Deployment failed: " +:+ exn_message e) ∈ logs d'
           ∧ emitted w' = emitted w ∧ fs w' = fs w ∧ tick w' = tick w.
Proof.
  intros Hd. unfold deploy_failed, aborted, rollbackDeployment, push, update, logger.
  destruct (rollbackOnFailure config && negb (bool_decide (env = development)));
    crank; (do 2 eexists; split; [reflexivity|]);
    cbn [activeDeployments set_activeDeployments set_console emitted fs tick];
    rewrite !lookup_alter_eq, Hd; cbn; split_and!; try done.
  - cbn [logs with_status with_log]. rewrite !elem_of_app. left. left. right.
    by apply list_elem_of_singleton.
  - cbn [logs with_status with_log]. rewrite !elem_of_app. right.
    by apply list_elem_of_singleton.
Qed.

(** The try block and the catch block of [deploy], together. *)
Lemma deploy_try (app : GeneratedApp) (id : string) (env : Environment)
    (w1 : World) (d1 : DeploymentResult) :
  activeDeployments w1 !! id = Some d1 →
  ∃ w2 d2,
    exec (try_catch (deploy_steps config O app id env) (deploy_failed config app id env)) w1
    = (Ok (), w2)
    ∧ activeDeployments w2 !! id = Some d2
    ∧ identity d2 = identity d1
    ∧ emitted w2 = emitted w1
    ∧ match exec (deploy_steps config O app id env) w1 with
      | (Ok _, w) => dep_status d2 = d_success ∧ w2 = w
      | (Thrown e, w) =>
          dep_status d2 = aborted config env
          ∧ observe url id w = Some (url d2)
          ∧ ("Deployment failed: " +:+ exn_message e) ∈ logs d2
          ∧ fs w2 = fs w ∧ tick w2 = tick w
      end.
Proof.
  intros Hd1. rewrite exec_try_catch.
  pose proof (deploy_steps_present config O app id id env w1) as Hpresent.
  pose proof (deploy_steps_identity app id id env w1) as Hid.
  pose proof (deploy_steps_emitted app id env w1) as Hem.
  unfold observe in Hpresent, Hid. rewrite Hd1 in Hpresent, Hid.
  destruct (exec (deploy_steps config O app id env) w1) as [[[]|e] w] eqn:Hsteps;
    cbn [fst snd] in *.
  - destruct (activeDeployments w !! id) as [d2|] eqn:Hd2; [|done].
    exists w, d2. split_and!; try done.
    + simpl in Hid. by apply (inj Some) in Hid.
    + eapply deploy_steps_success; [exact Hsteps|exact Hd2].
  - destruct (activeDeployments w !! id) as [d2|] eqn:Hd2; [|done].
    destruct (deploy_failed_full app id env e w d2 Hd2)
      as (w3 & d3 & Hf & Hd3 & Hst & Hurl & Hident & Hlog & Hem3 & Hfs & Htick).
    rewrite Hf. exists w3, d3. split_and!; try done.
    + rewrite Hident. simpl in Hid. by apply (inj Some) in Hid.
    + congruence.
    + unfold observe. rewrite Hd2. cbn. by rewrite Hurl.
Qed.

(** [deploy] around its try block. *)
Lemma deploy_shape (app : GeneratedApp) (env : Environment) (w : World) :
  ∃ id w1,
    activeDeployments w1 !! id = Some (new_deployment id app env (clock w))
    ∧ emitted w1 = emitted w ++ [DeploymentStarted (app_id app) id]
    ∧ fs w1 = fs w ∧ tick w1 = S (tick w) ∧ clock w1 = clock w
    ∧ ∀ w2 d2,
        exec (try_catch (deploy_steps config O app id env)
                        (deploy_failed config app id env)) w1 = (Ok (), w2) →
        activeDeployments w2 !! id = Some d2 →
        ∃ w', exec (deploy config O app env) w
              = (Ok (with_duration (clock w2 - clock w) d2), w')
              ∧ activeDeployments w' !! id = Some (with_duration (clock w2 - clock w) d2)
              ∧ emitted w'
                = emitted w2
                  ++ [DeploymentCompleted (app_id app)
                        (with_duration (clock w2 - clock w) d2)]
              ∧ fs w' = fs w2 ∧ tick w' = tick w2.
Proof.
  unfold deploy.
  rewrite exec_bind; cbn [exec Date_now get fst snd].
  rewrite exec_bind; cbn [exec Math_random fst snd]. cbv zeta.
  rewrite exec_bind; cbn [exec Date_now get fst snd].
  rewrite exec_bind; cbn [exec modify fst snd].
  rewrite exec_bind; cbn [exec emit modify fst snd].
  rewrite exec_bind; cbn [exec Date_now get fst snd].
  set (id := "deploy-" +:+ _).
  set (w1 := set_emitted _ _).
  exists id, w1. split_and!.
  - unfold w1. cbn [activeDeployments set_emitted set_activeDeployments set_tick clock].
    apply lookup_insert_eq.
  - done.
  - done.
  - done.
  - done.
  - intros w2 d2 Htry Hd2. rewrite exec_bind. unfold try_finally.
    rewrite exec_on_result, Htry. cbn [fst snd]. unfold update, field. crank.
    rewrite !lookup_alter_eq, Hd2. cbn.
    eexists. split; [reflexivity|].
    cbn [activeDeployments emitted fs tick set_emitted set_activeDeployments].
    rewrite lookup_alter_eq, Hd2. done.
Qed.

(** X19.  [deploy] never throws.  The deployment it returns is concluded
    (success, failed or rolled_back, never pending or deploying), is for
    the application and the environment of the call, is the one
    [getDeploymentStatus] and [getDeploymentLogs] find under its id when
    the call returns, and the call has emitted deployment:started and
    then deployment:completed, once each, the latter with the deployment
    returned. *)
Theorem deploy_returns_registered (app : GeneratedApp) (env : Environment) (w : World) :
  ∃ d w',
    exec (deploy config O app env) w = (Ok d, w')
    ∧ concluded d
    ∧ dep_app_id d = app_id app ∧ environment d = env
    ∧ exec (getDeploymentStatus (dep_id d)) w' = (Ok (Some d), w')
    ∧ exec (getDeploymentLogs (dep_id d)) w' = (Ok (logs d), w')
    ∧ emitted w' = emitted w ++ [DeploymentStarted (app_id app) (dep_id d);
                                  DeploymentCompleted (app_id app) d].
Proof.
  destruct (deploy_shape app env w) as (id & w1 & Hd1 & Hem1 & _ & _ & _ & Hrest).
  destruct (deploy_try app id env w1 _ Hd1) as (w2 & d2 & Htry & Hd2 & Hid & Hem2 & Hcase).
  destruct (Hrest w2 d2 Htry Hd2) as (w' & He & Hd' & Hem' & _).
  eexists _, w'. split; [exact He|].
  unfold identity in Hid. cbn in Hid. injection Hid as Hi1 Hi2 Hi3 Hi4.
  assert (dep_id (with_duration (clock w2 - clock w) d2) = id) as Hdid by done.
  split_and!.
  - unfold concluded. cbn [dep_status with_duration].
    destruct (exec (deploy_steps config O app id env) w1) as [[[]|e] w3].
    + destruct Hcase as [-> _]. auto.
    + destruct Hcase as [-> _]. destruct (aborted_cases config env) as [-> | ->]; auto.
  - done.
  - done.
  - unfold getDeploymentStatus. cbn [exec get]. by rewrite Hdid, Hd'.
  - unfold getDeploymentLogs. rewrite exec_bind. cbn [exec get fst snd].
    by rewrite Hdid, Hd'.
  - rewrite Hem', Hem2, Hem1, Hdid, <- app_assoc. done.
Qed.

(** *** Deployments that cannot go through *)

Lemma deploy_steps_without_manifest (app : GeneratedApp) (id : string)
    (env : Environment) (w1 : World) :
  pathExists (join [workspaceDir config; "apps"; app_id app] ++ ["package.json"]) (fs w1)
  = false →
  ∃ w, exec (deploy_steps config O app id env) w1
       = (Thrown (JsError "Required file not found: package.json"), w)
       ∧ fs w = fs w1 ∧ tick w = tick w1
       ∧ observe url id w = observe url id w1.
Proof.
  intros Hex. unfold deploy_steps, runPreDeploymentChecks, push, update, logger. cbv zeta.
  cbn [Datatypes.app for_each].
  change (split_path "package.json") with ["package.json"]. crank.
  rewrite Hex. crank. eexists. split; [reflexivity|].
  cbn [fs tick set_console set_activeDeployments]. split_and!; [done..|].
  unfold observe. cbn [activeDeployments set_console set_activeDeployments].
  rewrite !lookup_alter_eq. by destruct (activeDeployments w1 !! id).
Qed.

(** X20.  An application without a package.json is not deployed: the
    deployment ends failed (rolled_back when rollback on failure is
    configured and the environment is not development) with the missing
    file in its log and no URL, and the call has run no command and
    left the disk as it was. *)
Theorem deploy_without_manifest (app : GeneratedApp) (env : Environment) (w : World) :
  pathExists (join [workspaceDir config; "apps"; app_id app] ++ ["package.json"]) (fs w)
  = false →
  ∃ d w',
    exec (deploy config O app env) w = (Ok d, w')
    ∧ dep_status d = aborted config env
    ∧ url d = None
    ∧ "Deployment failed: Required file not found: package.json" ∈ logs d
    ∧ fs w' = fs w
    ∧ tick w' = S (tick w).
Proof.
  intros Hex.
  destruct (deploy_shape app env w) as (id & w1 & Hd1 & _ & Hfs1 & Htick1 & _ & Hrest).
  destruct (deploy_try app id env w1 _ Hd1) as (w2 & d2 & Htry & Hd2 & _ & _ & Hcase).
  destruct (deploy_steps_without_manifest app id env w1) as (w3 & Hs & Hfs3 & Htick3 & Hurl3).
  { by rewrite Hfs1. }
  rewrite Hs in Hcase. destruct Hcase as (Hst & Hurl & Hlog & Hfs2 & Htick2).
  destruct (Hrest w2 d2 Htry Hd2) as (w' & He & _ & _ & Hfs' & Htick').
  eexists _, w'. split; [exact He|]. cbn [dep_status url logs with_duration].
  split_and!; [done| |done|congruence|congruence].
  rewrite Hurl3 in Hurl. unfold observe in Hurl. rewrite Hd1 in Hurl.
  cbn in Hurl. by injection Hurl.
Qed.

Lemma deploy_steps_unimplemented (app : GeneratedApp) (id : string)
    (env : Environment) (w1 : World) :
  provider config = aws ∨ provider config = gcp →
  (∃ e, (exec (deploy_steps config O app id env) w1).1 = Thrown e)
  ∧ observe url id (exec (deploy_steps config O app id env) w1).2 = observe url id w1.
Proof.
  intros Hp. split.
  - destruct (exec (deploy_steps config O app id env) w1) as [[[]|e] w] eqn:H;
      [exfalso|by exists e].
    unfold deploy_steps in H.
    apply bind_Ok_inv in H as (_ & ? & _ & H).
    apply bind_Ok_inv in H as (_ & ? & _ & H).
    apply bind_Ok_inv in H as (now & ? & _ & H).
    apply bind_Ok_inv in H as (_ & ? & _ & H). cbv zeta in H.
    apply bind_Ok_inv in H as (_ & ? & _ & H).
    apply bind_Ok_inv in H as (_ & w2 & _ & H).
    apply bind_Ok_inv in H as ([] & w3 & H & _).
    unfold deploy_provider, deployWithAWS, push, update in H.
    destruct Hp as [Hp|Hp]; rewrite Hp in H; crank_in H; discriminate H.
  - revert w1. change (stable (observe url id) (deploy_steps config O app id env)).
    unfold deploy_steps.
    apply stable_bind; [observe_auto|]. intros _.
    apply stable_bind; [observe_auto|]. intros _.
    apply stable_bind; [observe_auto|]. intros now.
    apply stable_bind; [observe_auto|]. intros _. cbv zeta.
    apply stable_bind.
    { unfold runPreDeploymentChecks, validateEnvironmentVariables. observe_auto. }
    intros _. apply stable_bind.
    { unfold buildApplication. observe_auto. }
    intros _. apply stable_bind.
    { unfold deploy_provider, deployWithAWS.
      destruct Hp as [Hp|Hp]; rewrite Hp; observe_auto. }
    intros _. apply stable_bind; [by apply runPostDeploymentChecks_observe|].
    intros _. observe_auto.
Qed.

(** X21.  The aws and gcp providers deploy nothing: with either one
    configured, every deployment ends failed (rolled_back when rollback
    on failure is configured and the environment is not development) and
    without a URL. *)
Theorem deploy_unimplemented_provider (app : GeneratedApp) (env : Environment) (w : World) :
  provider config = aws ∨ provider config = gcp →
  ∃ d w',
    exec (deploy config O app env) w = (Ok d, w')
    ∧ dep_status d = aborted config env
    ∧ url d = None.
Proof.
  intros Hp.
  destruct (deploy_shape app env w) as (id & w1 & Hd1 & _ & _ & _ & _ & Hrest).
  destruct (deploy_try app id env w1 _ Hd1) as (w2 & d2 & Htry & Hd2 & _ & _ & Hcase).
  destruct (deploy_steps_unimplemented app id env w1 Hp) as [[e He] Hurl1].
  destruct (exec (deploy_steps config O app id env) w1) as [[[]|e'] w3];
    cbn [fst snd] in *; [discriminate He|].
  destruct Hcase as (Hst & Hurl & _).
  destruct (Hrest w2 d2 Htry Hd2) as (w' & Hd & _).
  eexists _, w'. split; [exact Hd|]. cbn [dep_status url with_duration].
  split; [done|].
  rewrite Hurl1 in Hurl. unfold observe in Hurl. rewrite Hd1 in Hurl.
  cbn in Hurl. by injection Hurl.
Qed.

(** *** Post-deployment checks *)

(** X22.  The one check with a production gate is the smoke test: when
    the script exists and exits with an error, [runSmokeTests] logs the
    failure, and throws exactly when the deployment is for production;
    for development and staging it returns normally. *)
Theorem smoke_test_gate (app : GeneratedApp) (id : string) (w : World)
    (d : DeploymentResult) (m so se : string) :
  activeDeployments w !! id = Some d →
  pathExists (smoke_test_script config app) (fs w) = true →
  run_cmd O (tick w) ("node " +:+ render (smoke_test_script config app))
          (deployed_dir config app)
  = ExitErr m so se →
  ∃ w', exec (runSmokeTests config O app id) w
        = (if decide (environment d = production)
           then Thrown (ExecError m so se) else Ok (), w')
        ∧ observe logs id w'
          = Some (logs d ++ ["Running smoke tests..."; "Smoke tests failed: " +:+ m])
        ∧ observe dep_status id w' = Some (dep_status d).
Proof.
  unfold smoke_test_script, deployed_dir.
  set (appDir := join [workspaceDir config; "apps"; app_id app]).
  set (script := appDir ++ ["scripts"; "smoke-test.js"]).
  intros Hd Hex Hrun. unfold runSmokeTests, push, update, field.
  cbv zeta. fold appDir. fold script.
  rewrite exec_bind. cbn [exec modify fst snd]. rewrite exec_try_catch.
  rewrite exec_bind. cbn [exec fs_pathExists disk_read fst snd fs set_activeDeployments].
  rewrite Hex. unfold execAsync. rewrite !exec_bind.
  cbn [exec request fst snd tick set_activeDeployments]. rewrite Hrun.
  cbn [exec fst snd]. rewrite exec_bind. cbn [exec modify fst snd].
  rewrite exec_bind. cbn [exec get fst snd].
  unfold passing.
  cbn [activeDeployments set_activeDeployments set_tick set_clock].
  rewrite !lookup_alter_eq, Hd. cbn [fmap option_fmap option_map default environment
    with_log]. unfold Datatypes.id.
  destruct (decide (environment d = production)); cbn [exec mret R_ret];
    (eexists; split; [reflexivity|]); unfold observe;
    cbn [activeDeployments set_activeDeployments set_tick set_clock];
    rewrite !lookup_alter_eq, Hd; cbn; by rewrite <- app_assoc.
Qed.

Lemma await_application_spec (id u : string) (start maxWaitTime : N)
    (rounds : nat) (w : World) :
  match exec (await_application O rounds id u start maxWaitTime) w with
  | (Ok _, w') =>
      ∃ t, (tick w ≤ t < tick w')%nat ∧ answers (http_get O t u) = true
  | (Thrown e, w') =>
      e = JsError ("Application did not start within "
                     +:+ pretty (maxWaitTime / 1000)%N +:+ " seconds")
      ∧ (clock w ≤ clock w')%N ∧ (tick w ≤ tick w')%nat
      ∧ ((maxWaitTime ≤ clock w' - start)%N
         ∨ (clock w + N.of_nat rounds * 5000 ≤ clock w')%N)
  end.
Proof.
  revert w. induction rounds as [|rounds IH]; intros w; cbn [await_application].
  - cbn [exec]. split_and!; [done|lia..|]. right. lia.
  - rewrite exec_bind. cbn [exec Date_now get fst snd].
    destruct (clock w - start <? maxWaitTime)%N eqn:Hlt.
    + rewrite exec_bind. cbn [exec request fst snd].
      destruct (http_get O (tick w) u) as [[|] code|msg] eqn:Hget.
      * unfold push, update. cbn [exec modify]. unfold passing.
        cbn [tick set_tick set_clock set_activeDeployments].
        exists (tick w). split; [lia|]. by rewrite Hget.
      * rewrite exec_bind. cbn [exec sleep fst snd].
        match goal with |- context [exec _ ?w2] => specialize (IH w2) end.
        destruct (exec _ _) as [[[]|e] w'].
        -- unfold passing in IH. cbn [clock tick set_tick set_clock] in IH.
           destruct IH as (t & Ht & Ha). exists t. split; [lia|done].
        -- unfold passing in IH. cbn [clock tick set_tick set_clock] in IH.
           destruct IH as (-> & Hc & Ht & Hb). split_and!; [done|lia..|].
           destruct Hb as [Hb|Hb]; [by left|right]. lia.
      * rewrite exec_bind. cbn [exec sleep fst snd].
        match goal with |- context [exec _ ?w2] => specialize (IH w2) end.
        destruct (exec _ _) as [[[]|e] w'].
        -- unfold passing in IH. cbn [clock tick set_tick set_clock] in IH.
           destruct IH as (t & Ht & Ha). exists t. split; [lia|done].
        -- unfold passing in IH. cbn [clock tick set_tick set_clock] in IH.
           destruct IH as (-> & Hc & Ht & Hb). split_and!; [done|lia..|].
           destruct Hb as [Hb|Hb]; [by left|right]. lia.
    + cbn [exec]. split_and!; [done|lia..|]. left. by apply N.ltb_ge in Hlt.
Qed.

(** X23.  [waitForApplication] returns only after a request to the URL
    was answered ok, and throws -- "Application did not start within 300
    seconds" -- only when five minutes have gone by since it was called;
    the environment plays no part. *)
Theorem waitForApplication_timing (u id : string) (w : World) :
  match exec (waitForApplication O u id) w with
  | (Ok _, w') =>
      ∃ t, (tick w ≤ t < tick w')%nat ∧ answers (http_get O t u) = true
  | (Thrown e, w') =>
      e = JsError "Application did not start within 300 seconds"
      ∧ (clock w + 300000 ≤ clock w')%N
  end.
Proof.
  unfold waitForApplication, push, update.
  rewrite exec_bind. cbn [exec modify fst snd].
  rewrite exec_bind. cbn [exec Date_now get fst snd clock set_activeDeployments].
  match goal with |- context [exec (await_application _ ?r _ _ ?s ?m) ?w1] =>
    pose proof (await_application_spec id u s m r w1) as H
  end.
  destruct (exec _ _) as [[[]|e] w'].
  - exact H.
  - cbn [clock tick set_activeDeployments] in H. destruct H as (-> & Hc & _ & Hb).
    split; [done|]. destruct Hb as [Hb|Hb]; [lia|].
    change (poll_rounds 300000 5000) with 61 in Hb. lia.
Qed.

Lemma waitForApplication_answered (u id : string) (w w' : World) :
  exec (waitForApplication O u id) w = (Ok (), w') →
  ∃ t, answers (http_get O t u) = true.
Proof.
  unfold waitForApplication, push, update.
  rewrite exec_bind. cbn [exec modify fst snd].
  rewrite exec_bind. cbn [exec Date_now get fst snd clock set_activeDeployments].
  match goal with |- context [exec (await_application _ ?r _ _ ?s ?m) ?w1] =>
    pose proof (await_application_spec id u s m r w1) as H
  end.
  destruct (exec _ _) as [[[]|e] w1]; [|done].
  intros _. destruct H as (t & _ & Ha). by exists t.
Qed.

(** X24.  A deployment reported successful with a URL has been seen
    answering: some request to that URL during the call got an ok
    response. *)
Theorem success_has_answered (app : GeneratedApp) (env : Environment) (w w' : World)
    (d : DeploymentResult) (u : string) :
  exec (deploy config O app env) w = (Ok d, w') →
  dep_status d = d_success →
  url d = Some u →
  ∃ t, answers (http_get O t u) = true.
Proof.
  intros He Hst Hu.
  destruct (deploy_shape app env w) as (id & w1 & Hd1 & _ & _ & _ & _ & Hrest).
  destruct (deploy_try app id env w1 _ Hd1) as (w2 & d2 & Htry & Hd2 & _ & _ & Hcase).
  destruct (Hrest w2 d2 Htry Hd2) as (w'' & He' & _).
  rewrite He in He'. injection He' as -> _. cbn [dep_status url with_duration] in *.
  destruct (exec (deploy_steps config O app id env) w1) as [[[]|e] w3] eqn:Hsteps.
  - destruct Hcase as [_ ->].
    destruct (deploy_steps_waited config O app id env w1 w3 u Hsteps) as [w4 Hw4].
    { unfold observe. by rewrite Hd2, <- Hu. }
    destruct (exec (waitForApplication O u id) w4) as [[[]|e] w5] eqn:Hwait;
      [|discriminate Hw4].
    eapply waitForApplication_answered, Hwait.
  - destruct Hcase as [Hab _]. rewrite Hst in Hab.
    destruct (aborted_cases config env) as [H|H]; rewrite H in Hab; discriminate Hab.
Qed.

End More.

Import Scenario Attempt Cases.

Lemma deploy_without_manifest_witness :
  ∃ d w',
    exec (deploy config responsive ghost development) world = (Ok d, w')
    ∧ dep_status d = aborted config development
    ∧ url d = None
    ∧ "Deployment failed: Required file not found: package.json" ∈ logs d
    ∧ fs w' = fs world
    ∧ tick w' = S (tick world).
Proof.
  apply (deploy_without_manifest config responsive ghost development world).
  vm_compute. reflexivity.
Defined.

Lemma deploy_unimplemented_provider_witness :
  ∃ d w',
    exec (deploy cloud responsive shop staging) world = (Ok d, w')
    ∧ dep_status d = aborted cloud staging
    ∧ url d = None.
Proof.
  apply (deploy_unimplemented_provider cloud responsive shop staging world).
  left. reflexivity.
Defined.

Lemma smoke_test_gate_witness :
  ∃ w', exec (runSmokeTests config failing_script shop "d1") probing
        = (if decide (environment (new_deployment "d1" shop staging 1000) = production)
           then Thrown (ExecError "Command failed: node" "" "boom") else Ok (), w')
        ∧ observe logs "d1" w'
          = Some (logs (new_deployment "d1" shop staging 1000)
                    ++ ["Running smoke tests..."; "Smoke tests failed: Command failed: node"])
        ∧ observe dep_status "d1" w'
          = Some (dep_status (new_deployment "d1" shop staging 1000)).
Proof.
  apply (smoke_test_gate config failing_script shop "d1" probing
           (new_deployment "d1" shop staging 1000) "Command failed: node" "" "boom").
  all: vm_compute; reflexivity.
Defined.

Lemma success_has_answered_witness :
  ∃ t, answers (http_get responsive t local_url) = true.
Proof.
  apply (success_has_answered config responsive shop development world
           (exec (deploy config responsive shop development) world).2 launched local_url).
  - apply exec_outcome. vm_compute. reflexivity.
  - reflexivity.
  - reflexivity.
Defined.

End DeploymentMore.
